(** * Transcript comparison utilities: a shallow embedding of [utilities.py]

    The text normaliser ([clean_text] and its helpers), the alignment
    engine ([equalize]), the line wrapper ([insert_newlines]) and the
    error-rate functions ([calculate_wer], [calculate_cer], [weighted_wer])
    are embedded as Rocq functions and their documented properties proved.
    The printing functions [show_comparison] and [print_centered_columns]
    are embedded as functions that return the lines printed, and
    [compare_words] and [en_short_forms] as they are written.
    [change_to_seconds] (it rests on [pandas] and [datetime.strptime]) and
    [print_to_width] (its number of lines is the ceiling of a floating
    point quotient) are not embedded.

    Conventions.
    - A Python [str] is a [list ascii]; a character is a code point in
      U+0000..U+00FF and is classified (whitespace, word character, case)
      the way Python classifies that code point.
    - A Python [int] is a [Z]; a Python [float] is a binary64 [float].
    - A [Dict[str, str]] is a [gmap (list ascii) (list ascii)]; a
      [List[str]] is a [list (list ascii)].
    - A function that can raise returns a [result]. *)

From Stdlib Require Import ZArith List Ascii String Bool Lia.
From Stdlib Require Import Floats.PrimFloat Floats.SpecFloat Floats.FloatOps.
From stdpp Require Import base option list strings gmap.

Local Open Scope list_scope.

#[local] Set Warnings "-inexact-float".

(** ** Python strings *)

Module Py.

Abbreviation str := (list ascii).

(** A string literal. *)
Definition s (x : string) : str := list_ascii_of_string x.

Definition code (c : ascii) : N := N_of_ascii c.

Definition in_range (lo hi : N) (c : ascii) : bool :=
  ((lo <=? code c) && (code c <=? hi))%N.

(** [str.isspace] on one character; also the class [\s] of [re] and the
    separators of [str.split()] and [str.strip()]. *)
Definition isspace (c : ascii) : bool :=
  in_range 9 13 c || in_range 28 32 c || (code c =? 133)%N || (code c =? 160)%N.

(** The class [\w] of [re] on [str] patterns: alphanumeric or underscore. *)
Definition isword (c : ascii) : bool :=
  in_range 48 57 c || in_range 65 90 c || (code c =? 95)%N || in_range 97 122 c
  || (code c =? 170)%N || in_range 178 179 c || (code c =? 181)%N
  || in_range 185 186 c || in_range 188 190 c || in_range 192 214 c
  || in_range 216 246 c || in_range 248 255 c.

(** [str.lower] on one character. *)
Definition char_lower (c : ascii) : ascii :=
  if in_range 65 90 c || in_range 192 214 c || in_range 216 222 c
  then ascii_of_N (code c + 32) else c.

Definition lower (t : str) : str := map char_lower t.

(** [string.punctuation]. *)
Definition punctuation : str :=
  s "!" ++ [ascii_of_nat 34] ++ s "#$%&'()*+,-./:;<=>?@[\]^_`{|}~".

(** [t.split()]: the maximal runs of non-whitespace characters. *)
Fixpoint split (t : str) : list str :=
  match t with
  | [] => []
  | c :: t' =>
      if isspace c then split t'
      else match t' with
           | [] => [[c]]
           | d :: _ =>
               if isspace d then [c] :: split t'
               else match split t' with
                    | w :: ws => (c :: w) :: ws
                    | [] => [[c]]
                    end
           end
  end.

(** [sep.join(ws)]. *)
Fixpoint join (sep : str) (ws : list str) : str :=
  match ws with
  | [] => []
  | [w] => w
  | w :: ws' => w ++ sep ++ join sep ws'
  end.

Fixpoint lstrip (t : str) : str :=
  match t with
  | c :: t' => if isspace c then lstrip t' else t
  | [] => []
  end.

Definition rstrip (t : str) : str := rev (lstrip (rev t)).

(** [t.strip()]. *)
Definition strip (t : str) : str := rstrip (lstrip t).

(** [t.replace(old, new)] for a one-character [old]. *)
Definition replace (old : ascii) (new : str) (t : str) : str :=
  flat_map (fun c => if Ascii.eqb c old then new else [c]) t.

(** [t.translate(str.maketrans("", "", deleted))]. *)
Definition translate_delete (deleted : str) (t : str) : str :=
  List.filter (fun c => negb (bool_decide (c ∈ deleted))) t.

End Py.

Import Py.

(** [len(w) > 0]. *)
Definition nonempty (w : str) : bool :=
  match w with [] => false | _ :: _ => true end.

(** ** Exceptions *)

Inductive exn :=
| IndexError
| ZeroDivisionError
| OverflowError
| EmptyReferenceError.

Inductive result (A : Type) :=
| Ok (a : A)
| Raise (e : exn).

Arguments Ok {A} a.
Arguments Raise {A} e.

#[global] Instance result_ret : MRet result := fun A a => Ok a.

#[global] Instance result_bind : MBind result := fun A B k r =>
  match r with
  | Ok a => k a
  | Raise e => Raise e
  end.

(** ** The pattern of [remove_consecutive_duplicates]

    A backtracking matcher for [\b(\w+)(?:\W+\1\b)+] under [re.IGNORECASE],
    and [re.sub] with the replacement [\1]. A position in the subject is
    the character before it (if any) and the text from it on. *)

Module Re.

Definition pos := (option ascii * str)%type.

(** [\b]: exactly one of the two neighbours is a word character. *)
Definition word_boundary (prev next : option ascii) : bool :=
  xorb (from_option isword false prev) (from_option isword false next).

(** [\1] under [IGNORECASE]: the group's text, compared character by
    character after lowercasing. *)
Fixpoint backref (g : str) (p : pos) : option pos :=
  match g with
  | [] => Some p
  | c :: g' =>
      match snd p with
      | d :: t' =>
          if Ascii.eqb (char_lower c) (char_lower d)
          then backref g' (Some d, t') else None
      | [] => None
      end
  end.

(** One round of [\W+\1\b]: the greedy [\W+] takes as many characters as
    it can and gives them back one at a time until the rest matches. *)
Fixpoint nonword_group (g : str) (t : str) : option pos :=
  match t with
  | c :: t' =>
      if isword c then None
      else match nonword_group g t' with
           | Some p => Some p
           | None =>
               match backref g (Some c, t') with
               | Some p =>
                   if word_boundary (fst p) (head (snd p)) then Some p else None
               | None => None
               end
           end
  | [] => None
  end.

(** The rounds after the first of [(?:...)+]: as many as match. Nothing
    follows the repetition in the pattern, so a completed round is never
    undone. Every round consumes a character: [fuel] is the length of the
    remaining text. *)
Fixpoint more_rounds (fuel : nat) (g : str) (p : pos) : pos :=
  match fuel with
  | O => p
  | S fuel' =>
      match nonword_group g (snd p) with
      | Some p' => more_rounds fuel' g p'
      | None => p
      end
  end.

(** [(\w+)] followed by the repetition: the greedy [\w+] first tries to
    take one more character, and tries the rest of the pattern with the
    characters it holds ([taken ++ [c]]) when that fails. *)
Fixpoint group_rounds (taken : str) (t : str) : option (str * pos) :=
  match t with
  | c :: t' =>
      if isword c then
        match group_rounds (taken ++ [c]) t' with
        | Some r => Some r
        | None =>
            let g := taken ++ [c] in
            match nonword_group g t' with
            | Some p => Some (g, more_rounds (length (snd p)) g p)
            | None => None
            end
        end
      else None
  | [] => None
  end.

(** A match starting at a position: the group's text and the position
    after the match. *)
Definition match_at (p : pos) : option (str * pos) :=
  if word_boundary (fst p) (head (snd p)) then group_rounds [] (snd p) else None.

(** [pattern.sub(r"\1", t)]: leftmost matches, not overlapping, each
    replaced by its group; other characters are copied. *)
Fixpoint sub_from (fuel : nat) (p : pos) : str :=
  match fuel with
  | O => snd p
  | S fuel' =>
      match match_at p with
      | Some (g, p') => g ++ sub_from fuel' p'
      | None =>
          match snd p with
          | c :: t' => c :: sub_from fuel' (Some c, t')
          | [] => []
          end
      end
  end.

Definition sub (t : str) : str := sub_from (length t) (None, t).

End Re.

(** ** Data manipulation *)

Definition remove_punctuation (text : str) : str :=
  translate_delete punctuation text.

Definition remove_words (text : str) (words_to_remove : list str) : str :=
  let filtered_words :=
    List.filter (fun word => negb (bool_decide (lower word ∈ words_to_remove)))
                (split text) in
  join (s " ") filtered_words.

Definition replace_words (text : str) (replacements : gmap str str) : str :=
  let result_string :=
    fold_left
      (fun result_string word =>
         let word := match replacements !! lower word with
                     | Some full => full
                     | None => word
                     end in
         result_string ++ word ++ s " ")
      (split text) [] in
  strip result_string.

Definition remove_consecutive_duplicates (text : str) : str := Re.sub text.

Definition clean_text (text : str) (replacements : gmap str str)
    (to_remove : list str) (cased : bool) : str :=
  let text := replace "-" (s " ") text in
  let text := replace_words text replacements in
  let text := remove_punctuation text in
  let text := replace_words text replacements in
  let text := remove_words text to_remove in
  let text := remove_consecutive_duplicates text in
  let text := if negb cased then lower text else text in
  text.

(** [re.split(r"\s+", text)]: the pieces between maximal runs of
    whitespace, empty pieces at the two ends included. [in_gap] tells
    that the previous character was whitespace. *)
Fixpoint re_split_spaces (in_gap : bool) (text : str) : list str :=
  match text with
  | [] => [[]]
  | c :: t' =>
      if isspace c then
        if in_gap then re_split_spaces true t' else [] :: re_split_spaces true t'
      else match re_split_spaces false t' with
           | w :: ws => (c :: w) :: ws
           | [] => [[c]]
           end
  end.

Definition tokenize (text : str) : list str := re_split_spaces false text.

Definition untokenize (text_list : list str) : str := join (s " ") text_list.

(** ** Sequences: indexing and slicing *)

Module Seq.

(** [l[lo:hi]] for indices that are not negative. *)
Definition slice {A} (l : list A) (lo hi : nat) : list A :=
  take (hi - lo) (drop lo l).

(** [l[i]] for a Python integer: counted from the end when negative,
    [IndexError] out of range. *)
Definition index {A} (l : list A) (i : Z) : result A :=
  let n := Z.of_nat (length l) in
  let j := if (i <? 0)%Z then (n + i)%Z else i in
  if ((0 <=? j) && (j <? n))%Z then
    match l !! Z.to_nat j with
    | Some x => Ok x
    | None => Raise IndexError
    end
  else Raise IndexError.

(** The bound of a slice, clipped to the sequence as Python does. *)
Definition clip {A} (l : list A) (i : Z) : nat :=
  let n := Z.of_nat (length l) in
  Z.to_nat (if (i <? 0)%Z then Z.max 0 (n + i) else Z.min i n).

(** [l[:i]] and [l[i:]]. *)
Definition upto {A} (l : list A) (i : Z) : list A := take (clip l i) l.
Definition from {A} (l : list A) (i : Z) : list A := drop (clip l i) l.

End Seq.

(** ** Matching blocks

    [difflib.SequenceMatcher] is not part of the repository; the module
    below stands for [SequenceMatcher(a=x, b=y).get_matching_blocks()]. *)

Module Difflib.

Record Match := { a : nat; b : nat; size : nat }.

Fixpoint common_prefix (x y : list str) : nat :=
  match x, y with
  | u :: x', v :: y' =>
      if bool_decide (u = v) then S (common_prefix x' y') else 0
  | _, _ => 0
  end.

Definition candidates (alo ahi blo bhi : nat) : list (nat * nat) :=
  flat_map (fun i => map (fun j => (i, j)) (seq blo (bhi - blo)))
           (seq alo (ahi - alo)).

(** Modelled from the spec: the longest matching block. The longest
    contiguous run common to [x[alo:ahi]] and [y[blo:bhi]]; among the
    longest the earliest in [x], then the earliest in [y]; the empty block
    at [(alo, blo)] when nothing matches. *)
Definition find_longest_match (x y : list str) (alo ahi blo bhi : nat) : Match :=
  fold_left
    (fun best '(i, j) =>
       let k := common_prefix (Seq.slice x i ahi) (Seq.slice y j bhi) in
       if size best <? k then {| a := i; b := j; size := k |} else best)
    (candidates alo ahi blo bhi)
    {| a := alo; b := blo; size := 0 |}.

(** Modelled from the spec: the greedy alignment. Find the longest
    matching block, recurse on what lies before it on both sides and on
    what lies after it. A call on a range of [n] tokens of the first
    sequence needs [fuel >= n]. *)
Fixpoint blocks (fuel : nat) (x y : list str) (alo ahi blo bhi : nat) : list Match :=
  match fuel with
  | O => []
  | S fuel' =>
      let m := find_longest_match x y alo ahi blo bhi in
      if size m =? 0 then []
      else
        (if (alo <? a m) && (blo <? b m)
         then blocks fuel' x y alo (a m) blo (b m) else [])
        ++ [m]
        ++ (if (a m + size m <? ahi) && (b m + size m <? bhi)
            then blocks fuel' x y (a m + size m) ahi (b m + size m) bhi else [])
  end.

(** Modelled from the spec: the matching blocks of the two token
    sequences in order, closed by the block [(len(x), len(y), 0)]. *)
Definition get_matching_blocks (x y : list str) : list Match :=
  blocks (length x) x y 0 (length x) 0 (length y)
  ++ [{| a := length x; b := length y; size := 0 |}].

End Difflib.

(** ** Strings comparison *)

(** ["_" * len(w)]. *)
Definition underscores (w : str) : str := repeat "_"%char (length w).

(** [for i in range(lo, hi): res += ["_" * len(l[i])]]. *)
Definition fillers (l : list str) (lo hi : nat) : result (list str) :=
  mapM (fun i => match l !! i with
                 | Some w => Ok (underscores w)
                 | None => Raise IndexError
                 end)
       (seq lo (hi - lo)).

(** The body of the loop of [equalize]; the state is [res1], [res2] and
    [prev]. *)
Definition equalize_step (l1 l2 : list str)
    (st : list str * list str * Difflib.Match) (m : Difflib.Match)
  : result (list str * list str * Difflib.Match) :=
  let '(res1, res2, prev) := st in
  let pa := Difflib.a prev + Difflib.size prev in
  let pb := Difflib.b prev + Difflib.size prev in
  '(res1, res2) ←
    (if bool_decide (pa ≠ Difflib.a m) then
       gap ← fillers l1 pa (Difflib.a m);
       Ok (res1 ++ Seq.slice l1 pa (Difflib.a m), res2 ++ gap)
     else Ok (res1, res2));
  '(res1, res2) ←
    (if bool_decide (pb ≠ Difflib.b m) then
       gap ← fillers l2 pb (Difflib.b m);
       Ok (res1 ++ gap, res2 ++ Seq.slice l2 pb (Difflib.b m))
     else Ok (res1, res2));
  Ok (res1 ++ Seq.slice l1 (Difflib.a m) (Difflib.a m + Difflib.size m),
      res2 ++ Seq.slice l2 (Difflib.b m) (Difflib.b m + Difflib.size m),
      m).

Fixpoint equalize_loop (l1 l2 : list str)
    (st : list str * list str * Difflib.Match) (ms : list Difflib.Match)
  : result (list str * list str * Difflib.Match) :=
  match ms with
  | [] => Ok st
  | m :: ms' => st' ← equalize_step l1 l2 st m; equalize_loop l1 l2 st' ms'
  end.

(** The two token sequences [res1] and [res2] of [equalize] before they
    are joined. *)
Definition equalize_tokens (s1 s2 : str) : result (list str * list str) :=
  let l1 := tokenize s1 in
  let l2 := tokenize s2 in
  let prev := {| Difflib.a := 0; Difflib.b := 0; Difflib.size := 0 |} in
  '(res1, res2, _) ← equalize_loop l1 l2 ([], [], prev)
                       (Difflib.get_matching_blocks l1 l2);
  Ok (res1, res2).

Definition equalize (s1 s2 : str) : result (str * str) :=
  '(res1, res2) ← equalize_tokens s1 s2;
  Ok (untokenize res1, untokenize res2).

(** The inner loop of [insert_newlines]:
    [while from_string[cut_off - 1] != " " and cut_off > every - window:
       cut_off -= 1].
    The subscript is evaluated first. [cut_off] goes down at most
    [window] times: [fuel] counts the steps left. *)
Fixpoint find_cut (from_string : str) (low : Z) (fuel : nat) (cut_off : Z) : result Z :=
  c ← Seq.index from_string (cut_off - 1);
  if negb (Ascii.eqb c " ") && (low <? cut_off)%Z then
    match fuel with
    | S fuel' => find_cut from_string low fuel' (cut_off - 1)
    | O => Ok cut_off
    end
  else Ok cut_off.

(** One turn of the outer loop: the chunk cut and what is left. *)
Definition cut_chunk (from_string : str) (every window : Z) : result (str * str) :=
  cut_off ←
    (if (every <? Z.of_nat (length from_string))%Z
     then find_cut from_string (every - window) (Z.to_nat window) every
     else Ok (Z.of_nat (length from_string)));
  Ok (Seq.upto from_string cut_off, Seq.from from_string cut_off).

(** [insert_newlines] run for at most [fuel] turns of
    [while len(from_string) > 0]; [None] when the loop is still running
    after [fuel] turns. *)
Fixpoint insert_newlines_loop (fuel : nat) (every window : Z)
    (from_string : str) (chunks : list str) : option (result (list str)) :=
  match from_string with
  | [] => Some (Ok chunks)
  | _ :: _ =>
      match fuel with
      | O => None
      | S fuel' =>
          match cut_chunk from_string every window with
          | Ok (part, rest) =>
              insert_newlines_loop fuel' every window rest (chunks ++ [part])
          | Raise e => Some (Raise e)
          end
      end
  end.

(** A turn that cuts a character shortens the text, so [len(string)]
    turns are enough whenever every turn does. *)
Definition insert_newlines (string : str) (every window : Z)
  : option (result (list str)) :=
  insert_newlines_loop (length string) every window string [].

(** ** Floating point

    [float] is IEEE 754 binary64 with round-to-nearest-even, as Python's. *)

Module Float.

(** The float nearest to an integer (ties to even). *)
Definition nearest_int (z : Z) : float :=
  SF2Prim (binary_normalize prec emax z 0 false).

(** The integers that round to a finite float. *)
Definition fits (z : Z) : bool := (Z.abs z <? 2 ^ 1024 - 2 ^ 970)%Z.

(** [float(z)], which [int * float] and [float / int] apply to the
    integer: the nearest float, [OverflowError] beyond the finite range. *)
Definition of_int (z : Z) : result float :=
  if fits z then Ok (nearest_int z) else Raise OverflowError.

(** The integer nearest to [n / d], ties to even ([0 <= n], [0 < d]). *)
Definition div_half_even (n d : Z) : Z :=
  let q := (n / d)%Z in
  let r := (n mod d)%Z in
  if (2 * r <? d)%Z then q
  else if (d <? 2 * r)%Z then (q + 1)%Z
  else if Z.even q then q else (q + 1)%Z.

(** The float nearest to [n / d] ([0 < n], [0 < d]): the quotient to 64
    more bits, and one bit that tells whether anything was left. *)
Definition nearest (n d : Z) : float :=
  let q := (n * 2 ^ 64 / d)%Z in
  let sticky := if ((n * 2 ^ 64) mod d =? 0)%Z then 0%Z else 1%Z in
  SF2Prim (binary_normalize prec emax (2 * q + sticky) (-65) false).

(** [round(x, 2)]: the decimal with two digits nearest to the exact value
    of [x] (ties to even), read back as the nearest float. A float with a
    non-negative exponent is an integer and is its own rounding. *)
Definition round2 (x : float) : float :=
  match Prim2SF x with
  | S754_finite sg m e =>
      if (0 <=? e)%Z then x
      else
        let h := div_half_even (Z.pos m * 100) (2 ^ (- e)) in
        if (h =? 0)%Z then (if sg then neg_zero else zero)
        else let r := nearest h 100 in if sg then (- r)%float else r
  | _ => x
  end.

(** [sum(xs)] of floats: [0 + x1 + x2 + ...], from the left. *)
Definition sum (xs : list float) : float :=
  fold_left PrimFloat.add xs 0%float.

End Float.

(** ** Error rates of [jiwer]

    [jiwer] is not part of the repository; the module below stands for
    [wer] and [cer]. The code passes one reference and one hypothesis,
    each in a list of its own. *)

Module Jiwer.

(** Modelled from the spec: the edit distance, the least number of
    substitutions, deletions and insertions that turn [x] into [y]. *)
Fixpoint levenshtein {A} `{EqDecision A} (x : list A) : list A -> nat :=
  fix against (y : list A) : nat :=
    match x, y with
    | [], _ => length y
    | _, [] => length x
    | u :: x', v :: y' =>
        if decide (u = v) then levenshtein x' y'
        else S (Nat.min (levenshtein x' y')
                        (Nat.min (levenshtein x' y) (against y')))
    end.

(** Modelled from the spec: the error rate, (substitutions + deletions
    + insertions) / (number of reference units), and an explicit error,
    [EmptyReferenceError], when the reference is empty. *)
Definition error_rate {A} `{EqDecision A} (reference hypothesis : list A)
  : result float :=
  match reference with
  | [] => Raise EmptyReferenceError
  | _ :: _ =>
      Ok (Float.nearest_int (Z.of_nat (levenshtein reference hypothesis))
          / Float.nearest_int (Z.of_nat (length reference)))%float
  end.

(** Modelled from the spec: WER, the error rate over the word sequences
    of the two strings. *)
Definition wer (y_true y_hat : str) : result float :=
  error_rate (split y_true) (split y_hat).

(** Modelled from the spec: CER, the same formula at the character
    level. *)
Definition cer (y_true y_hat : str) : result float :=
  error_rate (strip y_true) (strip y_hat).

End Jiwer.

(** ** Metrics calculation *)

Definition calculate_wer (ground_true hypothesis : str)
    (replacements : gmap str str) (to_remove : list str) (cased : bool)
  : result float :=
  let ground_true := clean_text ground_true replacements to_remove cased in
  let hypothesis := clean_text hypothesis replacements to_remove cased in
  wer_value ← Jiwer.wer ground_true hypothesis;
  Ok (Float.round2 (100 * wer_value)).

Definition calculate_cer (ground_true hypothesis : str)
    (replacements : gmap str str) (to_remove : list str) (cased : bool)
  : result float :=
  let ground_true := clean_text ground_true replacements to_remove cased in
  let hypothesis := clean_text hypothesis replacements to_remove cased in
  cer_value ← Jiwer.cer ground_true hypothesis;
  Ok (Float.round2 (100 * cer_value)).

(** [sum(weights)] of integers. *)
Definition sum_int (weights : list Z) : Z := fold_left Z.add weights 0%Z.

(** The products [weight * wer] over [zip(weights, wers)], in order. *)
Definition products (weights : list Z) (wers : list float) : result (list float) :=
  mapM (fun '(weight, wer) => w ← Float.of_int weight; Ok (w * wer)%float)
       (zip weights wers).

(** [sum(products) / total]: [ZeroDivisionError] when [total] is zero.
    The sum of no product is the integer [0], and [0 / total] of two
    integers is a zero with the sign of [total]; otherwise the sum is a
    float and [total] is converted before the division. *)
Definition weighted_quotient (ps : list float) (total : Z) : result float :=
  if (total =? 0)%Z then Raise ZeroDivisionError
  else match ps with
       | [] => Ok (if (total <? 0)%Z then neg_zero else zero)
       | _ :: _ => d ← Float.of_int total; Ok (Float.sum ps / d)%float
       end.

Definition weighted_wer (weights : list Z) (wers : list float) : result float :=
  ps ← products weights wers;
  wwer ← weighted_quotient ps (sum_int weights);
  Ok (Float.round2 wwer).

(** ** The cleaning pipeline in the words of the specification

    The seven steps as the specification states them; [clean_text] above
    follows the source. *)

Module Spec.

(** 1. Replace literal hyphen characters with a single space. *)
Definition hyphens_to_spaces (t : str) : str :=
  map (fun c => if Ascii.eqb c "-" then " "%char else c) t.

(** 2. Split on whitespace; a word whose lowercase form is a key is
    substituted by the mapped value; rejoin with single spaces. *)
Definition substitute (replacements : gmap str str) (word : str) : str :=
  default word (replacements !! lower word).

Definition replace_words (replacements : gmap str str) (t : str) : str :=
  join (s " ") (map (substitute replacements) (split t)).

(** 3. Strip all punctuation characters (the ASCII punctuation set). *)
Definition is_punctuation (c : ascii) : bool :=
  in_range 33 47 c || in_range 58 64 c || in_range 91 96 c || in_range 123 126 c.

Definition strip_punctuation (t : str) : str :=
  List.filter (fun c => negb (is_punctuation c)) t.

(** 5. Remove the words whose lowercase form is in the removal list,
    rejoining the others with single spaces. *)
Definition drop_words (to_remove : list str) (t : str) : str :=
  join (s " ")
       (List.filter (fun w => negb (bool_decide (lower w ∈ to_remove))) (split t)).

(** 6. Collapse consecutive duplicate words: a word, a maximal run of
    word characters, immediately followed by one or more repeats of
    itself up to case, each behind a run of other characters, is reduced
    to its first occurrence. *)
Fixpoint span (P : ascii -> bool) (t : str) : str * str :=
  match t with
  | c :: t' =>
      if P c then let '(u, v) := span P t' in (c :: u, v) else ([], t)
  | [] => ([], [])
  end.

(** The text after one repeat of [w] at the head of [t], if there is
    one. *)
Definition next_repeat (w t : str) : option str :=
  let '(sep, t1) := span (fun c => negb (isword c)) t in
  let '(w', t2) := span isword t1 in
  if nonempty sep && bool_decide (lower w' = lower w) then Some t2 else None.

(** The text after all the repeats of [w] at the head of [t]; a repeat
    takes a character, so [len(t)] is fuel enough. *)
Fixpoint skip_repeats (fuel : nat) (w t : str) : str :=
  match fuel with
  | O => t
  | S fuel' =>
      match next_repeat w t with
      | Some t2 => skip_repeats fuel' w t2
      | None => t
      end
  end.

(** From a position that is not inside a word: a word is copied and its
    repeats skipped, another character is copied. *)
Fixpoint collapse_from (fuel : nat) (t : str) : str :=
  match fuel with
  | O => t
  | S fuel' =>
      match t with
      | [] => []
      | c :: t' =>
          if isword c then
            let '(w, t1) := span isword t in
            w ++ collapse_from fuel' (skip_repeats (length t1) w t1)
          else c :: collapse_from fuel' t'
      end
  end.

Definition collapse_duplicates (t : str) : str := collapse_from (length t) t.

(** 7. Lowercase the result when [cased] is false. *)
Definition lowercase_unless (cased : bool) (t : str) : str :=
  if cased then t else lower t.

End Spec.

(** ** Aligned pairs

    A position of an aligned pair: a token matched on both sides, or a
    token of one side facing a gap-filler on the other. *)

Inductive slot :=
| Both (w : str)
| OnlyLeft (w : str)
| OnlyRight (w : str).

Definition left_entry (x : slot) : str :=
  match x with
  | Both w | OnlyLeft w => w
  | OnlyRight w => underscores w
  end.

Definition right_entry (x : slot) : str :=
  match x with
  | Both w | OnlyRight w => w
  | OnlyLeft w => underscores w
  end.

Definition left_token (x : slot) : option str :=
  match x with
  | Both w | OnlyLeft w => Some w
  | OnlyRight _ => None
  end.

Definition right_token (x : slot) : option str :=
  match x with
  | Both w | OnlyRight w => Some w
  | OnlyLeft _ => None
  end.

(** A gap-filler for a token: underscores only, as many as the token
    has characters. *)
Definition gap_filler (filler token : str) : Prop :=
  filler = repeat "_"%char (length token).

(** Two entries at the same position of an aligned pair. *)
Definition aligned_entries (u v : str) : Prop :=
  u = v \/ gap_filler v u \/ gap_filler u v.

(** The positions one matching block adds to the alignment: the tokens
    of the first sequence before the block, those of the second, then the
    matched tokens. *)
Definition block_slots (l1 l2 : list str) (pa pb : nat) (m : Difflib.Match) : list slot :=
  map OnlyLeft (Seq.slice l1 pa (Difflib.a m))
  ++ map OnlyRight (Seq.slice l2 pb (Difflib.b m))
  ++ map Both (Seq.slice l1 (Difflib.a m) (Difflib.a m + Difflib.size m)).

(** Matching blocks in order: from the position [(pa, pb)] on, each block
    starts where the previous one ended or later, on both sides, covers
    equal tokens, and the last one ends at [(ea, eb)] or before. *)
Fixpoint ordered (l1 l2 : list str) (pa pb : nat) (ms : list Difflib.Match)
    (ea eb : nat) : Prop :=
  match ms with
  | [] => pa <= ea /\ pb <= eb
  | m :: ms' =>
      pa <= Difflib.a m /\ pb <= Difflib.b m
      /\ Seq.slice l1 (Difflib.a m) (Difflib.a m + Difflib.size m)
         = Seq.slice l2 (Difflib.b m) (Difflib.b m + Difflib.size m)
      /\ ordered l1 l2 (Difflib.a m + Difflib.size m)
                 (Difflib.b m + Difflib.size m) ms' ea eb
  end.

(** What [find_longest_match] returns: no match, or a block of equal
    tokens inside the two ranges. *)
Definition good_match (x y : list str) (alo ahi blo bhi : nat) (m : Difflib.Match) : Prop :=
  alo <= Difflib.a m /\ Difflib.a m + Difflib.size m <= ahi
  /\ blo <= Difflib.b m /\ Difflib.b m + Difflib.size m <= bhi
  /\ Seq.slice x (Difflib.a m) (Difflib.a m + Difflib.size m)
     = Seq.slice y (Difflib.b m) (Difflib.b m + Difflib.size m).

(** A single-spaced string: non-empty words separated by single spaces,
    no whitespace at either end. *)
Definition word (w : str) : Prop :=
  w <> [] /\ Forall (fun c => isspace c = false) w.

Definition normalized (t : str) : Prop :=
  exists ws, Forall word ws /\ t = join (s " ") ws.

(** ** Properties of a list of chunks *)

(** A list of chunks in which every chunk stands in relation [P] to the
    text after it. *)
Fixpoint chain (P : str -> str -> Prop) (chunks : list str) : Prop :=
  match chunks with
  | [] => True
  | chunk :: more => P chunk (concat more) /\ chain P more
  end.

(** The characters before the first space. *)
Fixpoint word_prefix (t : str) : str :=
  match t with
  | c :: t' => if Ascii.eqb c " " then [] else c :: word_prefix t'
  | [] => []
  end.

(** The word a cut falls into: what precedes the cut back to a space and
    what follows it up to a space. One of the two is empty when the cut
    is at a space or at an end of the text. *)
Definition cut_word (chunk rest : str) : str :=
  rev (word_prefix (rev chunk)) ++ word_prefix rest.

(** The wrapping rule of the specification: a cut is at a space boundary
    unless the word it falls into is longer than [width]. *)
Definition keeps_words (width : nat) (chunk rest : str) : Prop :=
  word_prefix (rev chunk) = [] \/ word_prefix rest = []
  \/ width < length (cut_word chunk rest).

(** What the loop does: the last chunk is what was left, at most [every]
    characters; a chunk before it either ends with a space found among
    its last [window] characters, or is cut after [every - window]
    characters, none of the next [window] characters being a space. *)
Definition cut_shape (every window : nat) (chunk rest : str) : Prop :=
  match rest with
  | [] => chunk <> [] /\ length chunk <= every
  | _ :: _ =>
      (last chunk = Some " "%char /\ every - window < length chunk <= every)
      \/ (length chunk = every - window
          /\ Forall (fun c => c <> " "%char) (take window rest))
  end.

(** The same without the length of a chunk cut where no space was
    found: a chunk has at most [every] characters, and when it does not
    end with a space found among its last [window] characters, none of
    the characters [every - window + 1 .. every] of the text it was cut
    from is a space. *)
Definition wrap_shape (every window : nat) (chunk rest : str) : Prop :=
  chunk <> [] /\ length chunk <= every
  /\ (rest = []
      \/ (last chunk = Some " "%char /\ every - window < length chunk)
      \/ Forall (fun c => c <> " "%char)
                (Seq.slice (chunk ++ rest) (every - window) every)).

(** ** The weighted average in the words of the specification

    [Σ(weight_i × rate_i) / Σ(weight_i)] over the pairs of
    [zip(weights, rates)], in floating point. *)

Definition weighted_mean (weights : list Z) (wers : list float) : float :=
  match zip weights wers with
  | [] => if (sum_int weights <? 0)%Z then neg_zero else zero
  | pairs =>
      (Float.sum (map (fun '(w, r) => (Float.nearest_int w * r)%float) pairs)
       / Float.nearest_int (sum_int weights))%float
  end.

(** ** [split] as a scan from the right

    The state is the word being read (its characters from the current
    position on) and the words after it. Used in the proofs. *)

Module Scan.

Definition flush (st : str * list str) : list str :=
  match fst st with
  | [] => snd st
  | _ :: _ => fst st :: snd st
  end.

Definition push (c : ascii) (st : str * list str) : str * list str :=
  if isspace c then ([], flush st) else (c :: fst st, snd st).

Definition scan (t : str) : str * list str := foldr push ([], []) t.

End Scan.


(** ** Single-spaced strings, character by character

    [tail_ok t]: [t] can follow a character that is not whitespace in a
    single-spaced string: every whitespace character of [t] is a space
    followed by a character that is not whitespace. *)

Fixpoint tail_ok (t : str) : bool :=
  match t with
  | [] => true
  | c :: t' =>
      if isspace c then
        Ascii.eqb c " "
        && match t' with d :: _ => negb (isspace d) | [] => false end
        && tail_ok t'
      else tail_ok t'
  end.

Definition single_spaced (t : str) : bool :=
  match t with
  | [] => true
  | c :: t' => negb (isspace c) && tail_ok t'
  end.

(** What a single-spaced subject leaves to the right of a position of
    the matcher. *)
Definition ok_at (p : Re.pos) : bool :=
  match fst p with
  | None => single_spaced (snd p)
  | Some c =>
      if isspace c then nonempty (snd p) && single_spaced (snd p)
      else tail_ok (snd p)
  end.

(** A position of the matcher inside [t0], just after a word character. *)
Definition reach (t0 : str) (p : Re.pos) : Prop :=
  exists x d, t0 = x ++ d :: snd p /\ fst p = Some d /\ isword d = true.

(** The words after the first of a single-spaced string, each behind
    its space. *)
Definition spaced (ws : list str) : str :=
  concat (map (fun w => " "%char :: w) ws).

(** The replacements of the counterexample to idempotence: a chain
    [a -> b -> c -> d]. *)
Definition chain_replacements : gmap str str :=
  <[ s "a" := s "b" ]> (<[ s "b" := s "c" ]> {[ s "c" := s "d" ]}).

(** ** Positions of the matcher relative to words *)

Definition head_is_word (t : str) : bool := from_option isword false (head t).

(** After a round the matcher stands behind a word character, in front
    of a character that is not one. *)
Definition after_word (p : Re.pos) : Prop :=
  from_option isword false (fst p) = true /\ head_is_word (snd p) = false.

(** ** Further functions of [utilities.py] *)

(** [c * n] for a one-character string and a Python integer: the empty
    string when [n] is negative. *)
Definition times (c : ascii) (n : Z) : str := repeat c (Z.to_nat n).

(** The three lines [print_centered_columns] prints. The cells of the
    header are printed with [end=""], one after the other on one line. *)
Definition print_centered_columns (column_names : list str) (width : Z) : list str :=
  let n := Z.of_nat (length column_names) in
  let total_width := (width * n + (n - 1))%Z in
  let separator := s "|" in
  let cell (name : str) :=
    let padding := ((width - Z.of_nat (length name)) / 2)%Z in
    let left_padding := padding in
    let right_padding := (padding + (width - Z.of_nat (length name)) mod 2)%Z in
    separator ++ times " " left_padding ++ name ++ times " " right_padding in
  [ separator ++ times "-" (total_width + n) ++ separator;
    concat (map cell column_names) ++ s "  " ++ separator;
    separator ++ times "-" (total_width + 2) ++ separator ].

(** A name centred in a field of [width] characters: the padding on the
    right is the padding on the left or one more. *)
Definition centered (width : nat) (name field : str) : Prop :=
  exists l r, field = repeat " "%char l ++ name ++ repeat " "%char r
    /\ l + length name + r = width /\ l <= r <= l + 1.

(** A Python [set] of strings is a [gset]. *)
Definition compare_words (reference hypothesis : list str)
  : gset str * gset str * gset str :=
  let common_words := (list_to_set reference : gset str) ∩ list_to_set hypothesis in
  let missing_words := (list_to_set reference : gset str) ∖ common_words in
  let extra_words := (list_to_set hypothesis : gset str) ∖ common_words in
  (common_words, missing_words, extra_words).

(** ** The two tokenisers *)

(** The text begins with whitespace; the text ends with a character
    that is not whitespace. *)
Definition starts_space (t : str) : bool := from_option isspace false (head t).

Definition ends_word (t : str) : bool :=
  from_option (fun c => negb (isspace c)) false (last t).

(** Every whitespace character is a space, and no two whitespace
    characters are next to each other. *)
Fixpoint lone_spaces (t : str) : bool :=
  match t with
  | [] => true
  | c :: t' =>
      (if isspace c then Ascii.eqb c " " && negb (starts_space t') else true)
      && lone_spaces t'
  end.

(** ** The comparison printed *)

(** [t.ljust(width)]: spaces are added on the right up to [width]
    characters; a longer text is left as it is. *)
Definition ljust (width : Z) (t : str) : str :=
  t ++ repeat " "%char (Z.to_nat (width - Z.of_nat (length t))).

(** [re.sub(" +", " ", t)]: every run of spaces becomes one space. *)
Fixpoint squeeze (t : str) : str :=
  match t with
  | [] => []
  | c :: t' =>
      if Ascii.eqb c " " then
        match t' with
        | d :: _ => if Ascii.eqb d " " then squeeze t' else c :: squeeze t'
        | [] => [c]
        end
      else c :: squeeze t'
  end.

(** What a run of printing code leaves behind: the lines printed, and
    the exception that ended the run if one did. *)
Definition printed := (list str * option exn)%type.

(** [for i in range(0, len(s1)): lft = field(s1[i]); rgt = field(s2[i]);
    print(lft + " | " + rgt + " | ")], over the indices still to come;
    [out] holds the lines printed so far. *)
Fixpoint print_rows (field : str -> str) (s1 s2 : list str)
    (indices : list nat) (out : list str) : printed :=
  match indices with
  | [] => (out, None)
  | i :: indices' =>
      match (lft ← Seq.index s1 (Z.of_nat i);
             rgt ← Seq.index s2 (Z.of_nat i);
             Ok (field lft ++ s " | " ++ field rgt ++ s " | ")) with
      | Ok line => print_rows field s1 s2 indices' (out ++ [line])
      | Raise e => (out, Some e)
      end
  end.

(** [show_comparison]: [None] when a loop of [insert_newlines] does not
    end. Nothing is printed before both strings are wrapped. *)
Definition show_comparison (s1 s2 : str) (width margin : Z)
    (sidebyside compact : bool) : option printed :=
  match equalize s1 s2 with
  | Raise e => Some ([], Some e)
  | Ok (s1, s2) =>
      if sidebyside then
        match insert_newlines s1 width margin with
        | None => None
        | Some (Raise e) => Some ([], Some e)
        | Some (Ok s1) =>
            match insert_newlines s2 width margin with
            | None => None
            | Some (Raise e) => Some ([], Some e)
            | Some (Ok s2) =>
                Some (if compact
                      then print_rows
                             (fun chunk => ljust width (squeeze (replace "_" [] chunk)))
                             s1 s2 (seq 0 (length s1)) []
                      else print_rows (ljust width) s1 s2 (seq 0 (length s1)) [])
            end
        end
      else Some ([s1; s2], None)
  end.

(** Where the spaces of a text are. *)
Definition spaces (t : str) : list bool := map (fun c => Ascii.eqb c " ") t.

(** Two runs of [insert_newlines] that go the same way: neither ends,
    both raise the same exception, or both return as many chunks, with
    spaces at the same places. *)
Definition same_cuts (r1 r2 : option (result (list str))) : Prop :=
  match r1, r2 with
  | None, None => True
  | Some (Raise e1), Some (Raise e2) => e1 = e2
  | Some (Ok chunks1), Some (Ok chunks2) =>
      Forall2 (fun c1 c2 => spaces c1 = spaces c2) chunks1 chunks2
  | _, _ => False
  end.

(** ** The table of short forms *)

Definition en_short_forms : gmap str str :=
  let pronouns := [s "i"; s "you"; s "he"; s "she"; s "it"; s "we"; s "they"; s "who"] in
  let short_forms := [s "'m"; s "'s"; s "'ll"; s "'ve"; s "'d"] in
  let full_forms := [s "am"; s "is"; s "will"; s "have"; s "would"] in
  fold_left
    (fun all_forms pronoun =>
       fold_left
         (fun all_forms '(short_form, full_form) =>
            let sf := pronoun ++ short_form in
            let f := pronoun ++ s " " ++ full_form in
            <[sf := f]> all_forms)
         (zip short_forms full_forms) all_forms)
    pronouns ∅.
(** * Proofs *)

(** ** Characters *)

Ltac each_char c :=
  destruct c as [[] [] [] [] [] [] [] []]; vm_compute; try reflexivity; try discriminate;
  try (intros; discriminate); try (intros; reflexivity).

Lemma isword_lower c : isword (char_lower c) = isword c.
Proof. each_char c. Qed.

Lemma isspace_lower c : isspace (char_lower c) = isspace c.
Proof. each_char c. Qed.

Lemma char_lower_idem c : char_lower (char_lower c) = char_lower c.
Proof. each_char c. Qed.

Lemma isword_not_space c : isword c = true -> isspace c = false.
Proof. each_char c. Qed.

Lemma punctuation_spec c :
  bool_decide (c ∈ punctuation) = Spec.is_punctuation c.
Proof. each_char c. Qed.

Lemma punctuation_not_space c :
  Spec.is_punctuation c = true -> isspace c = false.
Proof. each_char c. Qed.

Lemma lower_idem t : lower (lower t) = lower t.
Proof.
  unfold lower. rewrite map_map. apply map_ext. intros c. apply char_lower_idem.
Qed.

(** ** [split], [join] and [strip] *)

Lemma scan_word_empty t :
  fst (Scan.scan t) = [] <-> match t with [] => True | c :: _ => isspace c = true end.
Proof.
  destruct t as [|c t]; simpl; [tauto|].
  unfold Scan.push. destruct (isspace c); simpl; split; intros; congruence.
Qed.

Lemma split_scan t : split t = Scan.flush (Scan.scan t).
Proof.
  induction t as [|c t IH]; [reflexivity|].
  cbn [split]. unfold Scan.scan in *. cbn [foldr]. unfold Scan.push at 1.
  destruct (isspace c) eqn:Hc; [exact IH|].
  destruct t as [|d t]; [reflexivity|].
  pose proof (scan_word_empty (d :: t)) as He. unfold Scan.scan in He.
  remember (foldr Scan.push ([], []) (d :: t)) as X eqn:HX. clear HX.
  rewrite IH. destruct X as [w ws]. unfold Scan.flush. cbn [fst snd] in *.
  destruct (isspace d).
  - destruct He as [_ He]. rewrite (He eq_refl). reflexivity.
  - destruct w as [|a w]; [|reflexivity].
    destruct He as [He _]. specialize (He eq_refl). discriminate.
Qed.

(** Scanning [x] in front of a position where a word has just ended. *)
Lemma scan_app_boundary x ws :
  foldr Scan.push ([], ws) x
  = (fst (Scan.scan x), snd (Scan.scan x) ++ ws).
Proof.
  unfold Scan.scan. induction x as [|c x IH]; [reflexivity|].
  cbn [foldr]. rewrite IH. destruct (foldr Scan.push ([], []) x) as [w u].
  unfold Scan.push, Scan.flush. cbn [fst snd].
  destruct (isspace c); [|reflexivity]. destruct w; reflexivity.
Qed.

Lemma split_app_space x c y :
  isspace c = true -> split (x ++ c :: y) = split x ++ split y.
Proof.
  intros Hc. rewrite !split_scan. unfold Scan.scan.
  rewrite foldr_app. cbn [foldr]. unfold Scan.push at 2. rewrite Hc.
  rewrite scan_app_boundary. unfold Scan.scan.
  destruct (foldr Scan.push ([], []) x) as [w u].
  unfold Scan.flush at 1 3. cbn [fst snd]. destruct w; reflexivity.
Qed.

Lemma split_all_space ws : Forall (fun c => isspace c = true) ws -> split ws = [].
Proof.
  induction 1 as [|c ws Hc _ IH]; [reflexivity|]. cbn [split]. rewrite Hc. exact IH.
Qed.

Lemma split_app_spaces_r x ws :
  Forall (fun c => isspace c = true) ws -> split (x ++ ws) = split x.
Proof.
  intros H. destruct H as [|c ws Hc Hws]; [by rewrite app_nil_r|].
  rewrite split_app_space by done. rewrite (split_all_space ws Hws). apply app_nil_r.
Qed.

Lemma split_app_spaces_l ws x :
  Forall (fun c => isspace c = true) ws -> split (ws ++ x) = split x.
Proof.
  induction 1 as [|c ws Hc _ IH]; [reflexivity|].
  cbn [app split]. rewrite Hc. exact IH.
Qed.

Lemma lstrip_spec t :
  exists ws, Forall (fun c => isspace c = true) ws /\ t = ws ++ lstrip t.
Proof.
  induction t as [|c t (ws & Hws & IH)]; [by exists []|].
  cbn [lstrip]. destruct (isspace c) eqn:Hc.
  - exists (c :: ws). split; [by constructor|]. cbn. by f_equal.
  - by exists [].
Qed.

Lemma rstrip_spec t :
  exists ws, Forall (fun c => isspace c = true) ws /\ t = rstrip t ++ ws.
Proof.
  destruct (lstrip_spec (rev t)) as (ws & Hws & E).
  exists (rev ws). split.
  - by apply Forall_rev.
  - unfold rstrip. rewrite <- rev_app_distr, <- E. by rewrite rev_involutive.
Qed.

Lemma split_lstrip t : split (lstrip t) = split t.
Proof.
  destruct (lstrip_spec t) as (ws & Hws & E).
  rewrite E at 2. by rewrite split_app_spaces_l.
Qed.

Lemma split_rstrip t : split (rstrip t) = split t.
Proof.
  destruct (rstrip_spec t) as (ws & Hws & E).
  rewrite E at 2. by rewrite split_app_spaces_r.
Qed.

Lemma split_strip t : split (strip t) = split t.
Proof. unfold strip. by rewrite split_rstrip, split_lstrip. Qed.

Lemma split_join ws : split (join (s " ") ws) = concat (map split ws).
Proof.
  induction ws as [|w ws IH]; [reflexivity|].
  destruct ws as [|w' ws].
  - cbn. by rewrite app_nil_r.
  - change (join (s " ") (w :: w' :: ws)) with (w ++ " "%char :: join (s " ") (w' :: ws)).
    rewrite split_app_space by reflexivity. rewrite IH. reflexivity.
Qed.

Lemma split_trailing (f : str -> str) ws :
  split (concat (map (fun w => f w ++ s " ") ws)) = concat (map split (map f ws)).
Proof.
  induction ws as [|w ws IH]; [reflexivity|].
  cbn [map concat]. rewrite <- app_assoc.
  change (s " " ++ ?x) with (" "%char :: x).
  rewrite split_app_space by reflexivity. by rewrite IH.
Qed.

(** Deleting characters that are not whitespace deletes them inside the
    words; a word left empty disappears. *)
Lemma flush_filter (P : ascii -> bool) w u :
  Scan.flush (List.filter P w, List.filter nonempty (map (List.filter P) u))
  = List.filter nonempty (map (List.filter P) (Scan.flush (w, u))).
Proof.
  unfold Scan.flush. destruct w as [|a w]; [reflexivity|].
  cbn [fst snd map]. generalize (List.filter P (a :: w)) as v.
  intros v. destruct v; reflexivity.
Qed.

Lemma push_space c st : isspace c = true -> Scan.push c st = ([], Scan.flush st).
Proof. unfold Scan.push. by intros ->. Qed.

Lemma push_char c st : isspace c = false -> Scan.push c st = (c :: fst st, snd st).
Proof. unfold Scan.push. by intros ->. Qed.

Lemma scan_filter (P : ascii -> bool) t :
  (forall c, isspace c = true -> P c = true) ->
  Scan.scan (List.filter P t)
  = (List.filter P (fst (Scan.scan t)),
     List.filter nonempty (map (List.filter P) (snd (Scan.scan t)))).
Proof.
  intros HP. unfold Scan.scan. induction t as [|c t IH]; [reflexivity|].
  cbn [foldr]. destruct (foldr Scan.push ([], []) t) as [w u]. cbn [fst snd] in IH.
  destruct (isspace c) eqn:Hc.
  - cbn [List.filter]. rewrite (HP c Hc). cbn [foldr]. rewrite IH.
    rewrite !push_space by done. cbn [fst snd]. by rewrite flush_filter.
  - rewrite (push_char c (w, u)) by done. cbn [fst snd List.filter]. destruct (P c).
    + cbn [foldr]. rewrite IH. by rewrite push_char.
    + exact IH.
Qed.

Lemma split_filter (P : ascii -> bool) t :
  (forall c, isspace c = true -> P c = true) ->
  split (List.filter P t) = List.filter nonempty (map (List.filter P) (split t)).
Proof.
  intros HP. rewrite !split_scan, (scan_filter P t HP).
  destruct (Scan.scan t) as [w u]. apply flush_filter.
Qed.

(** ** The cleaning pipeline *)

Lemma replace_hyphens t : replace "-" (s " ") t = Spec.hyphens_to_spaces t.
Proof.
  unfold replace, Spec.hyphens_to_spaces.
  induction t as [|c t IH]; [reflexivity|].
  cbn [flat_map map]. rewrite IH. destruct (Ascii.eqb c "-"); reflexivity.
Qed.

Lemma remove_punctuation_spec t : remove_punctuation t = Spec.strip_punctuation t.
Proof.
  unfold remove_punctuation, translate_delete, Spec.strip_punctuation.
  induction t as [|c t IH]; [reflexivity|].
  cbn [List.filter]. by rewrite punctuation_spec, IH.
Qed.

Lemma fold_left_append {A} (f : A -> str) (l : list A) (init : str) :
  fold_left (fun acc x => acc ++ f x) l init = init ++ concat (map f l).
Proof.
  revert init. induction l as [|x l IH]; intros init; cbn.
  - by rewrite app_nil_r.
  - by rewrite IH, app_assoc.
Qed.

(** The loop of [replace_words] builds the substituted words, each
    followed by a space. *)
Lemma replace_words_loop text replacements :
  replace_words text replacements
  = strip (concat (map (fun w => Spec.substitute replacements w ++ s " ") (split text))).
Proof.
  unfold replace_words.
  rewrite (fold_left_append (fun w => Spec.substitute replacements w ++ s " ")).
  reflexivity.
Qed.

Lemma split_spec_replace_words replacements t :
  split (Spec.replace_words replacements t)
  = concat (map split (map (Spec.substitute replacements) (split t))).
Proof. unfold Spec.replace_words. apply split_join. Qed.

Lemma split_replace_words text replacements :
  split (replace_words text replacements)
  = split (Spec.replace_words replacements text).
Proof.
  rewrite replace_words_loop, split_strip, split_trailing.
  by rewrite split_spec_replace_words.
Qed.

Lemma split_strip_punctuation t :
  split (Spec.strip_punctuation t)
  = List.filter nonempty (map Spec.strip_punctuation (split t)).
Proof.
  apply split_filter. intros c Hc.
  destruct (Spec.is_punctuation c) eqn:Hp; [|reflexivity].
  apply punctuation_not_space in Hp. congruence.
Qed.

(** [clean_text], which follows the source statement by statement (its
    word replacement is the accumulating loop closed by [strip]), is the
    composition of the steps as the specification words them, up to the
    collapse of duplicates, which is still the regular expression here. *)
Lemma clean_text_steps text replacements to_remove cased :
  clean_text text replacements to_remove cased
  = Spec.lowercase_unless cased
      (remove_consecutive_duplicates
         (Spec.drop_words to_remove
            (Spec.replace_words replacements
               (Spec.strip_punctuation
                  (Spec.replace_words replacements
                     (Spec.hyphens_to_spaces text)))))).
Proof.
  unfold clean_text. rewrite replace_hyphens.
  set (t1 := Spec.hyphens_to_spaces text).
  assert (Hwords :
    split (replace_words (remove_punctuation (replace_words t1 replacements)) replacements)
    = split (Spec.replace_words replacements
               (Spec.strip_punctuation (Spec.replace_words replacements t1)))).
  { rewrite split_replace_words, !split_spec_replace_words.
    do 3 f_equal.
    rewrite remove_punctuation_spec, !split_strip_punctuation.
    by rewrite split_replace_words. }
  unfold remove_words, Spec.drop_words. rewrite Hwords.
  destruct cased; reflexivity.
Qed.

(** C5 as stated fails: the mapped value is used verbatim, so the result
    begins with a lowercase letter. *)
Lemma clean_text_example_not_capitalised :
  clean_text (s "I'm happy happy") {[ s "i'm" := s "i am" ]} [] true
  <> s "I am happy".
Proof. vm_compute. discriminate. Qed.

(** C5 (amended). [clean_text("I'm happy happy", {"i'm": "i am"}, [],
    cased=True)] returns ["i am happy"]: the contraction is replaced by
    the mapped value as it is written in the mapping, before punctuation
    is stripped, and the duplicate is collapsed. *)
Theorem clean_text_example :
  replace_words (s "I'm happy happy") {[ s "i'm" := s "i am" ]}
  = s "i am happy happy"
  /\ clean_text (s "I'm happy happy") {[ s "i'm" := s "i am" ]} [] true
     = s "i am happy".
Proof. split; vm_compute; reflexivity. Qed.

(** ** Error rates *)

Lemma clean_text_empty replacements to_remove cased :
  clean_text [] replacements to_remove cased = [].
Proof. destruct cased; reflexivity. Qed.

Lemma levenshtein_nil_r {A} `{EqDecision A} (x : list A) :
  Jiwer.levenshtein x [] = length x.
Proof. destruct x; reflexivity. Qed.

Lemma levenshtein_same {A} `{EqDecision A} (x : list A) :
  Jiwer.levenshtein x x = 0.
Proof.
  induction x as [|u x IH]; [reflexivity|].
  cbn. destruct (decide (u = u)); [exact IH|congruence].
Qed.

(** C2. When the cleaned reference has at least one word,
    [calculate_wer] returns [round(100 * (d / n), 2)], where [d] is the
    word-level edit distance between the cleaned reference and the cleaned
    hypothesis and [n] the number of words of the cleaned reference; the
    arithmetic is the code's floating-point arithmetic, in its order. *)
Theorem calculate_wer_formula ground_true hypothesis replacements to_remove cased :
  let ref_words := split (clean_text ground_true replacements to_remove cased) in
  let hyp_words := split (clean_text hypothesis replacements to_remove cased) in
  ref_words <> [] ->
  calculate_wer ground_true hypothesis replacements to_remove cased
  = Ok (Float.round2
          (100 * (Float.nearest_int (Z.of_nat (Jiwer.levenshtein ref_words hyp_words))
                  / Float.nearest_int (Z.of_nat (length ref_words))))).
Proof.
  intros ref_words hyp_words Hne.
  unfold calculate_wer, Jiwer.wer, Jiwer.error_rate.
  fold ref_words hyp_words.
  destruct ref_words as [|w ws] eqn:E; [congruence|].
  reflexivity.
Qed.

(** The two values of C2: [calculate_wer("a b c", "a b c", {}, []) = 0.0]
    and [calculate_wer("a b c", "a b", {}, []) = 33.33]. *)
Lemma calculate_wer_examples :
  calculate_wer (s "a b c") (s "a b c") ∅ [] true = Ok 0%float
  /\ calculate_wer (s "a b c") (s "a b") ∅ [] true = Ok 33.33%float.
Proof.
  split.
  - rewrite (calculate_wer_formula (s "a b c") (s "a b c") ∅ [] true).
    + vm_compute. reflexivity.
    + vm_compute. discriminate.
  - rewrite (calculate_wer_formula (s "a b c") (s "a b") ∅ [] true).
    + vm_compute. reflexivity.
    + vm_compute. discriminate.
Defined.

(** The order of the two operations matters in floating point: for 23
    errors over 160 reference words the rate times 100 rounds to 14.37,
    whereas 100 times the errors, divided by the words, rounds to 14.38.
    [calculate_wer_formula] states the order of the code. *)
Remark percent_after_rate :
  Float.round2 (100 * (Float.nearest_int 23 / Float.nearest_int 160)) = 14.37%float
  /\ Float.round2 (100 * Float.nearest_int 23 / Float.nearest_int 160) = 14.38%float.
Proof. split; vm_compute; reflexivity. Qed.

(** C4. If the reference is empty after cleaning, [calculate_wer] and
    [calculate_cer] raise [EmptyReferenceError] whatever the hypothesis
    and the configuration, and return no number; the empty raw reference
    is such a reference. *)
Theorem empty_reference_raises hypothesis replacements to_remove cased :
  (forall ground_true,
      clean_text ground_true replacements to_remove cased = [] ->
      calculate_wer ground_true hypothesis replacements to_remove cased
      = Raise EmptyReferenceError
      /\ calculate_cer ground_true hypothesis replacements to_remove cased
         = Raise EmptyReferenceError)
  /\ clean_text [] replacements to_remove cased = [].
Proof.
  split; [|apply clean_text_empty].
  intros ground_true Hempty.
  unfold calculate_wer, calculate_cer, Jiwer.wer, Jiwer.cer.
  rewrite Hempty. split; reflexivity.
Qed.

(** [wordErrorRate("", "anything", cfg)] raises, and so does a reference
    made of punctuation and hyphens only. *)
Lemma empty_reference_examples :
  calculate_wer (s "") (s "anything") ∅ [] true = Raise EmptyReferenceError
  /\ calculate_cer (s "-- ... !") (s "anything") {[ s "i'm" := s "i am" ]} [s "uh"] false
     = Raise EmptyReferenceError.
Proof.
  split.
  - apply (proj1 (empty_reference_raises (s "anything") ∅ [] true) (s "")).
    vm_compute. reflexivity.
  - apply (proj1 (empty_reference_raises (s "anything") {[ s "i'm" := s "i am" ]}
                    [s "uh"] false) (s "-- ... !")).
    vm_compute. reflexivity.
Defined.

(** ** Weighted average *)

Lemma mapM_result_cons {A B} (f : A -> result B) x l :
  mapM f (x :: l) = y ← f x; k ← mapM f l; Ok (y :: k).
Proof. reflexivity. Qed.

Lemma products_cons w weights r wers :
  products (w :: weights) (r :: wers)
  = x ← Float.of_int w; k ← products weights wers; Ok ((x * r)%float :: k).
Proof.
  unfold products. cbn [zip zip_with]. rewrite mapM_result_cons.
  destruct (Float.of_int w); reflexivity.
Qed.

Lemma products_fit weights wers :
  Forall (fun w => Float.fits w = true) weights ->
  products weights wers
  = Ok (map (fun '(w, r) => (Float.nearest_int w * r)%float) (zip weights wers)).
Proof.
  intros Hfit. revert wers.
  induction Hfit as [|w weights Hw _ IH]; intros wers; [reflexivity|].
  destruct wers as [|r wers]; [reflexivity|].
  rewrite products_cons, IH. unfold Float.of_int. rewrite Hw. reflexivity.
Qed.

Lemma products_raise weights wers e :
  products weights wers = Raise e -> e = OverflowError.
Proof.
  revert wers. induction weights as [|w weights IH]; intros wers; [discriminate|].
  destruct wers as [|r wers]; [discriminate|].
  rewrite products_cons. unfold Float.of_int. destruct (Float.fits w).
  - cbn [mbind result_bind]. destruct (products weights wers) as [ps|e'] eqn:E.
    + discriminate.
    + intros [= <-]. by apply (IH wers).
  - by intros [= <-].
Qed.

(** C3 as stated fails: two weights and one rate give a number, not an
    error. *)
Lemma weighted_wer_mismatch_returns :
  length [1%Z; 2%Z] <> length [0.5%float]
  /\ weighted_wer [1%Z; 2%Z] [0.5%float] = Ok 0.17%float.
Proof. split; [discriminate|]. vm_compute. reflexivity. Qed.

(** C3 (amended). [weighted_wer] raises an error whenever the sum of the
    weights is zero ([ZeroDivisionError], or [OverflowError] when a weight
    is beyond the floats). When the sum is not zero and the weights and
    their sum are within the floats, it returns the rounded weighted mean
    over the pairs of [zip(weights, rates)], whether or not the two lists
    have the same length. *)
Theorem weighted_wer_spec weights wers :
  (sum_int weights = 0%Z ->
     weighted_wer weights wers = Raise ZeroDivisionError
     \/ weighted_wer weights wers = Raise OverflowError)
  /\ (sum_int weights <> 0%Z ->
      Forall (fun w => Float.fits w = true) weights ->
      Float.fits (sum_int weights) = true ->
      weighted_wer weights wers = Ok (Float.round2 (weighted_mean weights wers))).
Proof.
  split.
  - intros Hzero. unfold weighted_wer.
    destruct (products weights wers) as [ps|e] eqn:E.
    + left. cbn. unfold weighted_quotient. rewrite Hzero. reflexivity.
    + right. apply products_raise in E. subst e. reflexivity.
  - intros Hsum Hfit Htotal. unfold weighted_wer, weighted_mean.
    rewrite (products_fit weights wers Hfit).
    cbn [mbind result_bind]. unfold weighted_quotient.
    destruct (Z.eqb_spec (sum_int weights) 0) as [|_]; [contradiction|].
    destruct (zip weights wers) as [|[w r] pairs]; [reflexivity|].
    cbn [map]. unfold Float.of_int. rewrite Htotal. reflexivity.
Qed.

(** [weightedAverage([3, 1], [0.0, 100.0]) = 25.0], and no weights at
    all is an error. *)
Lemma weighted_wer_examples :
  weighted_wer [3%Z; 1%Z] [0%float; 100%float] = Ok 25%float
  /\ (weighted_wer [] [] = Raise ZeroDivisionError
      \/ weighted_wer [] [] = Raise OverflowError).
Proof.
  split.
  - rewrite (proj2 (weighted_wer_spec [3%Z; 1%Z] [0%float; 100%float])).
    + vm_compute. reflexivity.
    + vm_compute. discriminate.
    + repeat constructor.
    + vm_compute. reflexivity.
  - apply (proj1 (weighted_wer_spec [] [])). reflexivity.
Defined.

(** ** Indexing and slicing *)

Lemma index_nonneg {A} (l : list A) (i : Z) x :
  (0 <= i)%Z -> l !! Z.to_nat i = Some x -> Seq.index l i = Ok x.
Proof.
  intros Hi Hx. unfold Seq.index.
  pose proof (lookup_lt_Some _ _ _ Hx) as Hlt.
  destruct (Z.ltb_spec i 0) as [|_]; [lia|].
  destruct (Z.leb_spec 0 i) as [_|]; [|lia].
  destruct (Z.ltb_spec i (Z.of_nat (length l))) as [_|]; [|lia].
  cbn. by rewrite Hx.
Qed.

Lemma index_nonneg_inv {A} (l : list A) (i : Z) x :
  (0 <= i)%Z -> Seq.index l i = Ok x -> l !! Z.to_nat i = Some x.
Proof.
  intros Hi. unfold Seq.index.
  destruct (Z.ltb_spec i 0) as [|_]; [lia|].
  destruct ((0 <=? i)%Z && (i <? Z.of_nat (length l))%Z); [|discriminate].
  destruct (l !! Z.to_nat i); [|discriminate]. by intros [= ->].
Qed.

Lemma index_in_range {A} (l : list A) (i : Z) :
  (0 <= i < Z.of_nat (length l))%Z -> exists x, Seq.index l i = Ok x.
Proof.
  intros Hi. destruct (lookup_lt_is_Some_2 l (Z.to_nat i)) as [x Hx]; [lia|].
  exists x. apply index_nonneg; [lia|done].
Qed.

Lemma index_minus_one {A} (l : list A) x : Seq.index (l ++ [x]) (-1) = Ok x.
Proof.
  unfold Seq.index. rewrite length_app. cbn [length].
  destruct (Z.ltb_spec (-1) 0) as [_|]; [|lia].
  destruct (Z.leb_spec 0 (Z.of_nat (length l + 1) + -1)) as [_|]; [|lia].
  destruct (Z.ltb_spec (Z.of_nat (length l + 1) + -1) (Z.of_nat (length l + 1))) as [_|]; [|lia].
  cbn [andb].
  replace (Z.to_nat (Z.of_nat (length l + 1) + -1)) with (length l) by lia.
  by rewrite list_lookup_middle.
Qed.

Lemma clip_in_range {A} (l : list A) (i : Z) :
  (0 <= i <= Z.of_nat (length l))%Z -> Seq.clip l i = Z.to_nat i.
Proof.
  intros Hi. unfold Seq.clip. destruct (Z.ltb_spec i 0); [lia|]. f_equal. lia.
Qed.

Lemma upto_from {A} (l : list A) (i : Z) : Seq.upto l i ++ Seq.from l i = l.
Proof. apply take_drop. Qed.

(** ** [insert_newlines] *)

(** The inner loop stops between [low] and where it started; it has
    stepped over no space, and it has stopped above [low] only behind a
    space. *)
Lemma find_cut_spec (t : str) low fuel c :
  (1 <= low <= c)%Z -> (c <= Z.of_nat (length t))%Z -> (c - low <= Z.of_nat fuel)%Z ->
  exists c', find_cut t low fuel c = Ok c' /\ (low <= c' <= c)%Z
    /\ (forall i, (c' <= i < c)%Z -> t !! Z.to_nat i <> Some " "%char)
    /\ ((low < c')%Z -> t !! Z.to_nat (c' - 1) = Some " "%char).
Proof.
  revert c. induction fuel as [|fuel IH]; intros c Hlow Hlen Hfuel.
  - assert (c = low) as -> by lia.
    destruct (index_in_range t (low - 1)) as [ch Hch]; [lia|].
    exists low. cbn [find_cut]. rewrite Hch. cbn [mbind result_bind].
    destruct (Z.ltb_spec low low) as [|_]; [lia|]. rewrite andb_false_r.
    repeat split; lia.
  - destruct (index_in_range t (c - 1)) as [ch Hch]; [lia|].
    cbn [find_cut]. rewrite Hch. cbn [mbind result_bind].
    apply index_nonneg_inv in Hch; [|lia].
    destruct (Ascii.eqb_spec ch " ") as [->|Hne]; cbn [negb andb].
    + exists c. repeat split; try lia; done.
    + destruct (Z.ltb_spec low c) as [Hlt|Hge].
      * destruct (IH (c - 1)%Z) as (c' & E & Hr & Hskip & Hsp); [lia..|].
        exists c'. repeat split; try lia; try done.
        intros i Hi. destruct (decide (i = c - 1)%Z) as [->|].
        -- rewrite Hch. congruence.
        -- apply Hskip. lia.
      * exists c. repeat split; lia.
Qed.

(** Whatever the window, the inner loop started inside the text with a
    positive [low] stops at a positive position. *)
Lemma find_cut_positive (t : str) low fuel c :
  (1 <= low)%Z -> (1 <= c <= Z.of_nat (length t))%Z ->
  exists c', find_cut t low fuel c = Ok c' /\ (1 <= c' <= c)%Z.
Proof.
  intros Hlow. revert c. induction fuel as [|fuel IH]; intros c Hc;
    (destruct (index_in_range t (c - 1)) as [ch Hch]; [lia|]);
    cbn [find_cut]; rewrite Hch; cbn [mbind result_bind].
  - exists c. split; [|lia]. by destruct (_ && _).
  - destruct (negb (Ascii.eqb ch " ")); cbn [andb]; [|exists c; split; [done|lia]].
    destruct (Z.ltb_spec low c) as [Hlt|Hge]; [|exists c; split; [done|lia]].
    destruct (IH (c - 1)%Z) as (c' & E & Hr); [lia|].
    exists c'. split; [done|lia].
Qed.

(** If every turn cuts a chunk that is not empty, the loop ends within
    [len(string)] turns and its chunks make up the text. *)
Lemma loop_spec (P : str -> str -> Prop) every window :
  (forall t, t <> [] ->
     exists part rest, cut_chunk t every window = Ok (part, rest)
       /\ t = part ++ rest /\ part <> [] /\ P part rest) ->
  forall fuel t chunks, length t <= fuel ->
    exists out, insert_newlines_loop fuel every window t chunks = Some (Ok (chunks ++ out))
      /\ concat out = t /\ chain P out.
Proof.
  intros Hcut. induction fuel as [|fuel IH]; intros t chunks Hfuel.
  - destruct t; [|cbn in Hfuel; lia]. exists []. by rewrite app_nil_r.
  - destruct t as [|c t]; [exists []; by rewrite app_nil_r|].
    destruct (Hcut (c :: t)) as (part & rest & E & Happ & Hne & HP); [done|].
    cbn [insert_newlines_loop]. rewrite E.
    assert (length rest <= fuel) as Hrest.
    { apply (f_equal length) in Happ. rewrite length_app in Happ. cbn in *.
      destruct part; [done|]. cbn in Happ. lia. }
    destruct (IH rest (chunks ++ [part]) Hrest) as (out & E' & Hcat & Hchain).
    exists (part :: out). rewrite E', <- app_assoc. cbn [app concat chain].
    rewrite Hcat. done.
Qed.

(** A turn that cuts the empty chunk repeats for ever. *)
Lemma loop_stuck every window (t : str) :
  t <> [] -> cut_chunk t every window = Ok ([], t) ->
  forall fuel chunks, insert_newlines_loop fuel every window t chunks = None.
Proof.
  intros Hne Hcut. induction fuel as [|fuel IH]; intros chunks;
    (destruct t as [|c t]; [done|]); [reflexivity|].
  cbn [insert_newlines_loop]. rewrite Hcut. apply IH.
Qed.

Lemma cut_chunk_shape (t : str) every window :
  (0 <= window < every)%Z -> t <> [] ->
  exists part rest, cut_chunk t every window = Ok (part, rest)
    /\ t = part ++ rest /\ part <> []
    /\ cut_shape (Z.to_nat every) (Z.to_nat window) part rest.
Proof.
  intros Hw Hne. unfold cut_chunk.
  destruct (Z.ltb_spec every (Z.of_nat (length t))) as [Hlong|Hshort].
  - destruct (find_cut_spec t (every - window) (Z.to_nat window) every)
      as (c & E & Hc & Hskip & Hsp); [lia..|].
    rewrite E. cbn [mbind result_bind]. eexists _, _. split; [reflexivity|].
    unfold Seq.upto, Seq.from. rewrite clip_in_range by lia.
    split; [by rewrite take_drop|].
    assert (length (take (Z.to_nat c) t) = Z.to_nat c) as Hlen
      by (rewrite length_take; lia).
    split; [intros E0; rewrite E0 in Hlen; cbn in Hlen; lia|].
    unfold cut_shape. destruct (drop (Z.to_nat c) t) as [|d rest] eqn:Hrest.
    { apply (f_equal length) in Hrest. rewrite length_drop in Hrest. cbn in Hrest. lia. }
    rewrite <- Hrest. destruct (decide (every - window < c)%Z) as [Habove|Hlow].
    + left. split; [|lia].
      rewrite last_lookup, Hlen, lookup_take_lt by lia.
      rewrite <- (Hsp Habove). f_equal. lia.
    + right. split; [lia|]. apply Forall_lookup. intros i x Hx.
      apply lookup_take_Some in Hx as [Hx Hi]. rewrite lookup_drop in Hx.
      intros ->. apply (Hskip (Z.of_nat (Z.to_nat c + i))); [lia|].
      by rewrite Nat2Z.id.
  - cbn [mbind result_bind]. eexists _, _. split; [reflexivity|].
    unfold Seq.upto, Seq.from. rewrite clip_in_range by lia. rewrite Nat2Z.id.
    rewrite take_ge, drop_ge by lia. rewrite app_nil_r.
    split; [done|]. split; [done|]. split; [done|]. lia.
Qed.

(** C6 as stated fails: with width 10 and margin 3 the six-letter word
    ["bbbbbb"] is split, ["aaaa bb"] then ["bbbb cc"]. *)
Lemma insert_newlines_splits_short_word :
  exists chunks,
    insert_newlines (s "aaaa bbbbbb cc") 10 3 = Some (Ok chunks)
    /\ chunks = [s "aaaa bb"; s "bbbb cc"]
    /\ ~ chain (keeps_words 10) chunks.
Proof.
  eexists. split; [vm_compute; reflexivity|]. split; [reflexivity|].
  intros [[H|[H|H]] _]; vm_compute in H; [discriminate..|lia].
Qed.

Lemma chain_impl (P Q : str -> str -> Prop) chunks :
  (forall chunk rest, P chunk rest -> Q chunk rest) ->
  chain P chunks -> chain Q chunks.
Proof.
  intros HPQ. induction chunks as [|chunk more IH]; [done|].
  cbn [chain]. intros [H1 H2]. split; [by apply HPQ|by apply IH].
Qed.

Lemma cut_shape_wrap every window chunk rest :
  window < every -> cut_shape every window chunk rest ->
  wrap_shape every window chunk rest.
Proof.
  intros Hw. unfold cut_shape, wrap_shape.
  destruct rest as [|d rest]; [intros [? ?]; by auto|].
  intros [[Hlast Hlen]|[Hlen Hns]].
  - split; [intros ->; cbn in Hlen; lia|]. split; [lia|]. right. left. split; [done|lia].
  - split; [intros ->; cbn in Hlen; lia|]. split; [lia|]. right. right.
    unfold Seq.slice. rewrite drop_app_length' by done.
    by replace (every - (every - window)) with window by lia.
Qed.

(** C6 (amended). With width 10 and margin 3, [insert_newlines] returns
    chunks that make up the input, each of 1 to 10 characters. A chunk
    other than the last either ends with a space found among its last 3
    characters (it has 8 to 10 characters), or was cut from a text whose
    8th to 10th characters are not spaces; in that case the cut takes no
    account of words and may fall inside a word of at most 10
    characters. *)
Theorem insert_newlines_chunks (string : str) :
  exists chunks,
    insert_newlines string 10 3 = Some (Ok chunks)
    /\ concat chunks = string
    /\ chain (wrap_shape 10 3) chunks.
Proof.
  destruct (loop_spec (cut_shape 10 3) 10 3) with (fuel := length string)
    (t := string) (chunks := @nil str) as (out & E & Hcat & Hchain); [|done|].
  - intros t Ht. apply (cut_chunk_shape t 10 3); [lia|done].
  - exists out. split; [exact E|]. split; [done|].
    revert Hchain. apply chain_impl. intros chunk rest.
    apply cut_shape_wrap. lia.
Qed.

(** ** Termination of [insert_newlines] *)

Lemma cut_chunk_progress (t : str) every window :
  (1 <= every)%Z -> (window < every)%Z -> t <> [] ->
  exists part rest, cut_chunk t every window = Ok (part, rest)
    /\ t = part ++ rest /\ part <> [] /\ True.
Proof.
  intros He Hw Hne. unfold cut_chunk.
  assert (exists c, (1 <= c <= Z.of_nat (length t))%Z /\
     (if (every <? Z.of_nat (length t))%Z
      then find_cut t (every - window) (Z.to_nat window) every
      else Ok (Z.of_nat (length t))) = Ok c) as (c & Hc & ->).
  { destruct (Z.ltb_spec every (Z.of_nat (length t))) as [Hlong|Hshort].
    - destruct (find_cut_positive t (every - window) (Z.to_nat window) every)
        as (c & E & Hc); [lia..|]. exists c. split; [lia|done].
    - exists (Z.of_nat (length t)). split; [|done].
      destruct t; [done|]. cbn [length]. lia. }
  cbn [mbind result_bind]. eexists _, _. split; [reflexivity|].
  unfold Seq.upto, Seq.from. rewrite clip_in_range by lia.
  split; [by rewrite take_drop|]. split; [|done].
  intros E0. apply (f_equal length) in E0. rewrite length_take in E0. cbn in E0. lia.
Qed.

Lemma find_cut_through (t : str) low fuel (k : nat) :
  (low <= 0)%Z -> k <= fuel ->
  (forall i, i < k -> t !! i = Some "a"%char) ->
  Seq.index t (-1) = Ok " "%char ->
  find_cut t low fuel (Z.of_nat k) = Ok 0%Z.
Proof.
  intros Hlow. revert fuel. induction k as [|k IH]; intros fuel Hfuel Hrun Hlast.
  - destruct fuel; cbn [find_cut]; change (Z.of_nat 0 - 1)%Z with (-1)%Z;
      rewrite Hlast; reflexivity.
  - destruct fuel as [|fuel]; [lia|]. cbn [find_cut].
    rewrite (index_nonneg t (Z.of_nat (S k) - 1) "a"%char); [|lia|].
    2:{ replace (Z.to_nat (Z.of_nat (S k) - 1)) with k by lia. apply Hrun. lia. }
    cbn [mbind result_bind]. change (Ascii.eqb "a" " ") with false. cbn [negb andb].
    destruct (Z.ltb_spec low (Z.of_nat (S k))) as [_|]; [|lia].
    replace (Z.of_nat (S k) - 1)%Z with (Z.of_nat k) by lia.
    apply IH; [lia| |done]. intros i Hi. apply Hrun. lia.
Qed.

(** With [window = every] the inner loop walks down to 0 over a text
    without spaces. *)
Lemma find_cut_no_space (t : str) fuel (k : nat) :
  k <= fuel -> k <= length t -> t <> [] ->
  Forall (fun c => c <> " "%char) t ->
  find_cut t 0 fuel (Z.of_nat k) = Ok 0%Z.
Proof.
  intros Hfuel Hk Hne Hns. revert fuel Hfuel. induction k as [|k IH]; intros fuel Hfuel.
  - destruct (index_in_range t (Z.of_nat (length t) - 1)) as [ch Hch].
    { destruct t; [done|]. cbn [length]. lia. }
    assert (Seq.index t (-1) = Ok ch) as Hlast.
    { unfold Seq.index in *. cbn [Z.ltb Z.compare].
      destruct (Z.ltb_spec (Z.of_nat (length t) - 1) 0);
        [destruct t; [done|cbn [length] in *; lia]|].
      replace (Z.of_nat (length t) + -1)%Z with (Z.of_nat (length t) - 1)%Z by lia.
      exact Hch. }
    destruct fuel; cbn [find_cut]; change (Z.of_nat 0 - 1)%Z with (-1)%Z;
      rewrite Hlast; cbn [mbind result_bind]; change (0 <? Z.of_nat 0)%Z with false;
      by rewrite andb_false_r.
  - destruct fuel as [|fuel]; [lia|]. cbn [find_cut].
    destruct (lookup_lt_is_Some_2 t k) as [ch Hch]; [lia|].
    rewrite (index_nonneg t (Z.of_nat (S k) - 1) ch); [|lia|].
    2:{ by replace (Z.to_nat (Z.of_nat (S k) - 1)) with k by lia. }
    cbn [mbind result_bind].
    pose proof (Forall_lookup_1 _ _ _ _ Hns Hch) as Hns'. cbn beta in Hns'.
    destruct (Ascii.eqb_spec ch " ") as [|_]; [done|]. cbn [negb andb].
    destruct (Z.ltb_spec 0 (Z.of_nat (S k))) as [_|]; [|lia].
    replace (Z.of_nat (S k) - 1)%Z with (Z.of_nat k) by lia.
    apply IH; lia.
Qed.

(** C10 as stated fails: [every = 0] and [window = -1] satisfy
    [every > window], and [insert_newlines("a", 0, -1)] cuts the empty
    chunk for ever. *)
Lemma insert_newlines_loops_for_ever :
  (-1 < 0)%Z
  /\ ~ exists fuel r, insert_newlines_loop fuel 0 (-1) (s "a") [] = Some r.
Proof.
  split; [lia|]. intros (fuel & r & H).
  rewrite loop_stuck in H; [discriminate|discriminate|].
  vm_compute. reflexivity.
Qed.

(** C10 (amended). [insert_newlines] terminates provided [every >= 1]
    and [every > window], and the concatenation of its chunks is then the
    input. When [window >= every >= 0] there is an input on which the
    loop makes no progress: [every] characters ["a"] followed by one
    space; when [window = every] any longer text without spaces is one
    too. *)
Theorem insert_newlines_termination every window :
  ((1 <= every)%Z -> (window < every)%Z ->
   forall string, exists chunks,
     insert_newlines string every window = Some (Ok chunks)
     /\ concat chunks = string)
  /\ ((0 <= every <= window)%Z ->
      forall fuel chunks,
        insert_newlines_loop fuel every window
          (replicate (Z.to_nat every) "a"%char ++ [" "%char]) chunks = None)
  /\ ((0 <= every)%Z -> window = every ->
      forall n, Z.to_nat every < n ->
      forall fuel chunks,
        insert_newlines_loop fuel every window (replicate n "a"%char) chunks = None).
Proof.
  split; [|split].
  - intros He Hw string.
    destruct (loop_spec (fun _ _ => True) every window) with (fuel := length string)
      (t := string) (chunks := @nil str) as (out & E & Hcat & _); [|done|].
    + intros t Ht. by apply cut_chunk_progress.
    + exists out. split; [exact E|done].
  - intros He. apply loop_stuck; [by destruct (replicate _ _)|].
    unfold cut_chunk. rewrite length_app, length_replicate. cbn [length].
    destruct (Z.ltb_spec every (Z.of_nat (Z.to_nat every + 1))) as [_|]; [|lia].
    rewrite <- (Z2Nat.id every) at 3 by lia.
    rewrite find_cut_through.
    + cbn [mbind result_bind]. unfold Seq.upto, Seq.from.
      rewrite clip_in_range by lia. reflexivity.
    + lia.
    + lia.
    + intros i Hi. rewrite lookup_app_l by (rewrite length_replicate; lia).
      by apply lookup_replicate_2.
    + apply index_minus_one.
  - intros He -> n Hn. apply loop_stuck; [destruct n; [lia|done]|].
    unfold cut_chunk. rewrite length_replicate.
    destruct (Z.ltb_spec every (Z.of_nat n)) as [_|]; [|lia].
    replace (every - every)%Z with 0%Z by lia.
    rewrite <- (Z2Nat.id every) at 2 by lia.
    rewrite find_cut_no_space.
    + cbn [mbind result_bind]. unfold Seq.upto, Seq.from.
      rewrite clip_in_range by lia. reflexivity.
    + lia.
    + rewrite length_replicate. lia.
    + destruct n; [lia|done].
    + apply Forall_replicate. discriminate.
Qed.

(** The wrapper of the renderer terminates on a text, and [every = 2]
    with [window = 3] loops on ["aa "]. *)
Lemma insert_newlines_termination_examples :
  (exists chunks,
     insert_newlines (s "to be or not to be") 10 3 = Some (Ok chunks)
     /\ concat chunks = s "to be or not to be")
  /\ (forall fuel chunks, insert_newlines_loop fuel 2 3 (s "aa ") chunks = None)
  /\ (forall fuel chunks, insert_newlines_loop fuel 2 2 (s "aaa") chunks = None).
Proof.
  split; [|split].
  - apply (proj1 (insert_newlines_termination 10 3)); lia.
  - apply (proj1 (proj2 (insert_newlines_termination 2 3))). lia.
  - apply (proj2 (proj2 (insert_newlines_termination 2 2)) ltac:(lia) eq_refl 3). cbn. lia.
Defined.

(** ** Slices *)

Lemma slice_empty {A} (l : list A) lo : Seq.slice l lo lo = [].
Proof. unfold Seq.slice. by rewrite Nat.sub_diag. Qed.

Lemma slice_app {A} (l : list A) lo mid hi :
  lo <= mid <= hi -> Seq.slice l lo mid ++ Seq.slice l mid hi = Seq.slice l lo hi.
Proof.
  intros H. unfold Seq.slice.
  replace (drop mid l) with (drop (mid - lo) (drop lo l))
    by (rewrite drop_drop; f_equal; lia).
  rewrite take_take_drop. f_equal. lia.
Qed.

Lemma slice_all {A} (l : list A) : Seq.slice l 0 (length l) = l.
Proof. unfold Seq.slice. rewrite Nat.sub_0_r. cbn [drop]. by apply take_ge. Qed.

Lemma length_slice {A} (l : list A) lo hi :
  length (Seq.slice l lo hi) <= hi - lo.
Proof. unfold Seq.slice. rewrite length_take. lia. Qed.

Lemma take_slice {A} (l : list A) i k hi :
  i + k <= hi -> take k (Seq.slice l i hi) = Seq.slice l i (i + k).
Proof.
  intros H. unfold Seq.slice. rewrite take_take. f_equal. lia.
Qed.

(** ** Matching blocks *)

Lemma common_prefix_spec (u v : list str) :
  Difflib.common_prefix u v <= length u
  /\ Difflib.common_prefix u v <= length v
  /\ take (Difflib.common_prefix u v) u = take (Difflib.common_prefix u v) v.
Proof.
  revert v. induction u as [|x u IH]; intros [|y v]; cbn; try (repeat split; lia || done).
  case_bool_decide as E; cbn; [|repeat split; lia || done].
  destruct (IH v) as (H1 & H2 & H3). subst y. repeat split; [lia..|by f_equal].
Qed.

Lemma common_prefix_same (u : list str) : Difflib.common_prefix u u = length u.
Proof.
  induction u as [|x u IH]; [done|]. cbn. rewrite bool_decide_eq_true_2 by done.
  by rewrite IH.
Qed.

Lemma fold_left_invariant {A B} (I : A -> Prop) (Q : B -> Prop) (f : A -> B -> A) l init :
  Forall Q l -> (forall acc x, I acc -> Q x -> I (f acc x)) -> I init ->
  I (fold_left f l init).
Proof.
  intros HQ Hstep. revert init. induction HQ as [|x l Hx _ IH]; intros init Hinit; [done|].
  cbn. apply IH. by apply Hstep.
Qed.

Lemma candidates_range alo ahi blo bhi :
  Forall (fun '(i, j) => alo <= i < ahi /\ blo <= j < bhi)
         (Difflib.candidates alo ahi blo bhi).
Proof.
  apply List.Forall_forall. intros [i j] Hin. unfold Difflib.candidates in Hin.
  apply in_flat_map in Hin as (i' & Hi & Hin).
  apply in_map_iff in Hin as (j' & [= <- <-] & Hj).
  apply in_seq in Hi. apply in_seq in Hj. lia.
Qed.

Lemma find_longest_match_good x y alo ahi blo bhi :
  alo <= ahi -> blo <= bhi ->
  good_match x y alo ahi blo bhi (Difflib.find_longest_match x y alo ahi blo bhi).
Proof.
  intros Ha Hb. unfold Difflib.find_longest_match.
  apply (fold_left_invariant (good_match x y alo ahi blo bhi)
           (fun '(i, j) => alo <= i < ahi /\ blo <= j < bhi)).
  - apply candidates_range.
  - intros best [i j] Hbest [Hi Hj].
    destruct (Nat.ltb_spec (Difflib.size best)
                (Difflib.common_prefix (Seq.slice x i ahi) (Seq.slice y j bhi)))
      as [_|_]; [|done].
    destruct (common_prefix_spec (Seq.slice x i ahi) (Seq.slice y j bhi))
      as (H1 & H2 & H3).
    pose proof (length_slice x i ahi). pose proof (length_slice y j bhi).
    unfold good_match. cbn [Difflib.a Difflib.b Difflib.size].
    repeat split; try lia.
    rewrite <- !take_slice with (hi := ahi) by lia.
    rewrite H3. rewrite take_slice by lia. done.
  - unfold good_match. cbn [Difflib.a Difflib.b Difflib.size].
    rewrite !Nat.add_0_r, !slice_empty. repeat split; lia.
Qed.

Lemma ordered_weaken l1 l2 pa pb pa' pb' ms ea eb :
  pa' <= pa -> pb' <= pb -> ordered l1 l2 pa pb ms ea eb -> ordered l1 l2 pa' pb' ms ea eb.
Proof. destruct ms; cbn; intuition lia. Qed.

Lemma ordered_app l1 l2 pa pb ms1 ma mb ms2 ea eb :
  ordered l1 l2 pa pb ms1 ma mb -> ordered l1 l2 ma mb ms2 ea eb ->
  ordered l1 l2 pa pb (ms1 ++ ms2) ea eb.
Proof.
  revert pa pb. induction ms1 as [|m ms1 IH]; intros pa pb.
  - cbn [app ordered]. intros [? ?]. by apply ordered_weaken.
  - cbn [app ordered]. intros (? & ? & ? & H) Hnext. repeat split; try done. by apply IH.
Qed.

Lemma blocks_ordered x y fuel alo ahi blo bhi :
  alo <= ahi -> blo <= bhi ->
  ordered x y alo blo (Difflib.blocks fuel x y alo ahi blo bhi) ahi bhi.
Proof.
  revert alo ahi blo bhi. induction fuel as [|fuel IH]; intros alo ahi blo bhi Ha Hb;
    [done|].
  cbn [Difflib.blocks].
  pose proof (find_longest_match_good x y alo ahi blo bhi Ha Hb) as Hm.
  destruct (Difflib.find_longest_match x y alo ahi blo bhi) as [i j k].
  unfold good_match in Hm. cbn [Difflib.a Difflib.b Difflib.size] in *.
  destruct Hm as (H1 & H2 & H3 & H4 & H5).
  destruct (k =? 0); [done|].
  apply (ordered_app _ _ _ _ _ i j).
  { destruct ((alo <? i) && (blo <? j)); [by apply IH|done]. }
  apply (ordered_app _ _ _ _ [_] (i + k) (j + k)).
  { cbn [ordered Difflib.a Difflib.b Difflib.size]. repeat split; try lia; done. }
  destruct ((i + k <? ahi) && (j + k <? bhi)); [apply IH; lia|done].
Qed.

Lemma get_matching_blocks_ordered x y :
  ordered x y 0 0 (Difflib.get_matching_blocks x y) (length x) (length y)
  /\ last (Difflib.get_matching_blocks x y)
     = Some {| Difflib.a := length x; Difflib.b := length y; Difflib.size := 0 |}.
Proof.
  unfold Difflib.get_matching_blocks. split; [|apply last_snoc].
  apply (ordered_app _ _ _ _ _ (length x) (length y)).
  - apply blocks_ordered; lia.
  - cbn [ordered Difflib.a Difflib.b Difflib.size].
    rewrite !Nat.add_0_r, !slice_empty. repeat split; lia.
Qed.

Lemma good_match_size_zero x y alo ahi blo bhi :
  ahi <= alo -> Difflib.size (Difflib.find_longest_match x y alo ahi blo bhi) = 0.
Proof.
  intros H. unfold Difflib.find_longest_match, Difflib.candidates.
  by replace (ahi - alo) with 0 by lia.
Qed.

(** More fuel than the number of tokens in the range changes nothing. *)
Lemma blocks_fuel x y : forall fuel1 fuel2 alo ahi blo bhi,
  blo <= bhi -> ahi - alo <= fuel1 -> ahi - alo <= fuel2 ->
  Difflib.blocks fuel1 x y alo ahi blo bhi = Difflib.blocks fuel2 x y alo ahi blo bhi.
Proof.
  induction fuel1 as [|fuel1 IH]; intros fuel2 alo ahi blo bhi Hb H1 H2.
  - destruct fuel2; [done|]. cbn [Difflib.blocks].
    by rewrite good_match_size_zero by lia.
  - destruct fuel2 as [|fuel2].
    + cbn [Difflib.blocks]. by rewrite good_match_size_zero by lia.
    + cbn [Difflib.blocks].
      destruct (decide (alo <= ahi)) as [Ha|Ha];
        [|by rewrite good_match_size_zero by lia].
      pose proof (find_longest_match_good x y alo ahi blo bhi Ha Hb) as Hm.
      destruct (Difflib.find_longest_match x y alo ahi blo bhi) as [i j k].
      unfold good_match in Hm. cbn [Difflib.a Difflib.b Difflib.size] in *.
      destruct Hm as (? & ? & ? & ? & _).
      destruct (Nat.eqb_spec k 0) as [|Hk]; [done|].
      f_equal; [|f_equal].
      * destruct (_ && _); [|done]. apply IH; lia.
      * destruct (_ && _); [|done]. apply IH; lia.
Qed.

(** ** The loop of [equalize] *)

Lemma fillers_range (l : list str) n lo :
  lo + n <= length l ->
  mapM (fun i => match l !! i with
                 | Some w => Ok (underscores w)
                 | None => Raise IndexError
                 end) (seq lo n)
  = Ok (map underscores (take n (drop lo l))).
Proof.
  revert lo. induction n as [|n IH]; intros lo Hlen; [done|].
  destruct (lookup_lt_is_Some_2 l lo) as [w Hw]; [lia|].
  cbn [seq]. rewrite mapM_result_cons, Hw, (drop_S l w lo Hw), IH by lia.
  reflexivity.
Qed.

Lemma fillers_ok (l : list str) lo hi :
  hi <= length l -> fillers l lo hi = Ok (map underscores (Seq.slice l lo hi)).
Proof.
  intros Hhi. unfold fillers, Seq.slice.
  destruct (decide (lo <= hi)) as [Hle|Hgt].
  - apply fillers_range. lia.
  - by replace (hi - lo) with 0 by lia.
Qed.

Section Entries.

Context (g : list str).

Lemma left_entry_only_left : map left_entry (map OnlyLeft g) = g.
Proof. induction g; cbn; by f_equal. Qed.

Lemma right_entry_only_left : map right_entry (map OnlyLeft g) = map underscores g.
Proof. induction g; cbn; by f_equal. Qed.

Lemma left_entry_only_right : map left_entry (map OnlyRight g) = map underscores g.
Proof. induction g; cbn; by f_equal. Qed.

Lemma right_entry_only_right : map right_entry (map OnlyRight g) = g.
Proof. induction g; cbn; by f_equal. Qed.

Lemma left_entry_both : map left_entry (map Both g) = g.
Proof. induction g; cbn; by f_equal. Qed.

Lemma right_entry_both : map right_entry (map Both g) = g.
Proof. induction g; cbn; by f_equal. Qed.

Lemma left_token_only_left : omap left_token (map OnlyLeft g) = g.
Proof. induction g; cbn; by f_equal. Qed.

Lemma left_token_only_right : omap left_token (map OnlyRight g) = [].
Proof. induction g; cbn; by f_equal. Qed.

Lemma right_token_only_left : omap right_token (map OnlyLeft g) = [].
Proof. induction g; cbn; by f_equal. Qed.

Lemma right_token_only_right : omap right_token (map OnlyRight g) = g.
Proof. induction g; cbn; by f_equal. Qed.

Lemma left_token_both : omap left_token (map Both g) = g.
Proof. induction g; cbn; by f_equal. Qed.

Lemma right_token_both : omap right_token (map Both g) = g.
Proof. induction g; cbn; by f_equal. Qed.

End Entries.

Lemma block_slots_left l1 l2 pa pb m :
  pa <= Difflib.a m ->
  omap left_token (block_slots l1 l2 pa pb m)
  = Seq.slice l1 pa (Difflib.a m + Difflib.size m).
Proof.
  intros Hpa. unfold block_slots.
  rewrite !omap_app, left_token_only_left, left_token_only_right, left_token_both.
  cbn [app]. apply slice_app. lia.
Qed.

Lemma block_slots_right l1 l2 pa pb m :
  pb <= Difflib.b m ->
  Seq.slice l1 (Difflib.a m) (Difflib.a m + Difflib.size m)
  = Seq.slice l2 (Difflib.b m) (Difflib.b m + Difflib.size m) ->
  omap right_token (block_slots l1 l2 pa pb m)
  = Seq.slice l2 pb (Difflib.b m + Difflib.size m).
Proof.
  intros Hpb Heq. unfold block_slots.
  rewrite !omap_app, right_token_only_left, right_token_only_right, right_token_both.
  cbn [app]. rewrite Heq. apply slice_app. lia.
Qed.

(** One turn of the loop appends the entries of the block's positions. *)
Lemma equalize_step_spec l1 l2 res1 res2 prev m :
  let pa := Difflib.a prev + Difflib.size prev in
  let pb := Difflib.b prev + Difflib.size prev in
  Difflib.a m <= length l1 -> Difflib.b m <= length l2 ->
  Seq.slice l1 (Difflib.a m) (Difflib.a m + Difflib.size m)
  = Seq.slice l2 (Difflib.b m) (Difflib.b m + Difflib.size m) ->
  equalize_step l1 l2 (res1, res2, prev) m
  = Ok (res1 ++ map left_entry (block_slots l1 l2 pa pb m),
        res2 ++ map right_entry (block_slots l1 l2 pa pb m), m).
Proof.
  intros pa pb Ha Hb Heq. unfold equalize_step. fold pa pb.
  assert ((if bool_decide (pa ≠ Difflib.a m)
           then gap ← fillers l1 pa (Difflib.a m);
                Ok (res1 ++ Seq.slice l1 pa (Difflib.a m), res2 ++ gap)
           else Ok (res1, res2))
          = Ok (res1 ++ Seq.slice l1 pa (Difflib.a m),
                res2 ++ map underscores (Seq.slice l1 pa (Difflib.a m)))) as ->.
  { case_bool_decide as E.
    - by rewrite fillers_ok.
    - rewrite <- E, slice_empty. cbn [map]. by rewrite !app_nil_r. }
  cbn [mbind result_bind].
  assert ((if bool_decide (pb ≠ Difflib.b m)
           then gap ← fillers l2 pb (Difflib.b m);
                Ok ((res1 ++ Seq.slice l1 pa (Difflib.a m)) ++ gap,
                    (res2 ++ map underscores (Seq.slice l1 pa (Difflib.a m)))
                    ++ Seq.slice l2 pb (Difflib.b m))
           else Ok (res1 ++ Seq.slice l1 pa (Difflib.a m),
                    res2 ++ map underscores (Seq.slice l1 pa (Difflib.a m))))
          = Ok ((res1 ++ Seq.slice l1 pa (Difflib.a m))
                ++ map underscores (Seq.slice l2 pb (Difflib.b m)),
                (res2 ++ map underscores (Seq.slice l1 pa (Difflib.a m)))
                ++ Seq.slice l2 pb (Difflib.b m))) as ->.
  { case_bool_decide as E.
    - by rewrite fillers_ok.
    - rewrite <- E, slice_empty. cbn [map]. by rewrite !app_nil_r. }
  cbn [mbind result_bind]. unfold block_slots.
  rewrite !map_app, left_entry_only_left, left_entry_only_right, left_entry_both,
    right_entry_only_left, right_entry_only_right, right_entry_both.
  rewrite <- Heq, <- !app_assoc. reflexivity.
Qed.

Lemma ordered_bound l1 l2 pa pb ms ea eb :
  ordered l1 l2 pa pb ms ea eb -> pa <= ea /\ pb <= eb.
Proof.
  revert pa pb. induction ms as [|m ms IH]; intros pa pb; cbn [ordered]; [done|].
  intros (? & ? & _ & H). apply IH in H. lia.
Qed.

Lemma last_cons_default {A} (x d : A) l :
  default d (last (x :: l)) = default x (last l).
Proof. rewrite last_cons. by destruct (last l). Qed.

(** The loop over blocks in order builds the entries of an alignment of
    the tokens between where it starts and where the last block ends. *)
Lemma equalize_loop_spec l1 l2 ms ea eb :
  ea <= length l1 -> eb <= length l2 ->
  forall res1 res2 prev,
  ordered l1 l2 (Difflib.a prev + Difflib.size prev)
                (Difflib.b prev + Difflib.size prev) ms ea eb ->
  let final := default prev (last ms) in
  exists slots,
    equalize_loop l1 l2 (res1, res2, prev) ms
    = Ok (res1 ++ map left_entry slots, res2 ++ map right_entry slots, final)
    /\ omap left_token slots
       = Seq.slice l1 (Difflib.a prev + Difflib.size prev)
                      (Difflib.a final + Difflib.size final)
    /\ omap right_token slots
       = Seq.slice l2 (Difflib.b prev + Difflib.size prev)
                      (Difflib.b final + Difflib.size final)
    /\ Difflib.a prev + Difflib.size prev <= Difflib.a final + Difflib.size final
    /\ Difflib.b prev + Difflib.size prev <= Difflib.b final + Difflib.size final.
Proof.
  intros Hea Heb. induction ms as [|m ms IH]; intros res1 res2 prev Hord final.
  - exists []. subst final. cbn [last from_option id equalize_loop map omap].
    rewrite !app_nil_r, !slice_empty. done.
  - cbn [ordered] in Hord. destruct Hord as (Hpa & Hpb & Heq & Hord).
    pose proof (ordered_bound _ _ _ _ _ _ _ Hord) as [Hba Hbb].
    cbn [equalize_loop].
    rewrite equalize_step_spec by (lia || done). cbn [mbind result_bind].
    match goal with
    | |- context [equalize_loop _ _ (?r1, ?r2, m) ms] =>
        destruct (IH r1 r2 m Hord) as (slots & E & Hl & Hr & Hla & Hlb)
    end.
    subst final. rewrite last_cons_default.
    exists (block_slots l1 l2 (Difflib.a prev + Difflib.size prev)
              (Difflib.b prev + Difflib.size prev) m ++ slots).
    rewrite E, !map_app, !app_assoc, !omap_app, Hl, Hr.
    rewrite block_slots_left, block_slots_right by done.
    rewrite !slice_app by lia. repeat split; try done; lia.
Qed.

Lemma entries_aligned slots :
  Forall2 aligned_entries (map left_entry slots) (map right_entry slots).
Proof.
  induction slots as [|[w|w|w] slots IH]; cbn [map]; constructor; try done.
  - by left.
  - right. by left.
  - right. by right.
Qed.

(** C7. For every pair of strings, the two token sequences that
    [equalize] builds have equal length; at every position both entries
    are the same matched token, or one is a token and the other a run of
    underscores of the token's length. The tokens of the first sequence
    that are not gap-fillers are the tokens of the first string, in
    order, and likewise for the second. *)
Theorem equalize_aligned s1 s2 :
  exists res1 res2 slots,
    equalize_tokens s1 s2 = Ok (res1, res2)
    /\ length res1 = length res2
    /\ Forall2 aligned_entries res1 res2
    /\ res1 = map left_entry slots /\ res2 = map right_entry slots
    /\ omap left_token slots = tokenize s1
    /\ omap right_token slots = tokenize s2.
Proof.
  unfold equalize_tokens.
  destruct (get_matching_blocks_ordered (tokenize s1) (tokenize s2)) as [Hord Hlast].
  destruct (equalize_loop_spec (tokenize s1) (tokenize s2)
              (Difflib.get_matching_blocks (tokenize s1) (tokenize s2))
              (length (tokenize s1)) (length (tokenize s2)) (le_n _) (le_n _)
              [] [] {| Difflib.a := 0; Difflib.b := 0; Difflib.size := 0 |} Hord)
    as (slots & E & Hl & Hr & _).
  rewrite Hlast in E, Hl, Hr. cbn [from_option id Difflib.a Difflib.b Difflib.size] in *.
  rewrite !Nat.add_0_r, slice_all in Hl, Hr.
  exists (map left_entry slots), (map right_entry slots), slots.
  rewrite E. cbn [mbind result_bind app].
  repeat split; try done.
  - by rewrite !length_map.
  - apply entries_aligned.
Qed.

(** ** Aligning a string with itself *)

Lemma re_split_spaces_nonempty in_gap t : re_split_spaces in_gap t <> [].
Proof.
  revert in_gap. induction t as [|c t IH]; intros in_gap; [done|].
  cbn [re_split_spaces]. destruct (isspace c).
  - destruct in_gap; [apply IH|done].
  - by destruct (re_split_spaces false t).
Qed.

Lemma re_split_spaces_word w t :
  Forall (fun c => isspace c = false) w ->
  re_split_spaces false (w ++ t)
  = match re_split_spaces false t with
    | u :: us => (w ++ u) :: us
    | [] => [w]
    end.
Proof.
  induction 1 as [|c w Hc _ IH]; cbn [app re_split_spaces].
  - pose proof (re_split_spaces_nonempty false t).
    by destruct (re_split_spaces false t).
  - rewrite Hc, IH. by destruct (re_split_spaces false t).
Qed.

Lemma re_split_spaces_after_gap c t :
  isspace c = false -> re_split_spaces true (c :: t) = re_split_spaces false (c :: t).
Proof. intros Hc. cbn [re_split_spaces]. by rewrite Hc. Qed.

Lemma join_cons_cons sep (w w' : str) ws :
  join sep (w :: w' :: ws) = w ++ sep ++ join sep (w' :: ws).
Proof. reflexivity. Qed.

Lemma tokenize_join ws :
  ws <> [] -> Forall word ws -> tokenize (join (s " ") ws) = ws.
Proof.
  intros Hne Hws. unfold tokenize. induction Hws as [|w ws [Hw Hns] Hws IH]; [done|].
  destruct ws as [|w' ws].
  - cbn [join]. rewrite <- (app_nil_r w) at 1.
    rewrite re_split_spaces_word by done. cbn [re_split_spaces]. by rewrite app_nil_r.
  - rewrite join_cons_cons, re_split_spaces_word by done.
    change (s " " ++ ?x) with (" "%char :: x).
    cbn [re_split_spaces]. change (isspace " ") with true. cbn match.
    rewrite app_nil_r. f_equal.
    inversion Hws as [|? ? [Hw' Hns'] _]; subst.
    destruct w' as [|c w']; [done|].
    destruct ws as [|w'' ws];
      [cbn [join app]|rewrite join_cons_cons; cbn [app]];
      (rewrite re_split_spaces_after_gap by by inversion Hns');
      [apply (IH ltac:(done))|apply (IH ltac:(done))].
Qed.

Lemma untokenize_tokenize t : normalized t -> untokenize (tokenize t) = t.
Proof.
  intros (ws & Hws & ->). unfold untokenize.
  destruct ws as [|w ws]; [reflexivity|].
  by rewrite tokenize_join.
Qed.

Lemma tokenize_nonempty t : tokenize t <> [].
Proof. apply re_split_spaces_nonempty. Qed.

Lemma candidates_first n :
  exists rest, Difflib.candidates 0 (S n) 0 (S n) = (0, 0) :: rest.
Proof. unfold Difflib.candidates. cbn. eauto. Qed.

(** The longest match of a sequence with itself is the whole sequence. *)
Lemma find_longest_match_same (l : list str) :
  l <> [] ->
  Difflib.find_longest_match l l 0 (length l) 0 (length l)
  = {| Difflib.a := 0; Difflib.b := 0; Difflib.size := length l |}.
Proof.
  intros Hne. unfold Difflib.find_longest_match.
  destruct (length l) as [|n] eqn:Hlen; [by destruct l|].
  pose proof (candidates_range 0 (S n) 0 (S n)) as Hrange.
  destruct (candidates_first n) as [rest ->].
  cbn [fold_left]. rewrite <- Hlen, slice_all, common_prefix_same, Hlen.
  cbn [Difflib.size]. destruct (Nat.ltb_spec 0 (S n)) as [_|]; [|lia].
  apply (fold_left_invariant
           (fun best => best = {| Difflib.a := 0; Difflib.b := 0; Difflib.size := S n |})
           (fun _ => True)); [by apply Forall_true| |done].
  intros best [i j] -> _. cbn [Difflib.size].
  destruct (common_prefix_spec (Seq.slice l i (S n)) (Seq.slice l j (S n))) as (H1 & _).
  pose proof (length_slice l i (S n)).
  destruct (Nat.ltb_spec (S n)
              (Difflib.common_prefix (Seq.slice l i (S n)) (Seq.slice l j (S n))));
    [lia|done].
Qed.

Lemma get_matching_blocks_same (l : list str) :
  l <> [] ->
  Difflib.get_matching_blocks l l
  = [ {| Difflib.a := 0; Difflib.b := 0; Difflib.size := length l |};
      {| Difflib.a := length l; Difflib.b := length l; Difflib.size := 0 |} ].
Proof.
  intros Hne. unfold Difflib.get_matching_blocks.
  destruct (length l) as [|n] eqn:Hlen; [by destruct l|].
  cbn [Difflib.blocks]. rewrite <- Hlen, (find_longest_match_same l Hne), Hlen.
  cbn [Difflib.a Difflib.b Difflib.size Nat.eqb Nat.ltb Nat.leb andb app].
  destruct (Nat.leb_spec (0 + S n) n) as [|_]; [lia|]. reflexivity.
Qed.

Lemma equalize_tokens_same t :
  equalize_tokens t t = Ok (tokenize t, tokenize t).
Proof.
  unfold equalize_tokens.
  rewrite (get_matching_blocks_same (tokenize t) (tokenize_nonempty t)).
  cbn [equalize_loop].
  rewrite equalize_step_spec; cbn [Difflib.a Difflib.b Difflib.size]; [|lia|lia|done].
  cbn [mbind result_bind].
  rewrite equalize_step_spec; cbn [Difflib.a Difflib.b Difflib.size]; [|lia|lia|done].
  cbn [mbind result_bind]. unfold block_slots. cbn [Difflib.a Difflib.b Difflib.size].
  rewrite !Nat.add_0_r, !Nat.add_0_l, !slice_empty, slice_all. cbn [map app].
  by rewrite !app_nil_r, left_entry_both, right_entry_both.
Qed.

(** C8. For every normalized single-spaced string [t] (non-empty words
    separated by single spaces, no whitespace at the ends),
    [equalize(t, t)] returns [(t, t)]. *)
Theorem equalize_same t : normalized t -> equalize t t = Ok (t, t).
Proof.
  intros Hnorm. unfold equalize. rewrite equalize_tokens_same.
  cbn [mbind result_bind]. by rewrite untokenize_tokenize.
Qed.

Lemma equalize_same_example :
  normalized (s "the cat sat")
  /\ equalize (s "the cat sat") (s "the cat sat") = Ok (s "the cat sat", s "the cat sat").
Proof.
  assert (normalized (s "the cat sat")) as Hnorm.
  { exists [s "the"; s "cat"; s "sat"]. split; [|reflexivity].
    repeat constructor; discriminate. }
  split; [exact Hnorm|]. apply (equalize_same _ Hnorm).
Defined.

(** ** Single-spaced strings *)

Lemma tail_ok_word_app w t :
  Forall (fun c => isspace c = false) w -> tail_ok t = true -> tail_ok (w ++ t) = true.
Proof.
  induction 1 as [|c w Hc _ IH]; intros Ht; [done|].
  cbn [app tail_ok]. rewrite Hc. by apply IH.
Qed.

Lemma tail_ok_cons c t : tail_ok (c :: t) = true -> tail_ok t = true.
Proof.
  cbn [tail_ok]. destruct (isspace c); [|done].
  intros H. by apply andb_true_iff in H as [_ H].
Qed.

(** What follows a character that is not whitespace is [tail_ok]. *)
Lemma tail_ok_suffix x d t :
  tail_ok (x ++ d :: t) = true -> isspace d = false -> tail_ok t = true.
Proof.
  induction x as [|c x IH]; cbn [app]; intros H Hd.
  - cbn [tail_ok] in H. by rewrite Hd in H.
  - apply IH; [|done]. by apply tail_ok_cons in H.
Qed.

Lemma single_spaced_tail t : single_spaced t = true -> tail_ok t = true.
Proof.
  destruct t as [|c t]; [done|]. cbn [single_spaced tail_ok].
  intros H. apply andb_true_iff in H as [Hc H].
  apply negb_true_iff in Hc. by rewrite Hc.
Qed.

Lemma ok_at_tail p : ok_at p = true -> tail_ok (snd p) = true.
Proof.
  destruct p as [[c|] t]; unfold ok_at; cbn [fst snd].
  - destruct (isspace c); [|done]. intros H.
    apply andb_true_iff in H as [_ H]. by apply single_spaced_tail.
  - apply single_spaced_tail.
Qed.

(** A word in front of a [tail_ok] text is fine at any position. *)
Lemma ok_at_word prev g t :
  g <> [] -> Forall (fun c => isspace c = false) g -> tail_ok t = true ->
  ok_at (prev, g ++ t) = true.
Proof.
  intros Hne Hg Ht. destruct Hg as [|c g Hc Hg]; [done|].
  assert (single_spaced ((c :: g) ++ t) = true) as Hs.
  { cbn [app single_spaced]. rewrite Hc. cbn [negb andb]. by apply tail_ok_word_app. }
  unfold ok_at. cbn [fst snd]. destruct prev as [b|]; [|done].
  destruct (isspace b); [by rewrite Hs|]. by apply single_spaced_tail.
Qed.

Lemma ok_at_step prev c t out :
  ok_at (prev, c :: t) = true ->
  (ok_at (Some c, t) = true -> ok_at (Some c, out) = true) ->
  ok_at (Some c, t) = true /\ ok_at (prev, c :: out) = true.
Proof.
  intros H IH. destruct (isspace c) eqn:Hc.
  - (* a space: the previous character is not whitespace *)
    assert (tail_ok (c :: t) = true /\ exists b, prev = Some b /\ isspace b = false)
      as [Ht (b & -> & Hb)].
    { unfold ok_at in H. cbn [fst snd] in H. destruct prev as [b|].
      - destruct (isspace b) eqn:Hb; [|by eauto].
        cbn [nonempty single_spaced] in H. by rewrite Hc in H.
      - cbn [single_spaced] in H. by rewrite Hc in H. }
    cbn [tail_ok] in Ht. rewrite Hc in Ht.
    apply andb_true_iff in Ht as [Ht Ht3]. apply andb_true_iff in Ht as [Ht1 Ht2].
    destruct t as [|d t]; [done|].
    assert (ok_at (Some c, d :: t) = true) as Hnext.
    { unfold ok_at. cbn [fst snd nonempty single_spaced]. rewrite Hc, Ht2.
      cbn [andb]. by apply tail_ok_cons in Ht3. }
    split; [done|]. specialize (IH Hnext).
    unfold ok_at in IH |- *. cbn [fst snd] in *. rewrite Hc in IH. rewrite Hb.
    destruct out as [|e out]; [done|]. cbn [nonempty single_spaced andb] in IH.
    apply andb_true_iff in IH as [He Hout].
    cbn [tail_ok]. rewrite Hc, Ht1, He. cbn [andb].
    apply negb_true_iff in He. by rewrite He.
  - assert (tail_ok t = true) as Ht.
    { apply ok_at_tail in H. cbn [snd tail_ok] in H. by rewrite Hc in H. }
    assert (ok_at (Some c, t) = true) as Hnext.
    { unfold ok_at. cbn [fst snd]. by rewrite Hc. }
    split; [done|]. specialize (IH Hnext).
    unfold ok_at in IH. cbn [fst snd] in IH. rewrite Hc in IH.
    by apply (ok_at_word prev [c] out); [|repeat constructor|].
Qed.

(** ** What a match of the pattern consumes *)

Lemma lower_eq_isword c d :
  Ascii.eqb (char_lower c) (char_lower d) = true -> isword c = true -> isword d = true.
Proof.
  intros E Hc. apply Ascii.eqb_eq in E.
  by rewrite <- (isword_lower d), <- E, isword_lower.
Qed.

Lemma backref_reach g : forall p p' t0 y,
  t0 = y ++ snd p -> g <> [] -> Forall (fun c => isword c = true) g ->
  Re.backref g p = Some p' -> reach t0 p'.
Proof.
  induction g as [|c g IH]; intros p p' t0 y Ht0 Hne Hg; [done|].
  cbn [Re.backref]. destruct (snd p) as [|d t] eqn:Hp; [done|].
  destruct (Ascii.eqb (char_lower c) (char_lower d)) eqn:E; [|done].
  inversion Hg as [|? ? Hc Hg']; subst.
  destruct g as [|c' g].
  - cbn [Re.backref]. intros [= <-]. exists y, d. cbn [fst snd].
    split; [done|]. split; [done|]. by apply (lower_eq_isword c).
  - apply (IH _ _ _ (y ++ [d])); [|done|done].
    cbn [snd]. by rewrite <- app_assoc.
Qed.

Lemma nonword_group_reach g t : forall p' t0 y,
  t0 = y ++ t -> g <> [] -> Forall (fun c => isword c = true) g ->
  Re.nonword_group g t = Some p' -> reach t0 p'.
Proof.
  induction t as [|c t IH]; intros p' t0 y Ht0 Hne Hg; [done|].
  cbn [Re.nonword_group]. destruct (isword c); [done|].
  destruct (Re.nonword_group g t) as [q|] eqn:Hdeep.
  - intros [= <-]. apply (IH _ _ (y ++ [c])); [|done..].
    by rewrite <- app_assoc.
  - destruct (Re.backref g (Some c, t)) as [q|] eqn:Hback; [|done].
    destruct (Re.word_boundary _ _); [|done]. intros [= <-].
    apply (backref_reach g (Some c, t) q t0 (y ++ [c])); [|done..].
    cbn [snd]. by rewrite <- app_assoc.
Qed.

Lemma more_rounds_reach fuel g : forall p t0,
  g <> [] -> Forall (fun c => isword c = true) g ->
  reach t0 p -> reach t0 (Re.more_rounds fuel g p).
Proof.
  induction fuel as [|fuel IH]; intros p t0 Hne Hg Hp; [done|].
  cbn [Re.more_rounds].
  destruct (Re.nonword_group g (snd p)) as [q|] eqn:Hq; [|done].
  apply IH; [done..|].
  destruct Hp as (x & d & Ht0 & _).
  apply (nonword_group_reach g (snd p) q t0 (x ++ [d])); [|done..].
  by rewrite <- app_assoc.
Qed.

Lemma group_rounds_spec t : forall taken t0 g p',
  t0 = taken ++ t -> Forall (fun c => isword c = true) taken ->
  Re.group_rounds taken t = Some (g, p') ->
  g <> [] /\ Forall (fun c => isword c = true) g /\ reach t0 p'.
Proof.
  induction t as [|c t IH]; intros taken t0 g p' Ht0 Htaken; [done|].
  cbn [Re.group_rounds]. destruct (isword c) eqn:Hc; [|done].
  assert (Forall (fun c => isword c = true) (taken ++ [c])) as Hg
    by (apply Forall_app; split; [done|by constructor]).
  assert (t0 = (taken ++ [c]) ++ t) as Ht0' by (by rewrite <- app_assoc).
  destruct (Re.group_rounds (taken ++ [c]) t) as [r|] eqn:Hdeep.
  - intros [= ->]. by apply (IH (taken ++ [c])).
  - destruct (Re.nonword_group (taken ++ [c]) t) as [q|] eqn:Hq; [|done].
    intros [= <- <-].
    assert (taken ++ [c] <> []) as Hne by (by destruct taken).
    split; [done|]. split; [done|].
    apply more_rounds_reach; [done..|].
    by apply (nonword_group_reach (taken ++ [c]) t q t0 (taken ++ [c])).
Qed.

Lemma match_at_spec p g p' :
  Re.match_at p = Some (g, p') ->
  g <> [] /\ Forall (fun c => isword c = true) g /\ reach (snd p) p'.
Proof.
  unfold Re.match_at. destruct (Re.word_boundary _ _); [|done].
  by apply (group_rounds_spec (snd p) []).
Qed.

(** The substitution keeps a single-spaced subject single-spaced. *)
Lemma sub_from_ok fuel : forall p,
  ok_at p = true -> ok_at (fst p, Re.sub_from fuel p) = true.
Proof.
  induction fuel as [|fuel IH]; intros [prev t] Hp; [done|].
  cbn [Re.sub_from fst snd].
  destruct (Re.match_at (prev, t)) as [[g p']|] eqn:Hm.
  - apply match_at_spec in Hm as (Hne & Hg & x & d & Ht & Hd & Hw).
    cbn [snd] in Ht. apply isword_not_space in Hw.
    assert (tail_ok (snd p') = true) as Htail.
    { apply ok_at_tail in Hp. cbn [snd] in Hp. rewrite Ht in Hp.
      by apply (tail_ok_suffix x d). }
    assert (ok_at p' = true) as Hp'.
    { unfold ok_at. by rewrite Hd, Hw. }
    specialize (IH p' Hp'). unfold ok_at in IH. cbn [fst snd] in IH.
    rewrite Hd, Hw in IH.
    apply ok_at_word; [done| |done].
    eapply Forall_impl; [exact Hg|]. intros c. apply isword_not_space.
  - destruct t as [|c t]; [done|].
    apply (ok_at_step prev c t); [done|]. apply (IH (Some c, t)).
Qed.

Lemma sub_single_spaced t :
  single_spaced t = true -> single_spaced (Re.sub t) = true.
Proof. intros H. apply (sub_from_ok (length t) (None, t)). exact H. Qed.

(** ** Words and single-spaced strings *)

Lemma scan_words t :
  Forall (fun c => isspace c = false) (fst (Scan.scan t))
  /\ Forall word (snd (Scan.scan t)).
Proof.
  unfold Scan.scan. induction t as [|c t [IH1 IH2]]; [by split|].
  cbn [foldr]. destruct (foldr Scan.push ([], []) t) as [w u]. cbn [fst snd] in *.
  destruct (isspace c) eqn:Hc.
  - rewrite push_space by done. cbn [fst snd]. split; [done|].
    unfold Scan.flush. cbn [fst snd]. destruct w as [|a w]; [done|].
    constructor; [by split|done].
  - rewrite push_char by done. cbn [fst snd]. split; [by constructor|done].
Qed.

Lemma split_words t : Forall word (split t).
Proof.
  rewrite split_scan. destruct (scan_words t) as [H1 H2].
  destruct (Scan.scan t) as [w u]. unfold Scan.flush. cbn [fst snd] in *.
  destruct w as [|a w]; [done|]. constructor; [by split|done].
Qed.

Lemma join_spaced w ws : join (s " ") (w :: ws) = w ++ spaced ws.
Proof.
  revert w. induction ws as [|w' ws IH]; intros w.
  - cbn. by rewrite app_nil_r.
  - rewrite join_cons_cons, IH. reflexivity.
Qed.

Lemma tail_ok_spaced ws : Forall word ws -> tail_ok (spaced ws) = true.
Proof.
  induction 1 as [|w ws [Hne Hw] _ IH]; [done|].
  destruct w as [|c w]; [done|]. inversion Hw as [|? ? Hc Hw']; subst.
  unfold spaced in *. cbn [map concat app tail_ok].
  change (isspace " ") with true. cbn match. rewrite Hc.
  cbn [negb andb Ascii.eqb Bool.eqb]. by apply tail_ok_word_app.
Qed.

Lemma join_single_spaced ws :
  Forall word ws -> single_spaced (join (s " ") ws) = true.
Proof.
  intros Hws. destruct Hws as [|w ws [Hne Hw] Hws]; [done|].
  rewrite join_spaced. destruct w as [|c w]; [done|].
  inversion Hw as [|? ? Hc Hw']; subst.
  cbn [app single_spaced]. rewrite Hc. cbn [negb andb].
  apply tail_ok_word_app; [done|]. by apply tail_ok_spaced.
Qed.

(** A [tail_ok] text is the end of a word and the words after it. *)
Lemma tail_ok_scan t :
  tail_ok t = true -> t = fst (Scan.scan t) ++ spaced (snd (Scan.scan t)).
Proof.
  unfold Scan.scan. induction t as [|c t IH]; [done|].
  intros Ht. pose proof (tail_ok_cons c t Ht) as Ht'. specialize (IH Ht').
  pose proof (scan_word_empty t) as He. unfold Scan.scan in He.
  cbn [foldr]. destruct (foldr Scan.push ([], []) t) as [w u]. cbn [fst snd] in *.
  destruct (isspace c) eqn:Hc.
  - rewrite push_space by done. cbn [fst snd app].
    cbn [tail_ok] in Ht. rewrite Hc in Ht.
    apply andb_true_iff in Ht as [Ht _]. apply andb_true_iff in Ht as [Hsp Hnext].
    apply Ascii.eqb_eq in Hsp. subst c.
    unfold Scan.flush. cbn [fst snd]. destruct w as [|a w].
    + destruct t as [|d t]; [done|]. apply negb_true_iff in Hnext.
      destruct He as [He _]. specialize (He eq_refl). congruence.
    + unfold spaced in *. cbn [map concat]. by rewrite IH at 1.
  - rewrite push_char by done. cbn [fst snd app]. by rewrite IH at 1.
Qed.

Lemma join_split t : single_spaced t = true -> join (s " ") (split t) = t.
Proof.
  destruct t as [|c t]; [done|]. cbn [single_spaced]. intros H.
  apply andb_true_iff in H as [Hc Ht]. apply negb_true_iff in Hc.
  rewrite split_scan. unfold Scan.scan. cbn [foldr].
  rewrite push_char by done. pose proof (tail_ok_scan t Ht) as E.
  unfold Scan.scan in E. destruct (foldr Scan.push ([], []) t) as [w u].
  cbn [fst snd] in *. unfold Scan.flush. cbn [fst snd].
  rewrite join_spaced. cbn [app]. by rewrite <- E.
Qed.

Lemma tail_ok_last t :
  tail_ok t = true -> t <> [] -> exists x e, t = x ++ [e] /\ isspace e = false.
Proof.
  induction t as [|d t IH]; [done|]. intros Ht _.
  destruct t as [|d' t].
  - exists [], d. split; [done|]. cbn [tail_ok] in Ht.
    destruct (isspace d); [|done]. by rewrite andb_false_r in Ht.
  - destruct IH as (x & e & E & He); [by apply tail_ok_cons in Ht|done|].
    exists (d :: x), e. by rewrite E.
Qed.

Lemma lstrip_word c t : isspace c = false -> lstrip (c :: t) = c :: t.
Proof. intros Hc. cbn [lstrip]. by rewrite Hc. Qed.

(** Stripping a single-spaced text followed by a space gives it back. *)
Lemma strip_trailing_space t :
  single_spaced t = true -> t <> [] -> strip (t ++ s " ") = t.
Proof.
  intros Hs Hne. destruct (tail_ok_last t) as (x & e & E & He);
    [by apply single_spaced_tail|done|].
  destruct t as [|c t]; [done|]. cbn [single_spaced] in Hs.
  apply andb_true_iff in Hs as [Hc _]. apply negb_true_iff in Hc.
  unfold strip. cbn [app]. rewrite lstrip_word by done.
  unfold rstrip. change (c :: t ++ s " ") with ((c :: t) ++ [" "%char]).
  rewrite rev_unit. cbn [lstrip]. change (isspace " ") with true. cbn match.
  rewrite E, rev_unit, lstrip_word by done. rewrite <- rev_unit.
  apply rev_involutive.
Qed.

Lemma concat_trailing ws :
  ws <> [] -> concat (map (fun w => w ++ s " ") ws) = join (s " ") ws ++ s " ".
Proof.
  induction ws as [|w ws IH]; [done|]. intros _. destruct ws as [|w' ws].
  - cbn. by rewrite app_nil_r.
  - rewrite join_cons_cons. cbn [map concat] in *.
    rewrite IH by done. by rewrite <- !app_assoc.
Qed.

Lemma eqb_space_lower c : Ascii.eqb (char_lower c) " " = Ascii.eqb c " ".
Proof. each_char c. Qed.

Lemma tail_ok_lower t : tail_ok (lower t) = tail_ok t.
Proof.
  induction t as [|c t IH]; [done|].
  cbn [lower map tail_ok]. fold (lower t). rewrite isspace_lower, eqb_space_lower, IH.
  destruct t as [|d t]; [done|]. cbn [lower map]. by rewrite isspace_lower.
Qed.

Lemma single_spaced_lower t : single_spaced (lower t) = single_spaced t.
Proof.
  destruct t as [|c t]; [done|]. cbn [lower map single_spaced]. fold (lower t).
  by rewrite isspace_lower, tail_ok_lower.
Qed.

(** The result of [clean_text] is single-spaced. *)
Lemma clean_text_single_spaced text replacements to_remove cased :
  single_spaced (clean_text text replacements to_remove cased) = true.
Proof.
  unfold clean_text, remove_consecutive_duplicates, remove_words.
  assert (forall t, single_spaced t = true ->
            single_spaced (if negb cased then lower (Re.sub t) else Re.sub t) = true)
    as Hlast.
  { intros t Ht. apply sub_single_spaced in Ht.
    destruct cased; cbn [negb]; [done|]. by rewrite single_spaced_lower. }
  apply Hlast. apply join_single_spaced.
  apply List.Forall_forall. intros w Hin. apply filter_In in Hin as [Hin _].
  pose proof (split_words (replace_words (remove_punctuation
    (replace_words (replace "-" (s " ") text) replacements)) replacements)) as Hws.
  rewrite List.Forall_forall in Hws. by apply Hws.
Qed.

(** ** Idempotence of [clean_text] *)

Lemma replace_absent old new t :
  Forall (fun c => c <> old) t -> replace old new t = t.
Proof.
  unfold replace. induction 1 as [|c t Hc _ IH]; [done|].
  cbn [flat_map]. rewrite IH. destruct (Ascii.eqb_spec c old); [done|reflexivity].
Qed.

Lemma remove_punctuation_absent t :
  Forall (fun c => c ∉ punctuation) t -> remove_punctuation t = t.
Proof.
  unfold remove_punctuation, translate_delete.
  induction 1 as [|c t Hc _ IH]; [done|].
  cbn [List.filter]. rewrite bool_decide_eq_false_2 by done. cbn [negb]. by rewrite IH.
Qed.

Lemma filter_all {A} (P : A -> bool) l :
  (forall x, P x = true) -> List.filter P l = l.
Proof.
  intros HP. induction l as [|x l IH]; [done|]. cbn. by rewrite HP, IH.
Qed.

Lemma remove_words_none t : single_spaced t = true -> remove_words t [] = t.
Proof.
  intros Hs. unfold remove_words. rewrite filter_all; [by apply join_split|].
  intros w. rewrite bool_decide_eq_false_2; [done|]. apply not_elem_of_nil.
Qed.

(** A single-spaced text none of whose words is a key is left as it is
    by the word replacement. *)
Lemma replace_words_fixed t replacements :
  single_spaced t = true ->
  Forall (fun w => replacements !! lower w = None) (split t) ->
  replace_words t replacements = t.
Proof.
  intros Hs Hkeys. rewrite replace_words_loop.
  assert (map (fun w => Spec.substitute replacements w ++ s " ") (split t)
          = map (fun w => w ++ s " ") (split t)) as ->.
  { induction Hkeys as [|w ws Hw _ IH]; [done|].
    cbn [map]. rewrite IH. unfold Spec.substitute. by rewrite Hw. }
  pose proof (join_split t Hs) as Hjoin.
  destruct (split t) as [|w ws] eqn:E.
  - by rewrite <- Hjoin.
  - rewrite concat_trailing by done. rewrite Hjoin.
    apply strip_trailing_space; [done|]. intros ->. discriminate.
Qed.

Lemma clean_text_lowered text replacements to_remove :
  lower (clean_text text replacements to_remove false)
  = clean_text text replacements to_remove false.
Proof. unfold clean_text. cbn [negb]. apply lower_idem. Qed.

(** C9 as stated fails: with the replacements [a -> b], [b -> c],
    [c -> d] and no removal list, the first pass maps ["a"] to ["c"],
    which has no hyphen and no duplicate word, and the second pass maps
    it to ["d"]. *)
Lemma clean_text_not_idempotent :
  clean_text (s "a") chain_replacements [] true = s "c"
  /\ Forall (fun c => c <> "-"%char) (s "c")
  /\ remove_consecutive_duplicates (s "c") = s "c"
  /\ clean_text (clean_text (s "a") chain_replacements [] true) chain_replacements [] true
     <> clean_text (s "a") chain_replacements [] true.
Proof.
  split; [vm_compute; reflexivity|].
  split; [repeat constructor; discriminate|].
  split; [vm_compute; reflexivity|].
  vm_compute. discriminate.
Qed.

(** C9 (amended). With an empty removal list, if the result of the first
    cleaning pass contains no punctuation character (so no hyphen), none
    of its words is, in lowercase, a key of the replacements, and the
    collapse of consecutive duplicates leaves it unchanged, then cleaning
    it again returns it unchanged. *)
Theorem clean_text_idempotent text replacements cased :
  let first := clean_text text replacements [] cased in
  Forall (fun c => c ∉ punctuation) first ->
  Forall (fun w => replacements !! lower w = None) (split first) ->
  remove_consecutive_duplicates first = first ->
  clean_text first replacements [] cased = first.
Proof.
  intros first Hpunct Hkeys Hdup.
  pose proof (clean_text_single_spaced text replacements [] cased) as Hs.
  fold first in Hs.
  assert (Forall (fun c => c <> "-"%char) first) as Hhyphen.
  { eapply Forall_impl; [exact Hpunct|]. intros c Hc ->. apply Hc.
    by apply (bool_decide_unpack _). }
  unfold clean_text at 1.
  rewrite replace_absent by done.
  rewrite (replace_words_fixed first) by done.
  rewrite remove_punctuation_absent by done.
  rewrite (replace_words_fixed first) by done.
  rewrite remove_words_none by done.
  rewrite Hdup.
  destruct cased; cbn [negb]; [done|]. apply clean_text_lowered.
Qed.

(** With the contraction ["i'm"] expanded, the cleaned text is a fixed
    point of the cleaning. *)
Lemma clean_text_idempotent_example :
  clean_text (s "I'm happy happy - OK.") {[ s "i'm" := s "i am" ]} [] false
  = s "i am happy ok"
  /\ clean_text (s "i am happy ok") {[ s "i'm" := s "i am" ]} [] false
     = s "i am happy ok".
Proof.
  assert (clean_text (s "I'm happy happy - OK.") {[ s "i'm" := s "i am" ]} [] false
          = s "i am happy ok") as E by (vm_compute; reflexivity).
  split; [exact E|].
  rewrite <- E at 1 2.
  apply (clean_text_idempotent (s "I'm happy happy - OK.") {[ s "i'm" := s "i am" ]} false);
    rewrite E.
  - apply (bool_decide_unpack _). vm_compute. reflexivity.
  - apply (bool_decide_unpack _). vm_compute. reflexivity.
  - vm_compute. reflexivity.
Defined.

(** ** The pattern and the collapse of duplicate words *)

Lemma span_spec (P : ascii -> bool) t :
  t = fst (Spec.span P t) ++ snd (Spec.span P t)
  /\ Forall (fun c => P c = true) (fst (Spec.span P t))
  /\ from_option P false (head (snd (Spec.span P t))) = false.
Proof.
  induction t as [|c t (IH1 & IH2 & IH3)]; [done|].
  cbn [Spec.span]. destruct (P c) eqn:Hc.
  - destruct (Spec.span P t) as [u v]. cbn [fst snd] in *.
    split; [by rewrite IH1 at 1|]. split; [by constructor|done].
  - cbn [fst snd head from_option]. by rewrite Hc.
Qed.

Lemma span_head_false (P : ascii -> bool) t :
  from_option P false (head t) = false -> Spec.span P t = ([], t).
Proof. destruct t as [|c t]; [done|]. cbn. by intros ->. Qed.

Lemma span_cons_true (P : ascii -> bool) c t :
  P c = true ->
  Spec.span P (c :: t) = (c :: fst (Spec.span P t), snd (Spec.span P t)).
Proof. intros Hc. cbn [Spec.span]. rewrite Hc. by destruct (Spec.span P t). Qed.

Lemma lower_cons_eq c d w g :
  lower (d :: w) = lower (c :: g)
  <-> char_lower d = char_lower c /\ lower w = lower g.
Proof. unfold lower. cbn [map]. split; [by intros [= -> ->]|by intros [-> ->]]. Qed.

(** Closes an equation between lowercased words whose heads agree by [E]. *)
Ltac same_lower E :=
  first [by rewrite E | apply lower_cons_eq; split; [by rewrite E | done]].

(** [\1\b] after a group of word characters: the next word, whole, is
    the group up to case. *)
Lemma backref_boundary g : forall c0 prev t,
  isword c0 = true -> Forall (fun c => isword c = true) g ->
  match Re.backref (c0 :: g) (prev, t) with
  | Some p => if Re.word_boundary (fst p) (head (snd p)) then Some p else None
  | None => None
  end
  = let '(w', t3) := Spec.span isword t in
    if bool_decide (lower w' = lower (c0 :: g)) then Some (last w', t3) else None.
Proof.
  induction g as [|c1 g IH]; intros c0 prev t Hc0 Hg.
  - destruct t as [|d t]; [done|]. cbn [Re.backref snd].
    destruct (Ascii.eqb_spec (char_lower c0) (char_lower d)) as [E|E].
    + assert (isword d = true) as Hd
        by (apply (lower_eq_isword c0); [by apply Ascii.eqb_eq|done]).
      rewrite span_cons_true by done. cbn [fst snd].
      unfold Re.word_boundary. cbn [from_option]. rewrite Hd. cbn [xorb].
      destruct t as [|e t]; [cbn; by rewrite bool_decide_eq_true_2 by same_lower E|].
      cbn [head from_option]. destruct (isword e) eqn:He.
      * rewrite span_cons_true by done. cbn [fst snd negb].
        by rewrite bool_decide_eq_false_2.
      * rewrite span_head_false by (cbn; by rewrite He). cbn [fst snd negb last].
        by rewrite bool_decide_eq_true_2 by same_lower E.
    + destruct (Spec.span isword (d :: t)) as [w' t3] eqn:Hspan.
      rewrite bool_decide_eq_false_2; [done|].
      destruct w' as [|d' w']; [done|]. intros Hl. apply lower_cons_eq in Hl as [Hl _].
      cbn [Spec.span] in Hspan. destruct (isword d); [|done].
      destruct (Spec.span isword t). by injection Hspan as -> _ _.
  - inversion Hg as [|? ? Hc1 Hg']; subst.
    destruct t as [|d t]; [done|].
    change (Re.backref (c0 :: c1 :: g) (prev, d :: t))
      with (if Ascii.eqb (char_lower c0) (char_lower d)
            then Re.backref (c1 :: g) (Some d, t) else None).
    destruct (Ascii.eqb_spec (char_lower c0) (char_lower d)) as [E|E].
    + assert (isword d = true) as Hd
        by (apply (lower_eq_isword c0); [by apply Ascii.eqb_eq|done]).
      rewrite (IH c1 (Some d) t Hc1 Hg'). rewrite span_cons_true by done.
      destruct (Spec.span isword t) as [w' t3]. cbn [fst snd].
      case_bool_decide as H1.
      * rewrite bool_decide_eq_true_2 by same_lower E.
        destruct w' as [|e w']; [done|]. by rewrite last_cons_cons.
      * rewrite bool_decide_eq_false_2; [done|].
        intros Hl. by apply lower_cons_eq in Hl as [_ Hl].
    + destruct (Spec.span isword (d :: t)) as [w' t3] eqn:Hspan.
      rewrite bool_decide_eq_false_2; [done|].
      destruct w' as [|d' w']; [done|]. intros Hl. apply lower_cons_eq in Hl as [Hl _].
      cbn [Spec.span] in Hspan. destruct (isword d); [|done].
      destruct (Spec.span isword t). by injection Hspan as -> _ _.
Qed.

Lemma backref_nonword c0 g prev d t :
  isword c0 = true -> isword d = false -> Re.backref (c0 :: g) (prev, d :: t) = None.
Proof.
  intros Hc0 Hd. cbn [Re.backref snd].
  destruct (Ascii.eqb (char_lower c0) (char_lower d)) eqn:E; [|done].
  apply (lower_eq_isword c0 d) in E; [congruence|done].
Qed.

(** One round [\W+\1\b] after a group of word characters: a run of other
    characters, then the group up to case as a whole word. *)
Lemma nonword_group_spec g c0 t :
  isword c0 = true -> Forall (fun c => isword c = true) g ->
  Re.nonword_group (c0 :: g) t
  = let '(sep, t1) := Spec.span (fun c => negb (isword c)) t in
    let '(w', t2) := Spec.span isword t1 in
    if nonempty sep && bool_decide (lower w' = lower (c0 :: g))
    then Some (last w', t2) else None.
Proof.
  intros Hc0 Hg. induction t as [|c t IH]; [done|].
  cbn [Re.nonword_group]. destruct (isword c) eqn:Hc.
  - rewrite span_head_false by (cbn; by rewrite Hc).
    by destruct (Spec.span isword (c :: t)).
  - rewrite span_cons_true by (by rewrite Hc). rewrite IH. clear IH.
    pose proof (span_spec (fun c => negb (isword c)) t) as (Ht & Hsep & _).
    destruct (Spec.span (fun c => negb (isword c)) t) as [sep t1].
    cbn [fst snd nonempty andb] in *.
    destruct sep as [|d sep].
    + cbn [app] in Ht. subst t1. cbn [nonempty andb].
      rewrite (backref_boundary g c0 (Some c) t Hc0 Hg).
      by destruct (Spec.span isword t).
    + cbn [nonempty andb]. destruct (Spec.span isword t1) as [w' t2].
      case_bool_decide; [done|].
      inversion Hsep as [|? ? Hd _]; subst. apply negb_true_iff in Hd.
      cbn [app]. by rewrite backref_nonword.
Qed.

Lemma nonword_group_next g c0 t :
  isword c0 = true -> Forall (fun c => isword c = true) g ->
  snd <$> Re.nonword_group (c0 :: g) t = Spec.next_repeat (c0 :: g) t.
Proof.
  intros Hc0 Hg. rewrite nonword_group_spec by done. unfold Spec.next_repeat.
  destruct (Spec.span _ t) as [sep t1]. destruct (Spec.span isword t1) as [w' t2].
  by destruct (_ && _).
Qed.

Lemma nonword_group_after g c0 t p :
  isword c0 = true -> Forall (fun c => isword c = true) g ->
  Re.nonword_group (c0 :: g) t = Some p -> after_word p.
Proof.
  intros Hc0 Hg. rewrite nonword_group_spec by done.
  destruct (Spec.span _ t) as [sep t1].
  pose proof (span_spec isword t1) as (_ & Hw & Hhead).
  destruct (Spec.span isword t1) as [w' t2]. cbn [fst snd] in *.
  destruct (nonempty sep); [|done]. cbn [andb].
  case_bool_decide as Hl; [|done]. intros [= <-]. split; [|done].
  cbn [fst]. destruct w' as [|d w' _] using rev_ind; [done|].
  rewrite last_snoc. cbn. apply Forall_app in Hw as [_ Hw]. by inversion Hw.
Qed.

Lemma next_repeat_shorter w t t2 :
  Spec.next_repeat w t = Some t2 -> length t2 < length t.
Proof.
  unfold Spec.next_repeat.
  pose proof (span_spec (fun c => negb (isword c)) t) as (Ht & _).
  destruct (Spec.span _ t) as [sep t1].
  pose proof (span_spec isword t1) as (Ht1 & _).
  destruct (Spec.span isword t1) as [w' t3]. cbn [fst snd] in *.
  destruct sep as [|d sep]; [done|]. destruct (_ && _); [|done]. intros [= <-].
  rewrite Ht, Ht1. cbn [app length]. rewrite !length_app. lia.
Qed.

Lemma skip_repeats_fuel w : forall fuel1 fuel2 t,
  length t <= fuel1 -> length t <= fuel2 ->
  Spec.skip_repeats fuel1 w t = Spec.skip_repeats fuel2 w t.
Proof.
  induction fuel1 as [|fuel1 IH]; intros fuel2 t H1 H2.
  - destruct t; [|cbn in H1; lia]. destruct fuel2; [done|]. reflexivity.
  - destruct fuel2 as [|fuel2].
    + destruct t; [|cbn in H2; lia]. reflexivity.
    + cbn [Spec.skip_repeats]. destruct (Spec.next_repeat w t) as [t2|] eqn:E; [|done].
      apply next_repeat_shorter in E. apply IH; lia.
Qed.

Lemma more_rounds_skip fuel g c0 : forall p,
  isword c0 = true -> Forall (fun c => isword c = true) g -> after_word p ->
  snd (Re.more_rounds fuel (c0 :: g) p) = Spec.skip_repeats fuel (c0 :: g) (snd p)
  /\ after_word (Re.more_rounds fuel (c0 :: g) p).
Proof.
  induction fuel as [|fuel IH]; intros p Hc0 Hg Hp; [done|].
  cbn [Re.more_rounds Spec.skip_repeats].
  rewrite <- (nonword_group_next g c0 (snd p)) by done.
  destruct (Re.nonword_group (c0 :: g) (snd p)) as [q|] eqn:E; [|done].
  cbn [fmap option_fmap option_map]. apply IH; [done..|].
  by apply (nonword_group_after g c0 (snd p)).
Qed.

Lemma nonword_group_word_head g t :
  head_is_word t = true -> Re.nonword_group g t = None.
Proof. destruct t as [|c t]; [done|]. cbn. by intros ->. Qed.

Lemma group_rounds_nonword_head taken t :
  head_is_word t = false -> Re.group_rounds taken t = None.
Proof. destruct t as [|c t]; [done|]. cbn. by intros ->. Qed.

(** [(\w+)] takes the whole word: with fewer characters the next one is a
    word character and [\W+] fails. *)
Lemma group_rounds_whole_word t : forall taken,
  head_is_word t = true ->
  Re.group_rounds taken t
  = let '(w, t1) := Spec.span isword t in
    match Re.nonword_group (taken ++ w) t1 with
    | Some p => Some (taken ++ w, Re.more_rounds (length (snd p)) (taken ++ w) p)
    | None => None
    end.
Proof.
  induction t as [|c t IH]; intros taken Hhead; [done|].
  assert (isword c = true) as Hc by done.
  cbn [Re.group_rounds]. rewrite Hc. rewrite span_cons_true by done.
  destruct (head_is_word t) eqn:Ht.
  - rewrite (IH (taken ++ [c]) eq_refl).
    destruct (Spec.span isword t) as [w1 t1]. cbn [fst snd].
    rewrite <- app_assoc. cbn [app].
    destruct (Re.nonword_group (taken ++ c :: w1) t1); [done|].
    by rewrite nonword_group_word_head.
  - rewrite group_rounds_nonword_head by done.
    rewrite span_head_false by done. cbn [fst snd]. reflexivity.
Qed.

Lemma match_at_nonword_head prev t :
  head_is_word t = false -> Re.match_at (prev, t) = None.
Proof.
  intros Ht. unfold Re.match_at. cbn [fst snd].
  destruct (Re.word_boundary _ _); [|done]. by apply group_rounds_nonword_head.
Qed.

(** Inside a word nothing matches: the rest of the word is copied. *)
Lemma sub_from_in_word w : forall fuel prev t,
  Forall (fun c => isword c = true) w ->
  from_option isword false prev = true -> length w <= fuel ->
  Re.sub_from fuel (prev, w ++ t)
  = w ++ Re.sub_from (fuel - length w) (from_option Some prev (last w), t).
Proof.
  induction w as [|c w IH]; intros fuel prev t Hw Hprev Hfuel.
  - cbn [app length last from_option]. by rewrite Nat.sub_0_r.
  - inversion Hw as [|? ? Hc Hw']; subst.
    destruct fuel as [|fuel]; [cbn in Hfuel; lia|].
    cbn [app Re.sub_from snd]. unfold Re.match_at. cbn [fst snd head].
    unfold Re.word_boundary. cbn [from_option]. rewrite Hprev, Hc. cbn [xorb].
    rewrite (IH fuel (Some c) t Hw' Hc) by (cbn in Hfuel; lia).
    cbn [length Nat.sub]. rewrite last_cons. by destruct (last w).
Qed.

Lemma skip_repeats_length fuel w : forall t,
  length (Spec.skip_repeats fuel w t) <= length t.
Proof.
  induction fuel as [|fuel IH]; intros t; [done|].
  cbn [Spec.skip_repeats]. destruct (Spec.next_repeat w t) as [t2|] eqn:E; [|done].
  apply next_repeat_shorter in E. specialize (IH t2). lia.
Qed.

Lemma skip_repeats_none fuel w t :
  Spec.next_repeat w t = None -> Spec.skip_repeats fuel w t = t.
Proof. intros E. destruct fuel; [done|]. cbn. by rewrite E. Qed.

Lemma skip_repeats_some w t t2 :
  Spec.next_repeat w t = Some t2 ->
  Spec.skip_repeats (length t) w t = Spec.skip_repeats (length t2) w t2.
Proof.
  intros E. pose proof (next_repeat_shorter w t t2 E) as Hlt.
  destruct (length t) as [|k] eqn:Hk; [lia|].
  cbn [Spec.skip_repeats]. rewrite E. apply skip_repeats_fuel; lia.
Qed.

Lemma sub_from_nil fuel prev : Re.sub_from fuel (prev, []) = [].
Proof.
  destruct fuel; [done|]. cbn [Re.sub_from snd]. by rewrite match_at_nonword_head.
Qed.

Lemma collapse_from_nil fuel : Spec.collapse_from fuel [] = [].
Proof. by destruct fuel. Qed.

(** The substitution of the pattern is the collapse of duplicate words,
    from any position that is not inside a word. *)
Lemma sub_from_collapse n : forall t prev fuel1 fuel2,
  length t <= n -> length t <= fuel1 -> length t <= fuel2 ->
  from_option isword false prev && head_is_word t = false ->
  Re.sub_from fuel1 (prev, t) = Spec.collapse_from fuel2 t.
Proof.
  induction n as [|n IH]; intros t prev fuel1 fuel2 Hn H1 H2 Hpos.
  { destruct t; [|cbn in Hn; lia]. by rewrite sub_from_nil, collapse_from_nil. }
  destruct t as [|c t]; [by rewrite sub_from_nil, collapse_from_nil|].
  destruct fuel1 as [|fuel1]; [cbn in H1; lia|].
  destruct fuel2 as [|fuel2]; [cbn in H2; lia|].
  cbn [length] in *. cbn [Re.sub_from Spec.collapse_from snd].
  destruct (isword c) eqn:Hc.
  - (* the start of a word *)
    assert (from_option isword false prev = false) as Hprev.
    { unfold head_is_word in Hpos. cbn [head from_option] in Hpos.
      rewrite Hc, andb_true_r in Hpos. done. }
    unfold Re.match_at. cbn [fst snd head]. unfold Re.word_boundary.
    cbn [from_option]. rewrite Hprev, Hc. cbn [xorb].
    rewrite (group_rounds_whole_word (c :: t) []) by (unfold head_is_word; cbn; done).
    pose proof (span_spec isword (c :: t)) as (Ht & Hw & Hhead).
    rewrite span_cons_true in * by done.
    destruct (Spec.span isword t) as [w1 t1]. cbn [fst snd app] in *.
    injection Ht as Ht. inversion Hw as [|? ? _ Hw1]; subst.
    rewrite length_app in *.
    pose proof (nonword_group_next w1 c t1 Hc Hw1) as Hnext.
    destruct (Re.nonword_group (c :: w1) t1) as [p|] eqn:Hp.
    + cbn [fmap option_fmap option_map] in Hnext. symmetry in Hnext.
      pose proof (nonword_group_after w1 c t1 p Hc Hw1 Hp) as Hafter.
      destruct (more_rounds_skip (length (snd p)) w1 c p Hc Hw1 Hafter) as [Hskip Hq].
      rewrite (skip_repeats_some _ _ _ Hnext), <- Hskip.
      pose proof (next_repeat_shorter _ _ _ Hnext) as Hshort.
      pose proof (skip_repeats_length (length (snd p)) (c :: w1) (snd p)) as Hlen.
      rewrite <- Hskip in Hlen.
      destruct (Re.more_rounds (length (snd p)) (c :: w1) p) as [q1 q2].
      cbn [fst snd] in *. destruct Hq as [_ Hq].
      cbn [app]. f_equal. f_equal.
      apply IH; [lia..|]. cbn [snd] in Hq. rewrite Hq. apply andb_false_r.
    + cbn [fmap option_fmap option_map] in Hnext. symmetry in Hnext.
      rewrite (skip_repeats_none _ _ _ Hnext).
      rewrite (sub_from_in_word w1 fuel1 (Some c) t1 Hw1 Hc) by lia.
      cbn [app]. f_equal. f_equal. apply IH; [lia..|].
      unfold head_is_word. rewrite Hhead. apply andb_false_r.
  - rewrite match_at_nonword_head by (unfold head_is_word; cbn; by rewrite Hc).
    f_equal. apply IH; [lia..|]. cbn [from_option]. by rewrite Hc.
Qed.

(** The regular expression of [remove_consecutive_duplicates] does what
    step 6 says. *)
Lemma remove_consecutive_duplicates_spec t :
  remove_consecutive_duplicates t = Spec.collapse_duplicates t.
Proof.
  unfold remove_consecutive_duplicates, Re.sub, Spec.collapse_duplicates.
  apply (sub_from_collapse (length t)); done.
Qed.

(** C1. For every text, replacements mapping, removal list and [cased]
    flag, [clean_text] equals the composition of the seven steps in their
    stated order: (1) hyphens to spaces, (2) word-level replacement,
    (3) punctuation stripped, (4) word-level replacement again, (5) words
    of the removal list dropped, (6) consecutive duplicate words
    collapsed, (7) lowercase when [cased] is false. On the left is the
    source, statement by statement; on the right each step is written as
    the specification words it. *)
Theorem clean_text_pipeline text replacements to_remove cased :
  clean_text text replacements to_remove cased
  = Spec.lowercase_unless cased
      (Spec.collapse_duplicates
         (Spec.drop_words to_remove
            (Spec.replace_words replacements
               (Spec.strip_punctuation
                  (Spec.replace_words replacements
                     (Spec.hyphens_to_spaces text)))))).
Proof.
  rewrite clean_text_steps. by rewrite remove_consecutive_duplicates_spec.
Qed.

(** * Further properties of the code *)

(** ** The text normaliser *)

Lemma strip_single_spaced t : single_spaced t = true -> strip t = t.
Proof.
  intros Hss. destruct t as [|c t]; [done|].
  cbn [single_spaced] in Hss. apply andb_true_iff in Hss as [Hc Ht].
  apply negb_true_iff in Hc. unfold strip. rewrite lstrip_word by done.
  assert (tail_ok (c :: t) = true) as Hok by (cbn [tail_ok]; by rewrite Hc).
  destruct (tail_ok_last (c :: t) Hok) as (x & e & E & He); [done|].
  rewrite E. unfold rstrip. rewrite rev_app_distr. cbn [rev app lstrip].
  rewrite He. cbn [rev]. by rewrite rev_involutive.
Qed.

(** X1. Whatever the text, the replacements, the removal list and the
    flag, the text [clean_text] returns is single-spaced: words that are
    not empty, separated by single spaces, no whitespace at either end.
    So [strip] leaves it as it is, and it is read back from its tokens:
    [untokenize(tokenize(t)) == t]. *)
Theorem clean_text_normalized text replacements to_remove cased :
  let cleaned := clean_text text replacements to_remove cased in
  normalized cleaned
  /\ strip cleaned = cleaned
  /\ join (s " ") (split cleaned) = cleaned
  /\ untokenize (tokenize cleaned) = cleaned.
Proof.
  intros cleaned.
  pose proof (clean_text_single_spaced text replacements to_remove cased) as Hss.
  fold cleaned in Hss.
  assert (normalized cleaned) as Hn.
  { exists (split cleaned). split; [apply split_words|]. symmetry. by apply join_split. }
  split; [done|]. split; [by apply strip_single_spaced|].
  split; [by apply join_split|by apply untokenize_tokenize].
Qed.

(** ** The line wrapper *)

(** X2. For [0 <= window < every], [insert_newlines] returns chunks that
    make up the input. The last chunk has 1 to [every] characters. A
    chunk before it either ends with a space and has more than
    [every - window] and at most [every] characters, or has exactly
    [every - window] characters, and then none of the [window] characters
    that follow it is a space: where the window holds no space the cut is
    made before the window, not after [every] characters. *)
Theorem insert_newlines_cut_shape (string : str) every window :
  (0 <= window < every)%Z ->
  exists chunks,
    insert_newlines string every window = Some (Ok chunks)
    /\ concat chunks = string
    /\ chain (cut_shape (Z.to_nat every) (Z.to_nat window)) chunks.
Proof.
  intros Hw.
  destruct (loop_spec (cut_shape (Z.to_nat every) (Z.to_nat window)) every window)
    with (fuel := length string) (t := string) (chunks := @nil str)
    as (out & E & Hcat & Hchain); [|done|].
  - intros t Ht. by apply cut_chunk_shape.
  - by exists out.
Qed.

Lemma insert_newlines_cut_shape_example :
  (0 <= 10 < 64)%Z
  /\ exists chunks,
       insert_newlines
         (s "the transcript of the first recording was compared word by word with the reference text")
         64 10 = Some (Ok chunks)
       /\ concat chunks
          = s "the transcript of the first recording was compared word by word with the reference text"
       /\ chain (cut_shape (Z.to_nat 64) (Z.to_nat 10)) chunks.
Proof.
  split; [lia|]. apply insert_newlines_cut_shape. lia.
Defined.

(** ** Words of one text and not of the other *)

(** X3. [compare_words] returns the words that occur in both lists, the
    words of the reference that do not occur in the hypothesis and the
    words of the hypothesis that do not occur in the reference; words are
    compared as they are written, and how often a word occurs plays no
    part. Exchanging the two lists exchanges the last two sets. *)
Theorem compare_words_partition reference hypothesis :
  exists common missing extra,
    compare_words reference hypothesis = (common, missing, extra)
    /\ (forall w, w ∈ common <-> w ∈ reference /\ w ∈ hypothesis)
    /\ (forall w, w ∈ missing <-> w ∈ reference /\ w ∉ hypothesis)
    /\ (forall w, w ∈ extra <-> w ∈ hypothesis /\ w ∉ reference)
    /\ compare_words hypothesis reference = (common, extra, missing).
Proof.
  eexists _, _, _. split; [reflexivity|].
  split; [|split; [|split]].
  - intros w. by rewrite elem_of_intersection, !elem_of_list_to_set.
  - intros w. rewrite elem_of_difference, elem_of_intersection, !elem_of_list_to_set.
    tauto.
  - intros w. rewrite elem_of_difference, elem_of_intersection, !elem_of_list_to_set.
    tauto.
  - unfold compare_words.
    by rewrite (comm_L (∩) (list_to_set hypothesis : gset str)).
Qed.

(** ** The header of a table *)

Lemma length_times c n : length (times c n) = Z.to_nat n.
Proof. apply repeat_length. Qed.

Lemma centered_length width name field :
  centered width name field -> length field = width.
Proof.
  intros (l & r & -> & Hsum & _). rewrite !length_app, !repeat_length. lia.
Qed.

Lemma fields_length width names fields :
  Forall2 (centered width) names fields ->
  length (concat (map (fun field => s "|" ++ field) fields))
  = length names * (width + 1).
Proof.
  induction 1 as [|name field names fields Hc _ IH]; [done|].
  cbn [map concat]. rewrite length_app, IH. cbn [length app s list_ascii_of_string].
  rewrite (centered_length _ _ _ Hc). lia.
Qed.

(** X4. When there is a column and every name fits into [width]
    characters, [print_centered_columns] prints three lines. The header
    holds each name behind a bar, centred in [width] characters (the odd
    space goes to the right), and ends with two spaces and a bar:
    [len(names) * (width + 1) + 3] characters. The rule below it is as
    long as the header. The rule above it is [len(names) - 2] characters
    longer: it is as long as the header for two columns only. *)
Theorem print_centered_columns_widths column_names width :
  column_names <> [] ->
  Forall (fun name => (Z.of_nat (length name) <= width)%Z) column_names ->
  exists top header bottom fields,
    print_centered_columns column_names width = [top; header; bottom]
    /\ header = concat (map (fun field => s "|" ++ field) fields) ++ s "  |"
    /\ Forall2 (centered (Z.to_nat width)) column_names fields
    /\ length header = length column_names * (Z.to_nat width + 1) + 3
    /\ bottom = s "|" ++ repeat "-"%char (length header - 2) ++ s "|"
    /\ top = s "|" ++ repeat "-"%char (length header + length column_names - 4)
             ++ s "|".
Proof.
  intros Hne Hfit.
  set (field := fun name : str =>
    times " " ((width - Z.of_nat (length name)) / 2) ++ name
    ++ times " " ((width - Z.of_nat (length name)) / 2
                  + (width - Z.of_nat (length name)) mod 2)).
  assert (Forall2 (centered (Z.to_nat width)) column_names (map field column_names))
    as Hfields.
  { apply Forall2_fmap_r, Forall_Forall2_diag.
    eapply Forall_impl; [exact Hfit|]. intros name Hname. cbn beta in Hname |- *.
    eexists _, _. split; [reflexivity|].
    pose proof (Z.div_mod (width - Z.of_nat (length name)) 2 ltac:(lia)) as Hd.
    pose proof (Z.mod_pos_bound (width - Z.of_nat (length name)) 2 ltac:(lia)) as Hm.
    lia. }
  assert (1 <= length column_names) as Hn by (destruct column_names; [done|cbn; lia]).
  assert (0 <= width)%Z as Hw.
  { destruct column_names as [|name names]; [done|].
    apply Forall_cons in Hfit as [Hname _]. lia. }
  pose proof (fields_length _ _ _ Hfields) as Hlen.
  assert (length (concat (map (fun f => s "|" ++ f) (map field column_names)) ++ s "  |")
          = length column_names * (Z.to_nat width + 1) + 3) as Hheader.
  { rewrite length_app, Hlen. cbn. lia. }
  exists (s "|" ++ times "-" (width * Z.of_nat (length column_names)
                               + (Z.of_nat (length column_names) - 1)
                               + Z.of_nat (length column_names)) ++ s "|"),
    (concat (map (fun f => s "|" ++ f) (map field column_names)) ++ s "  |"),
    (s "|" ++ times "-" (width * Z.of_nat (length column_names)
                          + (Z.of_nat (length column_names) - 1) + 2) ++ s "|"),
    (map field column_names).
  split.
  { unfold print_centered_columns. f_equal. f_equal.
    rewrite map_map. reflexivity. }
  split; [done|]. split; [done|]. split; [done|].
  rewrite Hheader. unfold times. clear -Hn Hw.
  rewrite <- (Z2Nat.id width Hw), Nat2Z.id, <- Nat2Z.inj_mul.
  split; do 3 f_equal; lia.
Qed.

Lemma print_centered_columns_widths_example :
  [s "Reference"; s "Amazon"; s "WER"] <> []
  /\ Forall (fun name => (Z.of_nat (length name) <= 12)%Z)
            [s "Reference"; s "Amazon"; s "WER"]
  /\ exists top header bottom fields,
       print_centered_columns [s "Reference"; s "Amazon"; s "WER"] 12
       = [top; header; bottom]
       /\ header = concat (map (fun field => s "|" ++ field) fields) ++ s "  |"
       /\ Forall2 (centered (Z.to_nat 12)) [s "Reference"; s "Amazon"; s "WER"] fields
       /\ length header = length [s "Reference"; s "Amazon"; s "WER"] * (Z.to_nat 12 + 1) + 3
       /\ bottom = s "|" ++ repeat "-"%char (length header - 2) ++ s "|"
       /\ top = s "|" ++ repeat "-"%char
                  (length header + length [s "Reference"; s "Amazon"; s "WER"] - 4)
                ++ s "|".
Proof.
  assert (Forall (fun name : str => (Z.of_nat (length name) <= 12)%Z)
                 [s "Reference"; s "Amazon"; s "WER"]) as Hfit
    by (repeat constructor; vm_compute; discriminate).
  split; [discriminate|]. split; [exact Hfit|].
  apply print_centered_columns_widths; [discriminate|exact Hfit].
Defined.

(** ** Words removed and words replaced *)

Lemma split_word w : word w -> split w = [w].
Proof.
  intros [Hne Hw]. induction Hw as [|c w Hc Hw IH]; [done|].
  cbn [split]. rewrite Hc. destruct w as [|d w]; [done|].
  apply Forall_cons in Hw as [Hd Hw]. rewrite Hd.
  rewrite IH by done. done.
Qed.

Lemma split_join_words ws : Forall word ws -> split (join (s " ") ws) = ws.
Proof.
  intros Hws. rewrite split_join.
  induction Hws as [|w ws Hw _ IH]; [done|].
  cbn [map concat]. rewrite IH, split_word by done. done.
Qed.

Lemma Forall_filter_words (P : str -> bool) ws :
  Forall word ws -> Forall word (List.filter P ws).
Proof.
  induction 1 as [|w ws Hw _ IH]; [done|].
  cbn [List.filter]. destruct (P w); [by constructor|done].
Qed.

Lemma filter_filter_same {A} (P : A -> bool) l :
  List.filter P (List.filter P l) = List.filter P l.
Proof.
  induction l as [|x l IH]; [done|]. cbn [List.filter].
  destruct (P x) eqn:E; [|done]. cbn [List.filter]. by rewrite E, IH.
Qed.

(** X5. The words of the text [remove_words] returns are the words of
    the input whose lowercase form is not in the list, in their order;
    none of them has its lowercase form in the list. Removing the same
    words again changes nothing, and with nothing to remove the function
    still rewrites every run of whitespace as one space and drops it at
    the two ends. *)
Theorem remove_words_kept text words_to_remove :
  let cleaned := remove_words text words_to_remove in
  split cleaned
  = List.filter (fun w => negb (bool_decide (lower w ∈ words_to_remove))) (split text)
  /\ Forall (fun w => lower w ∉ words_to_remove) (split cleaned)
  /\ remove_words cleaned words_to_remove = cleaned
  /\ remove_words text [] = join (s " ") (split text).
Proof.
  intros cleaned.
  assert (split cleaned
          = List.filter (fun w => negb (bool_decide (lower w ∈ words_to_remove)))
                        (split text)) as E.
  { unfold cleaned, remove_words. apply split_join_words, Forall_filter_words, split_words. }
  split; [exact E|]. split; [|split].
  - rewrite E. apply Forall_forall. intros w Hw.
    apply list_elem_of_In, filter_In in Hw as [_ Hw].
    apply negb_true_iff, bool_decide_eq_false in Hw. exact Hw.
  - unfold remove_words at 1. rewrite E, filter_filter_same. reflexivity.
  - unfold remove_words. rewrite filter_all; [done|].
    intros w. rewrite bool_decide_eq_false_2; [done|]. apply not_elem_of_nil.
Qed.

Lemma substitute_insert_cased replacements key full w :
  lower key <> key ->
  Spec.substitute (<[key := full]> replacements) w = Spec.substitute replacements w.
Proof.
  intros Hkey. unfold Spec.substitute. rewrite lookup_insert_ne; [done|].
  intros ->. apply Hkey, lower_idem.
Qed.

Lemma replace_words_insert_cased text replacements key full :
  lower key <> key ->
  replace_words text (<[key := full]> replacements) = replace_words text replacements.
Proof.
  intros Hkey. rewrite !replace_words_loop. do 2 f_equal.
  apply map_ext. intros w. by rewrite substitute_insert_cased.
Qed.

Lemma remove_words_cons_cased text entry words_to_remove :
  lower entry <> entry ->
  remove_words text (entry :: words_to_remove) = remove_words text words_to_remove.
Proof.
  intros Hentry. unfold remove_words. f_equal.
  apply filter_ext. intros w. f_equal. apply bool_decide_ext.
  rewrite elem_of_cons. split; [|by right].
  intros [E|H]; [|done]. exfalso. apply Hentry. rewrite <- E. apply lower_idem.
Qed.

(** X6. A key of the replacements or an entry of the removal list that
    is not written in lowercase never takes effect: the words of the text
    are lowered before they are looked up, the keys and the entries are
    not. Adding such a key or such an entry changes the result of
    [replace_words], of [remove_words] and of [clean_text] for no text. *)
Theorem cased_entries_ignored text replacements to_remove cased key full entry :
  lower key <> key -> lower entry <> entry ->
  replace_words text (<[key := full]> replacements) = replace_words text replacements
  /\ remove_words text (entry :: to_remove) = remove_words text to_remove
  /\ clean_text text (<[key := full]> replacements) (entry :: to_remove) cased
     = clean_text text replacements to_remove cased.
Proof.
  intros Hkey Hentry.
  split; [by apply replace_words_insert_cased|].
  split; [by apply remove_words_cons_cased|].
  unfold clean_text.
  by rewrite !replace_words_insert_cased, remove_words_cons_cased.
Qed.

Lemma cased_entries_ignored_example :
  lower (s "I'm") <> s "I'm" /\ lower (s "Uh") <> s "Uh"
  /\ replace_words (s "I'm here") (<[s "I'm" := s "i am"]> ∅) = replace_words (s "I'm here") ∅
  /\ remove_words (s "Uh I'm here") [s "Uh"] = remove_words (s "Uh I'm here") []
  /\ clean_text (s "Uh I'm here") (<[s "I'm" := s "i am"]> ∅) [s "Uh"] false
     = clean_text (s "Uh I'm here") ∅ [] false.
Proof.
  split; [vm_compute; discriminate|]. split; [vm_compute; discriminate|].
  split; [|split].
  - apply (cased_entries_ignored (s "I'm here") ∅ [] false (s "I'm") (s "i am") (s "Uh"));
      vm_compute; discriminate.
  - apply (cased_entries_ignored (s "Uh I'm here") ∅ [] false (s "I'm") (s "i am") (s "Uh"));
      vm_compute; discriminate.
  - apply (cased_entries_ignored (s "Uh I'm here") ∅ [] false (s "I'm") (s "i am") (s "Uh"));
      vm_compute; discriminate.
Defined.

(** ** The two tokenisers *)

Lemma split_head_word c t :
  isspace c = false -> exists w ws, split (c :: t) = (c :: w) :: ws
    /\ (starts_space t = false -> split t = match t with [] => [] | _ => w :: ws end)
    /\ (starts_space t = true -> w = [] /\ split t = ws).
Proof.
  intros Hc. cbn [split]. rewrite Hc. destruct t as [|d t].
  - exists [], []. by repeat split.
  - unfold starts_space. cbn [head from_option]. destruct (isspace d) eqn:Hd.
    + exists [], (split (d :: t)). by repeat split.
    + destruct (split (d :: t)) as [|w ws] eqn:E.
      * exfalso. cbn [split] in E. rewrite Hd in E.
        destruct t as [|e t]; [done|]. destruct (isspace e); [done|].
        by destruct (split (e :: t)).
      * exists w, ws. by repeat split.
Qed.

Lemma ends_word_cons c d t : ends_word (c :: d :: t) = ends_word (d :: t).
Proof. reflexivity. Qed.

Lemma re_split_spaces_split t : forall in_gap,
  re_split_spaces in_gap t
  = (if in_gap then [] else if starts_space t then [[]] else [])
    ++ split t ++ (if ends_word t then [] else [[]]).
Proof.
  induction t as [|c t IH]; intros in_gap.
  - by destruct in_gap.
  - cbn [re_split_spaces]. destruct (isspace c) eqn:Hc.
    + assert (split (c :: t) = split t) as -> by (cbn [split]; by rewrite Hc).
      assert ((if ends_word (c :: t) then [] else [[]])
              = (if ends_word t then @nil str else [[]])) as ->.
      { destruct t as [|d t]; [|by rewrite ends_word_cons].
        unfold ends_word. cbn. by rewrite Hc. }
      unfold starts_space at 1. cbn [head from_option]. rewrite Hc.
      destruct in_gap; by rewrite (IH true).
    + assert ((if in_gap then [] else if starts_space (c :: t) then [[]] else [])
              = @nil str) as ->.
      { unfold starts_space. cbn [head from_option]. rewrite Hc. by destruct in_gap. }
      rewrite (IH false). cbn [app]. destruct t as [|d t].
      { unfold ends_word. cbn. by rewrite Hc. }
      rewrite ends_word_cons.
      destruct (split_head_word c (d :: t) Hc) as (w & ws & -> & Hword & Hgap).
      destruct (starts_space (d :: t)) eqn:Hs.
      * by destruct (Hgap eq_refl) as [-> ->].
      * by rewrite (Hword eq_refl).
Qed.

Lemma filter_nonempty_words ws : Forall word ws -> List.filter nonempty ws = ws.
Proof.
  induction 1 as [|w ws [Hw _] _ IH]; [done|].
  destruct w; [done|]. cbn [List.filter nonempty]. by rewrite IH.
Qed.

(** X7. [tokenize], which splits at every run of whitespace, returns the
    words [split()] returns, with an empty token before them when the
    text begins with whitespace and an empty token after them when the
    text is empty or ends with whitespace. So a token holds no whitespace,
    and the tokens that are not empty are the words of the text. *)
Theorem tokenize_split t :
  tokenize t
  = (if starts_space t then [[]] else []) ++ split t
    ++ (if ends_word t then [] else [[]])
  /\ List.filter nonempty (tokenize t) = split t
  /\ Forall (Forall (fun c => isspace c = false)) (tokenize t).
Proof.
  assert (tokenize t
          = (if starts_space t then [[]] else []) ++ split t
            ++ (if ends_word t then [] else [[]])) as E
    by apply (re_split_spaces_split t false).
  pose proof (split_words t) as Hws.
  split; [exact E|]. rewrite E. split.
  - rewrite !List.filter_app.
    rewrite (filter_nonempty_words _ Hws).
    destruct (starts_space t), (ends_word t); cbn [List.filter nonempty app];
      by rewrite ?app_nil_r.
  - apply Forall_app. split; [by destruct (starts_space t); repeat constructor|].
    apply Forall_app. split; [|by destruct (ends_word t); repeat constructor].
    eapply Forall_impl; [exact Hws|]. by intros w [_ Hw].
Qed.

Lemma join_cons_char sep c (w : str) ws :
  join sep ((c :: w) :: ws) = c :: join sep (w :: ws).
Proof. by destruct ws. Qed.

Lemma join_nil_cons (ws : list str) :
  ws <> [] -> join (s " ") ([] :: ws) = " "%char :: join (s " ") ws.
Proof. by destruct ws. Qed.

Lemma join_after_gap t :
  starts_space (join (s " ") (re_split_spaces true t)) = false.
Proof.
  induction t as [|c t IH]; [done|]. cbn [re_split_spaces].
  destruct (isspace c) eqn:Hc; [done|].
  pose proof (re_split_spaces_nonempty false t).
  destruct (re_split_spaces false t) as [|w ws]; [done|].
  rewrite join_cons_char. unfold starts_space. cbn [head from_option]. exact Hc.
Qed.

Lemma lone_spaces_join t : forall in_gap,
  lone_spaces (join (s " ") (re_split_spaces in_gap t)) = true.
Proof.
  induction t as [|c t IH]; intros in_gap; [done|]. cbn [re_split_spaces].
  destruct (isspace c) eqn:Hc.
  - destruct in_gap; [apply IH|].
    rewrite join_nil_cons by apply re_split_spaces_nonempty.
    cbn [lone_spaces]. change (isspace " ") with true. cbn match.
    by rewrite join_after_gap, (IH true).
  - pose proof (re_split_spaces_nonempty false t). specialize (IH false).
    destruct (re_split_spaces false t) as [|w ws]; [done|].
    rewrite join_cons_char. cbn [lone_spaces]. by rewrite Hc, IH.
Qed.

Lemma join_lone_spaces t :
  lone_spaces t = true -> join (s " ") (re_split_spaces false t) = t.
Proof.
  induction t as [|c t IH]; [done|]. cbn [lone_spaces re_split_spaces].
  intros H. apply andb_true_iff in H as [Hhead Ht]. specialize (IH Ht).
  destruct (isspace c) eqn:Hc.
  - apply andb_true_iff in Hhead as [Hsp Hnext].
    apply Ascii.eqb_eq in Hsp as ->. apply negb_true_iff in Hnext.
    rewrite join_nil_cons by apply re_split_spaces_nonempty. f_equal.
    destruct t as [|d t]; [done|].
    rewrite re_split_spaces_after_gap; [exact IH|exact Hnext].
  - pose proof (re_split_spaces_nonempty false t).
    destruct (re_split_spaces false t) as [|w ws]; [done|].
    by rewrite join_cons_char, IH.
Qed.

(** X8. [untokenize(tokenize(t))] gives [t] back exactly when every
    whitespace character of [t] is a space that stands alone; a space at
    the beginning or at the end of the text is kept. Any other text is
    changed: what [untokenize] returns has lone spaces only. *)
Theorem untokenize_tokenize_round_trip t :
  (untokenize (tokenize t) = t <-> lone_spaces t = true)
  /\ lone_spaces (untokenize (tokenize t)) = true.
Proof.
  assert (lone_spaces (untokenize (tokenize t)) = true) as H
    by apply (lone_spaces_join t false).
  split; [|exact H]. split.
  - intros E. by rewrite E in H.
  - apply join_lone_spaces.
Qed.

(** ** The two strings of [equalize] *)

Lemma equalize_tokens_slots s1 s2 :
  exists slots,
    equalize_tokens s1 s2 = Ok (map left_entry slots, map right_entry slots)
    /\ omap left_token slots = tokenize s1
    /\ omap right_token slots = tokenize s2.
Proof.
  unfold equalize_tokens.
  destruct (get_matching_blocks_ordered (tokenize s1) (tokenize s2)) as [Hord Hlast].
  destruct (equalize_loop_spec (tokenize s1) (tokenize s2)
              (Difflib.get_matching_blocks (tokenize s1) (tokenize s2))
              (length (tokenize s1)) (length (tokenize s2)) (le_n _) (le_n _)
              [] [] {| Difflib.a := 0; Difflib.b := 0; Difflib.size := 0 |} Hord)
    as (slots & E & Hl & Hr & _).
  rewrite Hlast in E, Hl, Hr. cbn [from_option id Difflib.a Difflib.b Difflib.size] in *.
  rewrite !Nat.add_0_r, slice_all in Hl, Hr.
  exists slots. rewrite E. cbn [mbind result_bind app]. done.
Qed.

Lemma tokenize_no_space t :
  Forall (Forall (fun c => isspace c = false)) (tokenize t).
Proof.
  unfold tokenize. rewrite re_split_spaces_split.
  apply Forall_app. split; [by destruct (starts_space t); repeat constructor|].
  apply Forall_app. split; [|by destruct (ends_word t); repeat constructor].
  eapply Forall_impl; [apply split_words|]. by intros w [_ Hw].
Qed.

Lemma spaces_underscores w :
  Forall (fun c => isspace c = false) w -> spaces (underscores w) = spaces w.
Proof.
  induction 1 as [|c w Hc _ IH]; [done|].
  unfold spaces, underscores in *. cbn [length repeat map]. rewrite IH. f_equal.
  destruct (Ascii.eqb_spec c " ") as [->|]; [discriminate|done].
Qed.

Lemma spaces_app x y : spaces (x ++ y) = spaces x ++ spaces y.
Proof. apply map_app. Qed.

Lemma spaces_join ws1 ws2 :
  Forall2 (fun w1 w2 => spaces w1 = spaces w2) ws1 ws2 ->
  spaces (join (s " ") ws1) = spaces (join (s " ") ws2).
Proof.
  induction 1 as [|w1 w2 ws1 ws2 Hw Hws IH]; [done|].
  destruct Hws as [|w1' w2' ws1 ws2 Hw' Hws]; [done|].
  rewrite !join_cons_cons, !spaces_app. by rewrite Hw, IH.
Qed.

Lemma slots_no_space slots s1 s2 :
  omap left_token slots = tokenize s1 -> omap right_token slots = tokenize s2 ->
  Forall2 (fun w1 w2 => spaces w1 = spaces w2)
          (map left_entry slots) (map right_entry slots).
Proof.
  intros Hl Hr.
  pose proof (tokenize_no_space s1) as H1. pose proof (tokenize_no_space s2) as H2.
  rewrite <- Hl in H1. rewrite <- Hr in H2. clear Hl Hr.
  induction slots as [|x slots IH]; [constructor|].
  cbn [map]. destruct x as [w|w|w]; cbn [omap left_token right_token] in H1, H2.
  - apply Forall_cons in H1 as [_ H1]. apply Forall_cons in H2 as [_ H2].
    constructor; [done|by apply IH].
  - apply Forall_cons in H1 as [Hw H1].
    constructor; [|by apply IH]. cbn [left_entry right_entry].
    by rewrite spaces_underscores.
  - apply Forall_cons in H2 as [Hw H2].
    constructor; [|by apply IH]. cbn [left_entry right_entry].
    by rewrite spaces_underscores.
Qed.

Lemma equalize_spaces s1 s2 :
  exists out1 out2, equalize s1 s2 = Ok (out1, out2) /\ spaces out1 = spaces out2.
Proof.
  destruct (equalize_tokens_slots s1 s2) as (slots & E & Hl & Hr).
  unfold equalize. rewrite E. cbn [mbind result_bind].
  eexists _, _. split; [reflexivity|].
  apply spaces_join. by apply (slots_no_space slots s1 s2).
Qed.

Lemma spaces_lookup t1 t2 i :
  spaces t1 = spaces t2 -> (t1 !! i = Some " "%char <-> t2 !! i = Some " "%char).
Proof.
  intros E. assert (forall t, t !! i = Some " "%char <-> spaces t !! i = Some true) as H.
  { intros t. unfold spaces. rewrite list_lookup_fmap.
    destruct (t !! i) as [c|]; cbn; [|done].
    destruct (Ascii.eqb_spec c " ") as [->|]; [done|]. split; congruence. }
  by rewrite !H, E.
Qed.

(** X9. [equalize] raises no exception, and the two strings it returns
    have the same length and their spaces at the same places: a token
    holds no space, and a gap-filler has as many characters as the token
    it faces. *)
Theorem equalize_same_shape s1 s2 :
  exists out1 out2,
    equalize s1 s2 = Ok (out1, out2)
    /\ length out1 = length out2
    /\ forall i, out1 !! i = Some " "%char <-> out2 !! i = Some " "%char.
Proof.
  destruct (equalize_spaces s1 s2) as (out1 & out2 & E & Hsp).
  exists out1, out2. split; [exact E|]. split.
  - apply (f_equal length) in Hsp. unfold spaces in Hsp. by rewrite !length_map in Hsp.
  - intros i. by apply spaces_lookup.
Qed.

(** ** Cuts and spaces

    Where [insert_newlines] cuts depends on the length of the text and
    on the places of its spaces only. *)

Lemma spaces_length t1 t2 : spaces t1 = spaces t2 -> length t1 = length t2.
Proof.
  intros E. apply (f_equal length) in E. unfold spaces in E.
  by rewrite !length_map in E.
Qed.

Lemma index_spaces (t1 t2 : str) i :
  spaces t1 = spaces t2 ->
  match Seq.index t1 i, Seq.index t2 i with
  | Ok c1, Ok c2 => Ascii.eqb c1 " " = Ascii.eqb c2 " "
  | Raise e1, Raise e2 => e1 = e2
  | _, _ => False
  end.
Proof.
  intros E. pose proof (spaces_length _ _ E) as Hlen. unfold Seq.index.
  rewrite <- Hlen.
  set (j := if (i <? 0)%Z then (Z.of_nat (length t1) + i)%Z else i).
  destruct ((0 <=? j)%Z && (j <? Z.of_nat (length t1))%Z); [|done].
  assert (spaces t1 !! Z.to_nat j = spaces t2 !! Z.to_nat j) as H by by rewrite E.
  unfold spaces in H. rewrite !list_lookup_fmap in H.
  destruct (t1 !! Z.to_nat j), (t2 !! Z.to_nat j); cbn in H; try done; congruence.
Qed.

Lemma find_cut_spaces (t1 t2 : str) low fuel :
  spaces t1 = spaces t2 ->
  forall c, find_cut t1 low fuel c = find_cut t2 low fuel c.
Proof.
  intros E. induction fuel as [|fuel IH]; intros c; cbn [find_cut];
    pose proof (index_spaces t1 t2 (c - 1) E) as H;
    destruct (Seq.index t1 (c - 1)) as [c1|e1], (Seq.index t2 (c - 1)) as [c2|e2];
    try done; cbn [mbind result_bind]; try congruence; rewrite H.
  - by destruct (_ && _).
  - destruct (_ && _); [apply IH|done].
Qed.

Lemma cut_chunk_spaces (t1 t2 : str) every window :
  spaces t1 = spaces t2 ->
  match cut_chunk t1 every window, cut_chunk t2 every window with
  | Ok (p1, r1), Ok (p2, r2) => spaces p1 = spaces p2 /\ spaces r1 = spaces r2
  | Raise e1, Raise e2 => e1 = e2
  | _, _ => False
  end.
Proof.
  intros E. unfold cut_chunk.
  rewrite <- (spaces_length _ _ E), (find_cut_spaces t1 t2) by done.
  destruct (if (every <? Z.of_nat (length t1))%Z then _ else _) as [c|e];
    cbn [mbind result_bind]; [|done].
  unfold Seq.upto, Seq.from, Seq.clip. rewrite <- (spaces_length _ _ E).
  unfold spaces in *. by rewrite <- !firstn_map, <- !skipn_map, E.
Qed.

Lemma insert_newlines_loop_spaces every window : forall fuel t1 t2 chunks1 chunks2,
  spaces t1 = spaces t2 ->
  Forall2 (fun c1 c2 => spaces c1 = spaces c2) chunks1 chunks2 ->
  same_cuts (insert_newlines_loop fuel every window t1 chunks1)
            (insert_newlines_loop fuel every window t2 chunks2).
Proof.
  induction fuel as [|fuel IH]; intros t1 t2 chunks1 chunks2 E Hchunks;
    (destruct t1 as [|a1 t1], t2 as [|a2 t2]; try discriminate; [done|]);
    cbn [insert_newlines_loop]; [done|].
  pose proof (cut_chunk_spaces (a1 :: t1) (a2 :: t2) every window E) as H.
  destruct (cut_chunk (a1 :: t1) every window) as [[p1 r1]|e1],
           (cut_chunk (a2 :: t2) every window) as [[p2 r2]|e2]; try done.
  destruct H as [Hp Hr]. apply IH; [done|].
  apply Forall2_app; [done|]. by constructor.
Qed.

Lemma insert_newlines_spaces t1 t2 every window :
  spaces t1 = spaces t2 ->
  same_cuts (insert_newlines t1 every window) (insert_newlines t2 every window).
Proof.
  intros E. unfold insert_newlines. rewrite <- (spaces_length _ _ E).
  by apply insert_newlines_loop_spaces.
Qed.

Lemma find_cut_raises (t : str) low fuel e :
  forall c, find_cut t low fuel c = Raise e -> e = IndexError.
Proof.
  assert (forall c x, Seq.index t c = Raise x -> x = IndexError) as Hindex.
  { intros c x. unfold Seq.index. destruct (_ && _); [|congruence].
    destruct (t !! _); congruence. }
  induction fuel as [|fuel IH]; intros c; cbn [find_cut];
    destruct (Seq.index t (c - 1)) as [ch|x] eqn:E; cbn [mbind result_bind];
    try (intros [= <-]; by eapply Hindex).
  - by destruct (_ && _).
  - destruct (_ && _); [apply IH|done].
Qed.

Lemma insert_newlines_loop_raises every window e : forall fuel t chunks,
  insert_newlines_loop fuel every window t chunks = Some (Raise e) -> e = IndexError.
Proof.
  induction fuel as [|fuel IH]; intros t chunks; (destruct t as [|c t]; [done|]);
    cbn [insert_newlines_loop]; [done|].
  destruct (cut_chunk (c :: t) every window) as [[part rest]|x] eqn:E; [apply IH|].
  intros [= <-]. unfold cut_chunk in E.
  destruct (every <? Z.of_nat (length (c :: t)))%Z; [|done].
  destruct (find_cut (c :: t) (every - window) (Z.to_nat window) every) as [k|y] eqn:Ek;
    [done|]. cbn [mbind result_bind] in E. injection E as <-.
  by eapply find_cut_raises.
Qed.

(** ** The comparison printed *)

Lemma print_rows_paired field (s1 s2 : list str) :
  length s1 = length s2 ->
  forall n k out, k + n = length s1 ->
    print_rows field s1 s2 (seq k n) out
    = (out ++ map (fun '(lft, rgt) => field lft ++ s " | " ++ field rgt ++ s " | ")
                  (zip (drop k s1) (drop k s2)), None).
Proof.
  intros Hlen. induction n as [|n IH]; intros k out Hk.
  - cbn [seq print_rows]. rewrite drop_ge by lia. by rewrite app_nil_r.
  - cbn [seq print_rows].
    destruct (lookup_lt_is_Some_2 s1 k) as [x Hx]; [lia|].
    destruct (lookup_lt_is_Some_2 s2 k) as [y Hy]; [lia|].
    rewrite (index_nonneg s1 (Z.of_nat k) x), (index_nonneg s2 (Z.of_nat k) y);
      rewrite ?Nat2Z.id; try done; try lia.
    cbn [mbind result_bind]. rewrite IH by lia.
    rewrite (drop_S s1 x k Hx), (drop_S s2 y k Hy). cbn [zip zip_with map].
    by rewrite <- app_assoc.
Qed.

(** X10. Whatever the two strings, the width and the margin,
    [show_comparison] side by side goes one of three ways: the wrapping
    does not end; or the wrapping raises [IndexError] and nothing is
    printed; or the two strings are cut into the same number of chunks
    and one line is printed for every chunk. The subscript [s2[i]] never
    fails, so the table is never left half printed. When it is not side
    by side, [show_comparison] prints the two strings of [equalize], one
    line each, whatever the other arguments. *)
Theorem show_comparison_outcomes s1 s2 width margin compact :
  (show_comparison s1 s2 width margin true compact = None
   \/ show_comparison s1 s2 width margin true compact = Some ([], Some IndexError)
   \/ exists out1 out2 chunks1 chunks2 lines,
        equalize s1 s2 = Ok (out1, out2)
        /\ insert_newlines out1 width margin = Some (Ok chunks1)
        /\ insert_newlines out2 width margin = Some (Ok chunks2)
        /\ length chunks1 = length chunks2
        /\ show_comparison s1 s2 width margin true compact = Some (lines, None)
        /\ length lines = length chunks1)
  /\ exists out1 out2,
       equalize s1 s2 = Ok (out1, out2)
       /\ show_comparison s1 s2 width margin false compact = Some ([out1; out2], None).
Proof.
  destruct (equalize_spaces s1 s2) as (out1 & out2 & E & Hsp).
  pose proof (insert_newlines_spaces out1 out2 width margin Hsp) as Hcuts.
  unfold show_comparison. rewrite E. split; [|by exists out1, out2].
  destruct (insert_newlines out1 width margin) as [[chunks1|e1]|] eqn:E1,
           (insert_newlines out2 width margin) as [[chunks2|e2]|] eqn:E2;
    try done; cbn [same_cuts] in Hcuts.
  - right. right. apply Forall2_length in Hcuts as Hlen.
    destruct compact;
      (rewrite (print_rows_paired _ chunks1 chunks2 Hlen (length chunks1) 0 [])
        by done);
      eexists out1, out2, chunks1, chunks2, _;
      (split; [done|]); (split; [done|]); (split; [done|]); (split; [done|]);
      (split; [reflexivity|]);
      by rewrite !drop_0, app_nil_l, length_map, length_zip, <- Hlen, Nat.min_id.
  - right. left. unfold insert_newlines in E1.
    apply insert_newlines_loop_raises in E1. by subst.
  - by left.
Qed.

Lemma cut_chunk_bounded (t : str) every window :
  (1 <= every)%Z -> (window < every)%Z -> t <> [] ->
  exists part rest, cut_chunk t every window = Ok (part, rest)
    /\ t = part ++ rest /\ part <> [] /\ length part <= Z.to_nat every.
Proof.
  intros He Hw Hne. unfold cut_chunk.
  assert (exists c, (1 <= c <= Z.of_nat (length t))%Z /\ (c <= every)%Z /\
     (if (every <? Z.of_nat (length t))%Z
      then find_cut t (every - window) (Z.to_nat window) every
      else Ok (Z.of_nat (length t))) = Ok c) as (c & Hc & Hce & ->).
  { destruct (Z.ltb_spec every (Z.of_nat (length t))) as [Hlong|Hshort].
    - destruct (find_cut_positive t (every - window) (Z.to_nat window) every)
        as (c & E & Hc); [lia..|]. exists c. split; [lia|]. split; [lia|done].
    - exists (Z.of_nat (length t)). split; [|split; [lia|done]].
      destruct t; [done|]. cbn [length]. lia. }
  cbn [mbind result_bind]. eexists _, _. split; [reflexivity|].
  unfold Seq.upto, Seq.from. rewrite clip_in_range by lia.
  split; [by rewrite take_drop|]. rewrite length_take. split; [|lia].
  intros E0. apply (f_equal length) in E0. rewrite length_take in E0. cbn in E0. lia.
Qed.

Lemma chain_Forall (Q : str -> Prop) chunks :
  chain (fun chunk _ => Q chunk) chunks -> Forall Q chunks.
Proof.
  induction chunks as [|chunk more IH]; [done|].
  cbn [chain]. intros [H1 H2]. constructor; [done|by apply IH].
Qed.

Lemma insert_newlines_bounded (t : str) every window :
  (1 <= every)%Z -> (window < every)%Z ->
  exists chunks,
    insert_newlines t every window = Some (Ok chunks)
    /\ concat chunks = t
    /\ Forall (fun chunk => length chunk <= Z.to_nat every) chunks.
Proof.
  intros He Hw.
  destruct (loop_spec (fun chunk _ => length chunk <= Z.to_nat every) every window)
    with (fuel := length t) (t := t) (chunks := @nil str)
    as (out & E & Hcat & Hchain); [|done|].
  - intros u Hu. by apply cut_chunk_bounded.
  - exists out. split; [exact E|]. split; [done|]. by apply chain_Forall.
Qed.

Lemma length_ljust width (t : str) :
  (Z.of_nat (length t) <= width)%Z -> Z.of_nat (length (ljust width t)) = width.
Proof. intros H. unfold ljust. rewrite length_app, repeat_length. lia. Qed.

Lemma length_squeeze t : length (squeeze t) <= length t.
Proof.
  induction t as [|c t IH]; [done|]. cbn [squeeze].
  destruct (Ascii.eqb c " "); [|cbn [length]; lia].
  destruct t as [|d t]; [done|]. destruct (Ascii.eqb d " "); cbn [length] in *; lia.
Qed.

Lemma length_replace_deleted old t : length (replace old [] t) <= length t.
Proof.
  induction t as [|c t IH]; [done|]. unfold replace in *. cbn [flat_map].
  destruct (Ascii.eqb c old); cbn [app length]; lia.
Qed.

(** X11. For [1 <= width] and [margin < width], [show_comparison] side
    by side ends without an exception. The two strings of [equalize] are
    cut into the same number of chunks, and one line is printed for
    every pair of chunks: the left chunk and the right chunk, each filled
    up to [width] characters (in the compact form after the underscores
    are taken out and the runs of spaces reduced to one space), each
    followed by [" | "]. Every line has [2 * width + 6] characters. *)
Theorem show_comparison_table s1 s2 width margin (compact : bool) :
  (1 <= width)%Z -> (margin < width)%Z ->
  let field := fun chunk : str =>
    if compact then ljust width (squeeze (replace "_" [] chunk))
    else ljust width chunk in
  exists out1 out2 chunks1 chunks2 lines,
    equalize s1 s2 = Ok (out1, out2)
    /\ insert_newlines out1 width margin = Some (Ok chunks1)
    /\ insert_newlines out2 width margin = Some (Ok chunks2)
    /\ length chunks1 = length chunks2
    /\ show_comparison s1 s2 width margin true compact = Some (lines, None)
    /\ lines = map (fun '(lft, rgt) => field lft ++ s " | " ++ field rgt ++ s " | ")
                   (zip chunks1 chunks2)
    /\ Forall (fun line => Z.of_nat (length line) = (2 * width + 6)%Z) lines.
Proof.
  intros Hwidth Hmargin field.
  destruct (equalize_spaces s1 s2) as (out1 & out2 & E & Hsp).
  pose proof (insert_newlines_spaces out1 out2 width margin Hsp) as Hcuts.
  destruct (insert_newlines_bounded out1 width margin Hwidth Hmargin)
    as (chunks1 & E1 & _ & Hb1).
  destruct (insert_newlines_bounded out2 width margin Hwidth Hmargin)
    as (chunks2 & E2 & _ & Hb2).
  rewrite E1, E2 in Hcuts. cbn [same_cuts] in Hcuts.
  apply Forall2_length in Hcuts as Hlen.
  exists out1, out2, chunks1, chunks2,
    (map (fun '(lft, rgt) => field lft ++ s " | " ++ field rgt ++ s " | ")
         (zip chunks1 chunks2)).
  split; [done|]. split; [done|]. split; [done|]. split; [done|]. split.
  { unfold show_comparison. rewrite E, E1, E2. unfold field.
    destruct compact;
      by rewrite (print_rows_paired _ chunks1 chunks2 Hlen (length chunks1) 0 []),
                 !drop_0 by done. }
  split; [done|].
  assert (forall chunk, length chunk <= Z.to_nat width ->
            Z.of_nat (length (field chunk)) = width) as Hfield.
  { intros chunk Hchunk. unfold field. destruct compact; apply length_ljust; [|lia].
    pose proof (length_squeeze (replace "_" [] chunk)).
    pose proof (length_replace_deleted "_" chunk). lia. }
  apply Forall_forall. intros line Hline.
  apply list_elem_of_fmap in Hline as ([lft rgt] & -> & Hpair).
  apply elem_of_zip_l in Hpair as Hl. apply elem_of_zip_r in Hpair as Hr.
  rewrite Forall_forall in Hb1, Hb2.
  rewrite !length_app, !Nat2Z.inj_add, !Hfield by auto. cbn. lia.
Qed.

Lemma show_comparison_table_example :
  (1 <= 40)%Z /\ (10 < 40)%Z
  /\ exists out1 out2 chunks1 chunks2 lines,
       equalize (s "the cat sat on the mat") (s "the cat sat on a mat") = Ok (out1, out2)
       /\ insert_newlines out1 40 10 = Some (Ok chunks1)
       /\ insert_newlines out2 40 10 = Some (Ok chunks2)
       /\ length chunks1 = length chunks2
       /\ show_comparison (s "the cat sat on the mat") (s "the cat sat on a mat")
            40 10 true false = Some (lines, None)
       /\ lines = map (fun '(lft, rgt) =>
                         ljust 40 lft ++ s " | " ++ ljust 40 rgt ++ s " | ")
                      (zip chunks1 chunks2)
       /\ Forall (fun line => Z.of_nat (length line) = (2 * 40 + 6)%Z) lines.
Proof.
  split; [lia|]. split; [lia|].
  apply (show_comparison_table (s "the cat sat on the mat") (s "the cat sat on a mat")
           40 10 false); lia.
Defined.

(** ** Collapsing duplicate words twice *)

Lemma collapse_from_fuel t fuel1 fuel2 :
  length t <= fuel1 -> length t <= fuel2 ->
  Spec.collapse_from fuel1 t = Spec.collapse_from fuel2 t.
Proof.
  intros H1 H2.
  rewrite <- (sub_from_collapse (length t) t None (length t) fuel1) by done.
  by apply (sub_from_collapse (length t)).
Qed.

Lemma span_app (P : ascii -> bool) w x :
  Forall (fun c => P c = true) w -> from_option P false (head x) = false ->
  Spec.span P (w ++ x) = (w, x).
Proof.
  intros Hw Hx. induction Hw as [|c w Hc _ IH]; [by apply span_head_false|].
  cbn [app]. rewrite span_cons_true by done. by rewrite IH.
Qed.

Lemma next_repeat_parts w t :
  exists sep w' t2,
    t = sep ++ w' ++ t2
    /\ Forall (fun c => negb (isword c) = true) sep
    /\ Forall (fun c => isword c = true) w'
    /\ head_is_word t2 = false
    /\ (w' = [] -> t2 = [])
    /\ Spec.next_repeat w t
       = if nonempty sep && bool_decide (lower w' = lower w) then Some t2 else None.
Proof.
  unfold Spec.next_repeat.
  pose proof (span_spec (fun c => negb (isword c)) t) as (Ht & Hsep & Hhead).
  destruct (Spec.span (fun c => negb (isword c)) t) as [sep t1].
  pose proof (span_spec isword t1) as (Ht1 & Hw' & Hhead').
  destruct (Spec.span isword t1) as [w' t2]. cbn [fst snd] in *.
  exists sep, w', t2. rewrite Ht, Ht1. repeat split; try done.
  intros ->. cbn [app] in Ht1. subst t1.
  destruct t2 as [|c t2]; [done|]. cbn [head from_option] in *.
  rewrite Hhead' in Hhead. done.
Qed.

Lemma skip_repeats_stop w : forall fuel t,
  length t <= fuel -> Spec.next_repeat w (Spec.skip_repeats fuel w t) = None.
Proof.
  induction fuel as [|fuel IH]; intros t Hfuel.
  - by destruct t; [|cbn in Hfuel; lia].
  - cbn [Spec.skip_repeats]. destruct (Spec.next_repeat w t) as [t2|] eqn:E; [|done].
    apply IH. apply next_repeat_shorter in E. lia.
Qed.

Lemma next_repeat_head w t t2 :
  Spec.next_repeat w t = Some t2 -> head_is_word t2 = false.
Proof.
  destruct (next_repeat_parts w t) as (sep & w' & t3 & _ & _ & _ & Hhead & _ & ->).
  destruct (_ && _); [|done]. by intros [= <-].
Qed.

Lemma skip_repeats_head w : forall fuel t,
  head_is_word t = false -> head_is_word (Spec.skip_repeats fuel w t) = false.
Proof.
  induction fuel as [|fuel IH]; intros t Ht; [done|].
  cbn [Spec.skip_repeats]. destruct (Spec.next_repeat w t) as [t2|] eqn:E; [|done].
  apply IH. by apply next_repeat_head in E.
Qed.

Lemma skip_repeats_suffix w : forall fuel t,
  exists x, t = x ++ Spec.skip_repeats fuel w t.
Proof.
  induction fuel as [|fuel IH]; intros t; [by exists []|].
  cbn [Spec.skip_repeats]. destruct (Spec.next_repeat w t) as [t2|] eqn:E; [|by exists []].
  destruct (next_repeat_parts w t) as (sep & w' & t3 & Ht & _ & _ & _ & _ & E').
  rewrite E' in E. destruct (_ && _); [|done]. injection E as <-.
  destruct (IH t3) as [x Hx]. exists (sep ++ w' ++ x).
  rewrite Ht at 1. rewrite Hx at 1. by rewrite <- !app_assoc.
Qed.

Lemma collapse_nonword c t :
  isword c = false ->
  Spec.collapse_duplicates (c :: t) = c :: Spec.collapse_duplicates t.
Proof.
  intros Hc. unfold Spec.collapse_duplicates. cbn [length Spec.collapse_from].
  by rewrite Hc.
Qed.

Lemma collapse_separator sep x :
  Forall (fun c => negb (isword c) = true) sep ->
  Spec.collapse_duplicates (sep ++ x) = sep ++ Spec.collapse_duplicates x.
Proof.
  induction 1 as [|c sep Hc _ IH]; [done|]. cbn [app].
  rewrite collapse_nonword by by apply negb_true_iff. by rewrite IH.
Qed.

Lemma collapse_word w t1 :
  w <> [] -> Forall (fun c => isword c = true) w -> head_is_word t1 = false ->
  Spec.collapse_duplicates (w ++ t1)
  = w ++ Spec.collapse_duplicates (Spec.skip_repeats (length t1) w t1).
Proof.
  intros Hne Hw Ht1. destruct w as [|c w]; [done|].
  pose proof (span_app isword (c :: w) t1 Hw Ht1) as Hspan.
  apply Forall_cons in Hw as [Hc Hw].
  unfold Spec.collapse_duplicates. cbn [app length Spec.collapse_from].
  rewrite Hc. cbn [app] in Hspan. rewrite Hspan. cbn [app]. do 2 f_equal.
  apply collapse_from_fuel; [|done].
  pose proof (skip_repeats_length (length t1) (c :: w) t1).
  rewrite length_app. lia.
Qed.

Lemma word_parts t :
  head_is_word t = true ->
  exists w t1, t = w ++ t1 /\ w <> [] /\ Forall (fun c => isword c = true) w
    /\ head_is_word t1 = false.
Proof.
  intros Ht. pose proof (span_spec isword t) as (E & Hw & Hhead).
  exists (fst (Spec.span isword t)), (snd (Spec.span isword t)).
  split; [done|]. split; [|done].
  destruct t as [|c t]; [done|]. unfold head_is_word in Ht. cbn in Ht.
  rewrite span_cons_true by done. done.
Qed.

Lemma collapse_head t :
  head_is_word (Spec.collapse_duplicates t) = head_is_word t.
Proof.
  destruct (head_is_word t) eqn:Ht.
  - destruct (word_parts t Ht) as (w & t1 & -> & Hne & Hw & Ht1).
    rewrite collapse_word by done. destruct w as [|c w]; [done|].
    apply Forall_cons in Hw as [Hc _]. unfold head_is_word. cbn. exact Hc.
  - destruct t as [|c t]; [done|]. unfold head_is_word in Ht. cbn in Ht.
    rewrite collapse_nonword by done. unfold head_is_word. cbn. exact Ht.
Qed.

Lemma next_repeat_collapse w r :
  Spec.next_repeat w r = None ->
  Spec.next_repeat w (Spec.collapse_duplicates r) = None.
Proof.
  destruct (next_repeat_parts w r) as (sep & w' & t2 & -> & Hsep & Hw' & Ht2 & Hnil & ->).
  intros Hcond. rewrite collapse_separator by done.
  unfold Spec.next_repeat. destruct w' as [|c w'].
  - rewrite (Hnil eq_refl). cbn [app]. change (Spec.collapse_duplicates []) with (@nil ascii).
    pose proof (span_app (fun c => negb (isword c)) sep [] Hsep eq_refl) as Hspan.
    rewrite app_nil_r in Hspan |- *. rewrite Hspan.
    cbn [Spec.span]. by destruct (_ && _).
  - rewrite collapse_word by done.
    assert (head_is_word
              (Spec.collapse_duplicates (Spec.skip_repeats (length t2) (c :: w') t2))
            = false) as Hz by (rewrite collapse_head; by apply skip_repeats_head).
    rewrite span_app; [|done|].
    + rewrite span_app by done. by destruct (_ && _).
    + apply Forall_cons in Hw' as [Hc _]. cbn. by rewrite Hc.
Qed.

Lemma collapse_idempotent n : forall t,
  length t <= n ->
  Spec.collapse_duplicates (Spec.collapse_duplicates t) = Spec.collapse_duplicates t.
Proof.
  induction n as [|n IH]; intros t Hn.
  { by destruct t; [|cbn in Hn; lia]. }
  destruct (head_is_word t) eqn:Ht.
  - destruct (word_parts t Ht) as (w & t1 & -> & Hne & Hw & Ht1).
    rewrite collapse_word by done.
    set (r := Spec.skip_repeats (length t1) w t1).
    assert (head_is_word (Spec.collapse_duplicates r) = false) as Hz
      by (rewrite collapse_head; by apply skip_repeats_head).
    rewrite collapse_word by done.
    rewrite skip_repeats_none
      by (apply next_repeat_collapse, skip_repeats_stop; done).
    f_equal. apply IH.
    pose proof (skip_repeats_length (length t1) w t1). fold r in H.
    rewrite length_app in Hn. destruct w; [done|]. cbn in Hn. lia.
  - destruct t as [|c t]; [done|]. unfold head_is_word in Ht. cbn in Ht.
    rewrite !collapse_nonword by done. f_equal. apply IH. cbn in Hn. lia.
Qed.

Lemma collapse_from_Forall (P : ascii -> Prop) : forall fuel t,
  Forall P t -> Forall P (Spec.collapse_from fuel t).
Proof.
  induction fuel as [|fuel IH]; intros t Ht; [done|].
  destruct t as [|c t]; [done|]. cbn [Spec.collapse_from].
  destruct (isword c).
  - pose proof (span_spec isword (c :: t)) as (E & _).
    destruct (Spec.span isword (c :: t)) as [w t1]. cbn [fst snd] in E.
    rewrite E in Ht. apply Forall_app in Ht as [Hw Ht1].
    apply Forall_app. split; [done|]. apply IH.
    destruct (skip_repeats_suffix w (length t1) t1) as [x Hx].
    rewrite Hx in Ht1. by apply Forall_app in Ht1 as [_ ?].
  - apply Forall_cons in Ht as [Hc Ht]. constructor; [done|by apply IH].
Qed.

Lemma collapse_length t : length (Spec.collapse_duplicates t) <= length t.
Proof.
  unfold Spec.collapse_duplicates. generalize (length t) at 1. intros fuel.
  revert t. induction fuel as [|fuel IH]; intros t; [done|].
  destruct t as [|c t]; [done|]. cbn [Spec.collapse_from].
  destruct (isword c).
  - pose proof (span_spec isword (c :: t)) as (E & _).
    destruct (Spec.span isword (c :: t)) as [w t1]. cbn [fst snd] in E.
    rewrite E, !length_app.
    pose proof (skip_repeats_length (length t1) w t1).
    specialize (IH (Spec.skip_repeats (length t1) w t1)). lia.
  - specialize (IH t). cbn [length]. lia.
Qed.

(** X12. [remove_consecutive_duplicates] does in one pass all it can do:
    applied to its own result it changes nothing, whatever the text. The
    result is never longer than the text. *)
Theorem remove_consecutive_duplicates_idempotent text :
  remove_consecutive_duplicates (remove_consecutive_duplicates text)
  = remove_consecutive_duplicates text
  /\ length (remove_consecutive_duplicates text) <= length text.
Proof.
  rewrite !remove_consecutive_duplicates_spec. split.
  - by apply (collapse_idempotent (length text)).
  - apply collapse_length.
Qed.

(** ** Case *)

Lemma is_punctuation_lower c :
  Spec.is_punctuation (char_lower c) = Spec.is_punctuation c.
Proof. each_char c. Qed.






















(** ** Punctuation in the cleaned text *)

Lemma split_Forall (Q : ascii -> Prop) t :
  Forall Q t -> Forall (Forall Q) (split t).
Proof.
  induction 1 as [|c t Hc Ht IH]; [constructor|].
  cbn [split]. destruct (isspace c); [done|].
  destruct t as [|d t]; [by repeat constructor|].
  destruct (isspace d); [constructor; [by repeat constructor|done]|].
  destruct (split (d :: t)) as [|w ws]; [by repeat constructor|].
  apply Forall_cons in IH as [Hw Hws]. constructor; [by constructor|done].
Qed.

Lemma join_Forall (Q : ascii -> Prop) ws :
  Q " "%char -> Forall (Forall Q) ws -> Forall Q (join (s " ") ws).
Proof.
  intros Hsp. induction 1 as [|w ws Hw Hws IH]; [constructor|].
  destruct ws as [|w' ws]; [done|]. rewrite join_cons_cons.
  apply Forall_app. split; [done|]. by constructor.
Qed.

Lemma Forall_list_filter {A} (R : A -> Prop) (keep : A -> bool) l :
  Forall R l -> Forall R (List.filter keep l).
Proof.
  induction 1 as [|x l Hx _ IH]; [constructor|].
  cbn [List.filter]. destruct (keep x); [by constructor|done].
Qed.

Lemma not_punctuation c : c ∉ punctuation <-> Spec.is_punctuation c = false.
Proof. rewrite <- punctuation_spec. symmetry. apply bool_decide_eq_false. Qed.

Lemma strip_punctuation_free t :
  Forall (fun c => c ∉ punctuation) (Spec.strip_punctuation t).
Proof.
  unfold Spec.strip_punctuation. induction t as [|c t IH]; [constructor|].
  cbn [List.filter]. destruct (Spec.is_punctuation c) eqn:Hc; cbn [negb]; [done|].
  constructor; [by apply not_punctuation|done].
Qed.

Lemma lower_punctuation_free w :
  Forall (fun c => c ∉ punctuation) (lower w) <-> Forall (fun c => c ∉ punctuation) w.
Proof.
  unfold lower. rewrite Forall_fmap. apply Forall_iff. intros c. cbn.
  by rewrite !not_punctuation, is_punctuation_lower.
Qed.

Lemma punctuation_in_key key :
  Exists (fun c => c ∈ punctuation) key -> Forall (fun c => c ∉ punctuation) key -> False.
Proof.
  intros Hex Hall. apply Exists_exists in Hex as (c & Hin & Hc).
  rewrite Forall_forall in Hall. by apply (Hall c).
Qed.

(** The cleaned text holds no punctuation when a word without
    punctuation is never replaced by a text with punctuation. *)
Lemma clean_text_punctuation_free text replacements to_remove cased :
  (forall w full, Forall (fun c => c ∉ punctuation) w ->
     replacements !! lower w = Some full -> Forall (fun c => c ∉ punctuation) full) ->
  Forall (fun c => c ∉ punctuation) (clean_text text replacements to_remove cased).
Proof.
  intros Hfull. rewrite clean_text_steps, remove_consecutive_duplicates_spec.
  assert (" "%char ∉ punctuation) as Hsp by (by apply not_punctuation).
  assert (Forall (fun c => c ∉ punctuation)
            (Spec.collapse_duplicates
               (Spec.drop_words to_remove
                  (Spec.replace_words replacements
                     (Spec.strip_punctuation
                        (Spec.replace_words replacements
                           (Spec.hyphens_to_spaces text))))))) as H.
  { apply collapse_from_Forall. apply join_Forall; [done|].
    apply Forall_list_filter, split_Forall, join_Forall; [done|].
    apply Forall_fmap.
    eapply Forall_impl; [apply split_Forall, strip_punctuation_free|].
    intros w Hw. cbn. unfold Spec.substitute.
    destruct (replacements !! lower w) as [full|] eqn:E; [by eapply Hfull|done]. }
  destruct cased; [done|]. by apply lower_punctuation_free.
Qed.

(** X14. When every key of the replacements holds a punctuation
    character or is replaced by a text without punctuation, the text
    [clean_text] returns holds none of the characters of
    [string.punctuation]; in particular it holds no hyphen and no
    apostrophe. *)
Theorem clean_text_no_punctuation text replacements to_remove cased :
  map_Forall (fun key full => Exists (fun c => c ∈ punctuation) key
                              \/ Forall (fun c => c ∉ punctuation) full)
             replacements ->
  Forall (fun c => c ∉ punctuation) (clean_text text replacements to_remove cased).
Proof.
  intros Htable. apply clean_text_punctuation_free. intros w full Hw E.
  destruct (Htable _ _ E) as [Hkey|Hfull]; [|done].
  exfalso. apply (punctuation_in_key _ Hkey). by apply lower_punctuation_free.
Qed.

Lemma clean_text_no_punctuation_example :
  map_Forall (fun key full => Exists (fun c => c ∈ punctuation) key
                              \/ Forall (fun c => c ∉ punctuation) full)
             (<[s "gonna" := s "going to"]> en_short_forms)
  /\ Forall (fun c => c ∉ punctuation)
            (clean_text (s "Well - I'm gonna say: it's a so-called 'test'!")
                        (<[s "gonna" := s "going to"]> en_short_forms) [s "well"] true).
Proof.
  assert (map_Forall (fun key full => Exists (fun c => c ∈ punctuation) key
                                      \/ Forall (fun c => c ∉ punctuation) full)
                     (<[s "gonna" := s "going to"]> en_short_forms)) as Htable
    by (apply (bool_decide_unpack _); vm_compute; reflexivity).
  split; [exact Htable|]. by apply clean_text_no_punctuation.
Defined.

(** ** Cleaning a cleaned text *)




(** ** The character error rate and the weighted average *)

(** X16. When the cleaned reference is not empty, [calculate_cer]
    returns [round(100 * (d / n), 2)], where [d] is the edit distance
    between the characters of the two cleaned texts and [n] the number of
    characters of the cleaned reference; the single spaces between the
    words count as characters, and there is no other whitespace to strip
    in a cleaned text. *)
Theorem calculate_cer_formula ground_true hypothesis replacements to_remove cased :
  let ref_chars := clean_text ground_true replacements to_remove cased in
  let hyp_chars := clean_text hypothesis replacements to_remove cased in
  ref_chars <> [] ->
  calculate_cer ground_true hypothesis replacements to_remove cased
  = Ok (Float.round2
          (100 * (Float.nearest_int (Z.of_nat (Jiwer.levenshtein ref_chars hyp_chars))
                  / Float.nearest_int (Z.of_nat (length ref_chars))))).
Proof.
  intros ref_chars hyp_chars Hne.
  unfold calculate_cer, Jiwer.cer, Jiwer.error_rate.
  rewrite !strip_single_spaced by apply clean_text_single_spaced.
  fold ref_chars hyp_chars.
  destruct ref_chars as [|c cs] eqn:E; [congruence|].
  reflexivity.
Qed.

Lemma calculate_cer_examples :
  calculate_cer (s "the cat") (s "the cat") ∅ [] true = Ok 0%float
  /\ calculate_cer (s "The cat!") (s "the  hat") ∅ [] false = Ok 14.29%float.
Proof.
  split.
  - rewrite (calculate_cer_formula (s "the cat") (s "the cat") ∅ [] true).
    + vm_compute. reflexivity.
    + vm_compute. discriminate.
  - rewrite (calculate_cer_formula (s "The cat!") (s "the  hat") ∅ [] false).
    + vm_compute. reflexivity.
    + vm_compute. discriminate.
Defined.

Lemma fold_left_add_from (l : list Z) (a : Z) :
  fold_left Z.add l a = (a + sum_int l)%Z.
Proof.
  unfold sum_int. revert a. induction l as [|x l IH]; intros a; cbn [fold_left]; [lia|].
  rewrite (IH (a + x)%Z), (IH (0 + x)%Z). lia.
Qed.

Lemma sum_int_app l1 l2 : sum_int (l1 ++ l2) = (sum_int l1 + sum_int l2)%Z.
Proof. unfold sum_int at 1. rewrite fold_left_app. apply fold_left_add_from. Qed.

Lemma products_surplus_weights weights more wers :
  length wers <= length weights ->
  products (weights ++ more) wers = products weights wers.
Proof.
  intros Hlen. unfold products.
  rewrite (zip_with_app_l pair weights more wers), drop_ge by done.
  by rewrite zip_with_nil_r, app_nil_r, (zip_with_take_r pair weights wers).
Qed.

(** X17. [weighted_wer] pairs the weights with the rates by [zip] and
    reports no difference of length. The rates beyond the number of
    weights play no part in the result. The weights beyond the number of
    rates are never multiplied by a rate: they play a part through their
    sum only, which is added to the divisor. *)
Theorem weighted_wer_surplus weights wers more1 more2 :
  weighted_wer weights wers = weighted_wer weights (take (length weights) wers)
  /\ (length wers <= length weights -> sum_int more1 = sum_int more2 ->
      weighted_wer (weights ++ more1) wers = weighted_wer (weights ++ more2) wers).
Proof.
  split.
  - unfold weighted_wer, products. by rewrite (zip_with_take_r pair weights wers).
  - intros Hlen Hsum. unfold weighted_wer.
    by rewrite !products_surplus_weights, !sum_int_app, Hsum.
Qed.

Lemma weighted_wer_surplus_example :
  weighted_wer [3%Z; 1%Z] [0%float; 100%float; 50%float]
  = weighted_wer [3%Z; 1%Z] [0%float; 100%float]
  /\ length [0%float; 100%float] <= length [3%Z; 1%Z]
  /\ sum_int [2%Z; 2%Z] = sum_int [4%Z]
  /\ weighted_wer ([3%Z; 1%Z] ++ [2%Z; 2%Z]) [0%float; 100%float]
     = weighted_wer ([3%Z; 1%Z] ++ [4%Z]) [0%float; 100%float]
  /\ weighted_wer ([3%Z; 1%Z] ++ [4%Z]) [0%float; 100%float] = Ok 12.5%float.
Proof.
  destruct (weighted_wer_surplus [3%Z; 1%Z] [0%float; 100%float; 50%float] [] [])
    as [H1 _].
  destruct (weighted_wer_surplus [3%Z; 1%Z] [0%float; 100%float] [2%Z; 2%Z] [4%Z])
    as [_ H2].
  split; [exact H1|]. split; [cbn; lia|]. split; [reflexivity|].
  split; [apply H2; [cbn; lia|reflexivity]|]. vm_compute. reflexivity.
Defined.

(** ** The loop of [replace_words] *)

Lemma lstrip_app_space x :
  lstrip (x ++ s " ") = match lstrip x with [] => [] | y => y ++ s " " end.
Proof.
  induction x as [|c x IH]; [done|]. cbn [app lstrip].
  destruct (isspace c); [exact IH|done].
Qed.

Lemma strip_app_space x : strip (x ++ s " ") = strip x.
Proof.
  unfold strip. rewrite lstrip_app_space. destruct (lstrip x) as [|c y]; [done|].
  unfold rstrip. change (s " ") with [" "%char]. by rewrite rev_unit.
Qed.

(** X18. [replace_words] returns the words of the text, a word whose
    lowercase form is a key replaced by the value of the key, joined by
    single spaces, with the whitespace stripped at the two ends of the
    whole: a value is put in as it is, so a value that is empty or holds
    whitespace shows inside the result. With no replacement the function
    still rewrites the whitespace between the words as single spaces. *)
Theorem replace_words_joined text replacements :
  replace_words text replacements
  = strip (join (s " ")
             (map (fun word => default word (replacements !! lower word))
                  (split text)))
  /\ replace_words text ∅ = join (s " ") (split text).
Proof.
  assert (forall r, replace_words text r
            = strip (join (s " ")
                       (map (fun word => default word (r !! lower word)) (split text))))
    as Hloop.
  { intros r. rewrite replace_words_loop.
    change (fun w => Spec.substitute r w ++ s " ")
      with (fun w => (fun u => u ++ s " ") (Spec.substitute r w)).
    rewrite <- (map_map (Spec.substitute r) (fun u => u ++ s " ")).
    destruct (split text) as [|w ws]; [done|].
    rewrite concat_trailing by done. apply strip_app_space. }
  split; [apply Hloop|]. rewrite Hloop.
  rewrite (map_ext _ id) by (intros w; by rewrite lookup_empty).
  rewrite map_id. apply strip_single_spaced, join_single_spaced, split_words.
Qed.

(** ** A text aligned with itself *)

(** X19. [equalize] of a text with itself puts in no gap-filler: both
    strings it returns are the tokens of the text joined by single
    spaces. They are the text itself exactly when every whitespace
    character of the text is a space that stands alone. *)
Theorem equalize_self t :
  equalize t t = Ok (untokenize (tokenize t), untokenize (tokenize t))
  /\ (equalize t t = Ok (t, t) <-> lone_spaces t = true).
Proof.
  unfold equalize. rewrite equalize_tokens_same. cbn [mbind result_bind].
  split; [done|]. split.
  - intros [= E _]. rewrite <- E at 1. apply (lone_spaces_join t false).
  - intros H. unfold untokenize, tokenize. by rewrite (join_lone_spaces t H).
Qed.
